(** * Numeric secondary index (src/filter/numeric_index.hpp)

    A shallow embedding of the sortable-key codec, the [Bucket] structure
    with its binary payload, and the [NumericIndex] operations over an
    ordered key-value store, followed by the properties proved about them.

    Machine integers are integers of [Z] with the wrap-around written out;
    payloads are lists of bytes; keys are strings of raw characters ordered
    lexicographically, as the store orders them. *)

From Stdlib Require Import ZArith Lia Bool List Ascii String.
From Stdlib Require Import Strings.Byte Floats.SpecFloat.
From stdpp Require Import gmap strings list fin_maps pretty sorting.

Local Open Scope Z_scope.

Ltac Zify.zify_post_hook ::= Z.to_euclidean_division_equations.

(** ** Machine integers *)

Definition wrap32 (z : Z) : Z := z mod 2^32.
Definition wrap16 (z : Z) : Z := z mod 2^16.

(** [static_cast<int32_t>] of a 32-bit pattern (two's complement). *)
Definition to_int32 (z : Z) : Z :=
  let u := wrap32 z in if u <? 2^31 then u else u - 2^32.

Definition is_u32 (z : Z) : Prop := 0 <= z < 2^32.
Definition is_u16 (z : Z) : Prop := 0 <= z < 2^16.
Definition is_i32 (z : Z) : Prop := - 2^31 <= z < 2^31.

(** ** Sortable key utilities

    A [float] is carried by its IEEE-754 binary32 bit pattern, which is what
    [std::memcpy(&i, &f, sizeof(float))] moves in and out. *)

Definition float_to_sortable (f : Z) : Z :=
  let i := f in
  let mask := Z.lor (wrap32 (Z.shiftr (to_int32 i) 31)) 0x80000000 in
  Z.lxor i mask.

Definition sortable_to_float (i : Z) : Z :=
  let mask := Z.lor (wrap32 (Z.shiftr i 31 - 1)) 0x80000000 in
  let result := Z.lxor i mask in
  result.

Definition int_to_sortable (i : Z) : Z :=
  Z.lxor (wrap32 i) 0x80000000.

Definition sortable_to_int (i : Z) : Z :=
  to_int32 (Z.lxor i 0x80000000).

(** The value a binary32 bit pattern denotes: sign bit 31, eight exponent
    bits, twenty-three fraction bits (IEEE-754; the C++ [float] of the
    source). Comparison of floats is [SFltb] on the denoted values. *)
Definition float_sign (f : Z) : bool := Z.testbit f 31.
Definition float_exp (f : Z) : Z := (f / 2^23) mod 2^8.
Definition float_frac (f : Z) : Z := f mod 2^23.

Definition float_value (f : Z) : spec_float :=
  let s := float_sign f in
  let e := float_exp f in
  let m := float_frac f in
  if e =? 0 then
    if m =? 0 then S754_zero s else S754_finite s (Z.to_pos m) (-149)
  else if e =? 255 then
    if m =? 0 then S754_infinity s else S754_nan
  else S754_finite s (Z.to_pos (m + 2^23)) (e - 150).

Definition float_finite (f : Z) : Prop := float_exp f <> 255.

Definition float_lt (a b : Z) : Prop := SFltb (float_value a) (float_value b) = true.

Definition neg_zero : Z := 0x80000000.
Definition pos_zero : Z := 0.

Example float_to_sortable_samples :
  float_to_sortable 0x3F800000 = 0xBF800000 /\
  float_to_sortable 0xBF800000 = 0x407FFFFF /\
  sortable_to_float 0x407FFFFF = 0xBF800000 /\
  int_to_sortable (-1) = 0x7FFFFFFF /\
  sortable_to_int 0x7FFFFFFF = -1.
Proof. repeat split; reflexivity. Qed.

(** ** Errors

    Every failure of the source is a [std::runtime_error]; the constructors
    below name them by their message. *)

Inductive error : Type :=
  | InsertBelowBase        (* "Insert value < Base Value" *)
  | DeltaOverflow          (* "Delta overflow" *)
  | CorruptBitmapSize      (* "Bucket corrupt: invalid bitmap size" *)
  | CorruptTruncatedCount  (* "Bucket corrupt: truncated count" *)
  | CorruptTruncatedData   (* "Bucket corrupt: truncated Data" *)
  | BitmapReadFailed       (* thrown by RoaringBitmap::read *)
  | CursorSyncFail.        (* "Cursor sync fail" *)

Definition is_invariant_violation (e : error) : bool :=
  match e with InsertBelowBase | DeltaOverflow => true | _ => false end.

Definition is_corrupt (e : error) : bool :=
  match e with
  | CorruptBitmapSize | CorruptTruncatedCount | CorruptTruncatedData => true
  | _ => false
  end.

Inductive result (A : Type) : Type :=
  | Ok (a : A)
  | Err (e : error).
Arguments Ok {A} a.
Arguments Err {A} e.

Definition rbind {A B : Type} (r : result A) (k : A -> result B) : result B :=
  match r with Ok a => k a | Err e => Err e end.

Notation "'let!' x ':=' r 'in' k" := (rbind r (fun x => k))
  (at level 10, x name, r at level 100, k at level 200).

Definition is_ok {A : Type} (r : result A) : bool :=
  match r with Ok _ => true | Err _ => false end.

(** ** Bytes *)

Definition byte_of_Z (z : Z) : byte :=
  match Byte.of_N (Z.to_N (z mod 256)) with Some b => b | None => x00 end.

Definition Z_of_byte (b : byte) : Z := Z.of_N (Byte.to_N b).

(** [n] bytes of [z], least significant first ([memcpy] of an integer on a
    little-endian host). *)
Fixpoint le_bytes (n : nat) (z : Z) : list byte :=
  match n with
  | O => []
  | S n' => byte_of_Z z :: le_bytes n' (z / 256)
  end.

Fixpoint le_value (bs : list byte) : Z :=
  match bs with
  | [] => 0
  | b :: r => Z_of_byte b + 256 * le_value r
  end.

(** [n] integers of [w] bytes each, read from the front of [bs]. *)
Fixpoint le_array (w n : nat) (bs : list byte) : list Z :=
  match n with
  | O => []
  | S n' => le_value (take w bs) :: le_array w n' (drop w bs)
  end.

(** ** The summary bitmap

    [ndd::RoaringBitmap] (third_party/roaring_bitmap) is a set of 32-bit ids;
    its contents are a [gset Z]. Its serialized form is the library's own:
    it is taken as a parameter, with the two facts the bucket payload relies
    on. [bm_write] stands for [runOptimize] followed by [write], whose length
    is [getSizeInBytes]; [bm_read] for [read], which is given the start of
    the bitmap and finds its end itself, and throws on bytes it rejects. *)

Class BitmapCodec : Type := {
  bm_write : gset Z -> list byte;
  bm_read : list byte -> option (gset Z);
  bm_read_write : forall (s : gset Z) (rest : list byte),
    set_Forall is_u32 s -> bm_read (bm_write s ++ rest) = Some s;
  bm_size_fits : forall s : gset Z,
    set_Forall is_u32 s -> Z.of_nat (size s) <= 65535 ->
    Z.of_nat (length (bm_write s)) < 2^32
}.

(** ** Bucket structure *)

Record Bucket : Type := mkBucket {
  base_value : Z;
  deltas : list Z;
  ids : list Z;
  summary_bitmap : gset Z;
  is_dirty : bool
}.

Definition MAX_SIZE : nat := 1024.
Definition MAX_DELTA : Z := 65535.
(** [sizeof(ndd::idInt)] in the default build (NDD_USE_64BIT_IDS unset). *)
Definition ID_BYTES : nat := 4.

(** [std::lower_bound] on a range sorted by [<]: the first position whose
    element is not less than [d]. *)
Fixpoint lower_bound (l : list Z) (d : Z) : nat :=
  match l with
  | [] => O
  | x :: r => if x <? d then S (lower_bound r d) else O
  end.

Definition vec_insert {A : Type} (i : nat) (x : A) (l : list A) : list A :=
  take i l ++ x :: drop i l.

Fixpoint find_id (l : list Z) (id : Z) : option nat :=
  match l with
  | [] => None
  | x :: r => if x =? id then Some O else S <$> find_id r id
  end.

Module Bucket.

Definition empty (base_val : Z) : Bucket :=
  mkBucket base_val [] [] ∅ false.

Definition get_value (b : Bucket) (index : nat) : Z :=
  wrap32 (base_value b + deltas b !!! index).

Definition add (b : Bucket) (val id : Z) : result Bucket :=
  if val <? base_value b then Err InsertBelowBase
  else
    let delta_32 := wrap32 (val - base_value b) in
    if delta_32 >? MAX_DELTA then Err DeltaOverflow
    else
      let delta := wrap16 delta_32 in
      let index := lower_bound (deltas b) delta in
      Ok (mkBucket (base_value b)
            (vec_insert index delta (deltas b))
            (vec_insert index id (ids b))
            ({[ id ]} ∪ summary_bitmap b)
            true).

Definition remove (b : Bucket) (id : Z) : Bucket * bool :=
  match find_id (ids b) id with
  | Some i =>
      (mkBucket (base_value b) (delete i (deltas b)) (delete i (ids b))
         (summary_bitmap b ∖ {[ id ]}) true, true)
  | None => (b, false)
  end.

Definition is_full (b : Bucket) : bool := (MAX_SIZE <=? length (ids b))%nat.
Definition is_empty (b : Bucket) : bool :=
  match ids b with [] => true | _ => false end.

Section Payload.
Context `{BitmapCodec}.

(** Layout: bitmap size (4), bitmap bytes, count (2), deltas (2 each),
    ids ([ID_BYTES] each). *)
Definition serialize (b : Bucket) : list byte :=
  let bm := bm_write (summary_bitmap b) in
  let bm_size := Z.of_nat (length bm) in
  let count := wrap16 (Z.of_nat (length (ids b))) in
  let bm_size_32 := wrap32 bm_size in
  le_bytes 4 bm_size_32
    ++ bm
    ++ le_bytes 2 count
    ++ flat_map (le_bytes 2) (take (Z.to_nat count) (deltas b))
    ++ flat_map (le_bytes ID_BYTES) (take (Z.to_nat count) (ids b)).

Definition deserialize (data : list byte) (base_val : Z) : result Bucket :=
  let len := Z.of_nat (length data) in
  if len <? 6 then Ok (empty base_val)
  else
    let bm_size := le_value (take 4 data) in
    let p1 := drop 4 data in
    if 4 + bm_size >? len then Err CorruptBitmapSize
    else
      let! bm := (if bm_size >? 0
                  then match bm_read p1 with
                       | Some s => Ok s
                       | None => Err BitmapReadFailed
                       end
                  else Ok ∅) in
      let p2 := drop (Z.to_nat bm_size) p1 in
      if 4 + bm_size + 2 >? len then Err CorruptTruncatedCount
      else
        let count := le_value (take 2 p2) in
        let p3 := drop 2 p2 in
        if count >? 0 then
          let delta_size := count * 2 in
          let id_size := count * Z.of_nat ID_BYTES in
          if 4 + bm_size + 2 + delta_size + id_size >? len
          then Err CorruptTruncatedData
          else
            Ok (mkBucket base_val
                  (le_array 2 (Z.to_nat count) p3)
                  (le_array ID_BYTES (Z.to_nat count)
                     (drop (Z.to_nat delta_size) p3))
                  bm false)
        else Ok (mkBucket base_val [] [] bm false).

Definition read_summary_bitmap (data : list byte) : result (gset Z) :=
  let bm_size := le_value (take 4 data) in
  if bm_size =? 0 then Ok ∅
  else match bm_read (drop 4 data) with
       | Some s => Ok s
       | None => Err BitmapReadFailed
       end.

End Payload.
End Bucket.

(** ** The ordered key-value store

    A table of the store is a finite map from keys to values; the store keeps
    keys in lexicographic order of their bytes ([String.compare]). A cursor
    is at a key of the table; each cursor operation yields the entry it
    moves to, or nothing (MDBX_NOTFOUND). *)

Definition kv_keys (m : gmap string (list byte)) : list string :=
  (map_to_list m).*1.

Definition key_min (k : string) (acc : option string) : option string :=
  match acc with
  | None => Some k
  | Some k' => if String.leb k k' then Some k else Some k'
  end.

Definition key_max (k : string) (acc : option string) : option string :=
  match acc with
  | None => Some k
  | Some k' => if String.leb k' k then Some k else Some k'
  end.

Definition least (l : list string) : option string := foldr key_min None l.
Definition greatest (l : list string) : option string := foldr key_max None l.

Definition entry_at (m : gmap string (list byte)) (ok : option string)
  : option (string * list byte) :=
  match ok with
  | Some k => match m !! k with Some d => Some (k, d) | None => None end
  | None => None
  end.

(** MDBX_SET_RANGE: the first entry whose key is at least [k]. *)
Definition cursor_set_range (m : gmap string (list byte)) (k : string) :=
  entry_at m (least (filter (fun k' => String.leb k k') (kv_keys m))).

(** MDBX_PREV and MDBX_NEXT from a cursor at key [c]. *)
Definition cursor_prev (m : gmap string (list byte)) (c : string) :=
  entry_at m (greatest (filter (fun k' => String.ltb k' c) (kv_keys m))).

Definition cursor_next (m : gmap string (list byte)) (c : string) :=
  entry_at m (least (filter (fun k' => String.ltb c k') (kv_keys m))).

(** MDBX_LAST. *)
Definition cursor_last (m : gmap string (list byte)) :=
  entry_at m (greatest (kv_keys m)).

(** ** Keys of the two tables *)

Definition char_of_Z (z : Z) : ascii := ascii_of_N (Z.to_N (z mod 256)).
Definition Z_of_char (c : ascii) : Z := Z.of_N (N_of_ascii c).

(** The four bytes of a 32-bit value, most significant first
    ([__builtin_bswap32] followed by a copy of the word's bytes). *)
Definition be32 (v : Z) : string :=
  String (char_of_Z (v / 2^24))
    (String (char_of_Z (v / 2^16))
       (String (char_of_Z (v / 2^8))
          (String (char_of_Z v) EmptyString))).

Fixpoint be_value (s : string) (acc : Z) : Z :=
  match s with
  | EmptyString => acc
  | String c r => be_value r (256 * acc + Z_of_char c)
  end.

Definition field_prefix (field : string) : string := field +:+ ":".

(** [key.rfind(field + ":", 0) == 0] *)
Definition has_field_prefix (key field : string) : bool :=
  String.prefix (field_prefix field) key.

Record NumericIndex : Type := mkIndex {
  forward_dbi_ : gmap string (list byte);
  inverted_dbi_ : gmap string (list byte)
}.

Module NumericIndex.

Definition empty : NumericIndex := mkIndex ∅ ∅.

Definition make_forward_key (field : string) (id : Z) : string :=
  field +:+ ":" +:+ pretty (Z.to_N id).

Definition make_bucket_key (field : string) (start_val : Z) : string :=
  field +:+ ":" +:+ be32 start_val.

Definition parse_bucket_key_val (key : string) : Z :=
  if (String.length key <? 4)%nat then 0
  else be_value (substring (String.length key - 4) 4 key) 0.

Section Ops.
Context `{BitmapCodec}.

(** The cursor walk shared by [remove_from_buckets] and [add_to_buckets]:
    MDBX_SET_RANGE, then MDBX_PREV when the entry found is of another field
    or starts above [value], or MDBX_LAST when nothing was found. *)
Definition seek_bucket (inv : gmap string (list byte)) (field : string) (value : Z)
  : option (string * list byte) :=
  match cursor_set_range inv (make_bucket_key field value) with
  | Some (found_key, data) =>
      if negb (has_field_prefix found_key field)
         || (parse_bucket_key_val found_key >? value)
      then cursor_prev inv found_key
      else Some (found_key, data)
  | None => cursor_last inv
  end.

Definition remove_from_buckets (inv : gmap string (list byte))
    (field : string) (value id : Z) : result (gmap string (list byte)) :=
  match seek_bucket inv field value with
  | Some (found_key, data) =>
      if has_field_prefix found_key field then
        let bucket_base := parse_bucket_key_val found_key in
        if value >=? bucket_base then
          let! b := Bucket.deserialize data bucket_base in
          let '(b', removed) := Bucket.remove b id in
          if removed then
            if Bucket.is_empty b' then Ok (delete found_key inv)
            else Ok (<[found_key := Bucket.serialize b']> inv)
          else Ok inv
        else Ok inv
      else Ok inv
  | None => Ok inv
  end.

(** The two probe loops of the slide split. [probe_right] runs at most
    [fuel] rounds; started with the length of [deltas] it always stops on
    its own condition (see [probe_right_stops]). *)
Fixpoint probe_right (fuel : nat) (deltas : list Z) (probe : nat) : nat :=
  match fuel with
  | O => probe
  | S fuel' =>
      if (probe <? length deltas)%nat && (0 <? probe)%nat
         && (deltas !!! probe =? deltas !!! (probe - 1)%nat)
      then probe_right fuel' deltas (S probe)
      else probe
  end.

Fixpoint probe_left (deltas : list Z) (probe : nat) : nat :=
  match probe with
  | O => O
  | S p =>
      if deltas !!! (S p) =? deltas !!! p then probe_left deltas p else S p
  end.

(** The cut index of a saturated bucket, or [deltas.size()] when every
    probe fails ("All identical"). *)
Definition split_index (b : Bucket) : nat :=
  let mid_idx := (length (ids b) / 2)%nat in
  let probe_r := probe_right (length (deltas b)) (deltas b) mid_idx in
  if (probe_r <? length (deltas b))%nat then probe_r
  else
    let probe_l := probe_left (deltas b) mid_idx in
    if (0 <? probe_l)%nat then probe_l else length (deltas b).

(** [for (i = mid_idx; i < b.deltas.size(); ++i) right_b.add(...)] *)
Definition move_entries (b right_b : Bucket) (mid_idx : nat) : result Bucket :=
  foldl (fun acc i =>
           let! r := acc in
           Bucket.add r (wrap32 (base_value b + deltas b !!! i)) (ids b !!! i))
        (Ok right_b)
        (seq mid_idx (length (deltas b) - mid_idx)).

(** "Truncate left" and "Rebuild left bitmap". *)
Definition truncate_left (b : Bucket) (mid_idx : nat) : Bucket :=
  mkBucket (base_value b) (take mid_idx (deltas b)) (take mid_idx (ids b))
    (list_to_set (take mid_idx (ids b))) (is_dirty b).

(** "Standard Slide Split": the left and right buckets, with the new entry
    placed in the one that covers it. *)
Definition slide_split (b : Bucket) (mid_idx : nat) (value id : Z)
  : result (Bucket * Bucket) :=
  let right0 := Bucket.empty (wrap32 (base_value b + deltas b !!! mid_idx)) in
  let! right_b := move_entries b right0 mid_idx in
  let left_b := truncate_left b mid_idx in
  if value >=? base_value right_b then
    let! r := Bucket.add right_b value id in Ok (left_b, r)
  else
    let! l := Bucket.add left_b value id in Ok (l, right_b).

Definition add_to_buckets (inv : gmap string (list byte))
    (field : string) (value id : Z) : result (gmap string (list byte)) :=
  let target :=
    match seek_bucket inv field value with
    | Some (found_key, _) =>
        if has_field_prefix found_key field then
          let target_base := parse_bucket_key_val found_key in
          if (value >=? target_base) && (value - target_base <=? MAX_DELTA)
          then Some (found_key, target_base)
          else None
        else None
    | None => None
    end in
  match target with
  | None =>
      (* create_new *)
      let! b := Bucket.add (Bucket.empty value) value id in
      Ok (<[make_bucket_key field value := Bucket.serialize b]> inv)
  | Some (target_key_str, target_base) =>
      match inv !! target_key_str with
      | None => Err CursorSyncFail
      | Some v =>
          let! b := Bucket.deserialize v target_base in
          if (MAX_SIZE <=? length (ids b))%nat then
            let mid_idx := split_index b in
            if (mid_idx =? length (deltas b))%nat then
              let! b1 := Bucket.add b value id in
              Ok (<[target_key_str := Bucket.serialize b1]> inv)
            else
              let! lr := slide_split b mid_idx value id in
              let '(left_b, right_b) := lr in
              Ok (<[make_bucket_key field (base_value right_b)
                      := Bucket.serialize right_b]>
                    (<[target_key_str := Bucket.serialize left_b]> inv))
          else
            let! b1 := Bucket.add b value id in
            Ok (<[target_key_str := Bucket.serialize b1]> inv)
      end
  end.

Definition put_internal (s : NumericIndex) (field : string) (id value : Z)
  : result NumericIndex :=
  let fwd_key := make_forward_key field id in
  let! step1 :=
    match forward_dbi_ s !! fwd_key with
    | Some fwd_val =>
        let old_val := le_value (take 4 fwd_val) in
        if old_val =? value then Ok None
        else
          let! inv1 := remove_from_buckets (inverted_dbi_ s) field old_val id in
          Ok (Some inv1)
    | None => Ok (Some (inverted_dbi_ s))
    end in
  match step1 with
  | None => Ok s
  | Some inv1 =>
      let fwd' := <[fwd_key := le_bytes 4 value]> (forward_dbi_ s) in
      let! inv2 := add_to_buckets inv1 field value id in
      Ok (mkIndex fwd' inv2)
  end.

(** A public call runs in one transaction: committed when the body returns,
    aborted (the tables unchanged) when it throws. *)
Definition put (s : NumericIndex) (field : string) (id value : Z)
  : result NumericIndex :=
  put_internal s field id value.

Definition remove (s : NumericIndex) (field : string) (id : Z)
  : result NumericIndex :=
  let fwd_key := make_forward_key field id in
  match forward_dbi_ s !! fwd_key with
  | Some fwd_val =>
      let old_val := le_value (take 4 fwd_val) in
      let! inv1 := remove_from_buckets (inverted_dbi_ s) field old_val id in
      Ok (mkIndex (delete fwd_key (forward_dbi_ s)) inv1)
  | None => Ok s
  end.

(** The per-entry filter of the partial-overlap branch of [range]. *)
Definition filter_entries (b : Bucket) (min_val max_val : Z) (res : gset Z)
  : gset Z :=
  foldl (fun acc i =>
           let v := Bucket.get_value b i in
           if (v >=? min_val) && (v <=? max_val)
           then {[ ids b !!! i ]} ∪ acc else acc)
        res (seq 0 (length (ids b))).

(** One round of the scan over a bucket that holds entries. *)
Definition scan_bucket (b : Bucket) (min_val max_val : Z) (res : gset Z)
  : gset Z :=
  let b_min := Bucket.get_value b 0 in
  let b_max := Bucket.get_value b (length (ids b) - 1) in
  if (b_min >=? min_val) && (b_max <=? max_val) then
    res ∪ summary_bitmap b
  else filter_entries b min_val max_val res.

(** The [while (rc == MDBX_SUCCESS)] loop of [range]. [pos] is the key the
    cursor is at, [key] and [data] the entry under examination; they differ
    only in the first round. [None]: out of fuel. *)
Fixpoint range_loop (fuel : nat) (inv : gmap string (list byte))
    (field : string) (min_val max_val : Z)
    (pos key : string) (data : list byte) (res : gset Z)
  : option (result (gset Z)) :=
  match fuel with
  | O => None
  | S fuel' =>
      if negb (has_field_prefix key field) then Some (Ok res)
      else
        let bucket_base := parse_bucket_key_val key in
        if bucket_base >? max_val then Some (Ok res)
        else
          match Bucket.deserialize data bucket_base with
          | Err e => Some (Err e)
          | Ok b =>
              let res' :=
                if Bucket.is_empty b then res
                else scan_bucket b min_val max_val res in
              match cursor_next inv pos with
              | Some (k', d') =>
                  range_loop fuel' inv field min_val max_val k' k' d' res'
              | None => Some (Ok res')
              end
          end
  end.

Definition range_start (inv : gmap string (list byte)) (field : string)
    (min_val : Z) : option (string * string * list byte) :=
  match cursor_set_range inv (make_bucket_key field min_val) with
  | Some (key, data) =>
      if negb (has_field_prefix key field)
         || (parse_bucket_key_val key >? min_val)
      then
        match cursor_prev inv key with
        | Some (p_key, p_data) =>
            if has_field_prefix p_key field then Some (p_key, p_key, p_data)
            else Some (p_key, key, data)
        | None => Some (key, key, data)
        end
      else Some (key, key, data)
  | None =>
      match cursor_last inv with
      | Some (key, data) =>
          if (0 <? length data)%nat && has_field_prefix key field
          then Some (key, key, data)
          else None
      | None => None
      end
  end.

Definition range (s : NumericIndex) (field : string) (min_val max_val : Z)
  : option (result (gset Z)) :=
  let inv := inverted_dbi_ s in
  match range_start inv field min_val with
  | Some (pos, key, data) =>
      range_loop (S (S (size inv))) inv field min_val max_val pos key data ∅
  | None => Some (Ok ∅)
  end.

Definition check_range (s : NumericIndex) (field : string)
    (id min_val max_val : Z) : bool :=
  match forward_dbi_ s !! make_forward_key field id with
  | Some fwd_val =>
      let val := le_value (take 4 fwd_val) in
      (val >=? min_val) && (val <=? max_val)
  | None => false
  end.

End Ops.
End NumericIndex.

(** ** A reference bitmap codec

    One instance of [BitmapCodec], used to run the model on concrete inputs:
    each id is written as a marker byte followed by its four bytes, and a
    zero byte ends the bitmap. *)

Fixpoint ref_bm_read (bs : list byte) : option (gset Z) :=
  match bs with
  | x00 :: _ => Some ∅
  | x01 :: b0 :: b1 :: b2 :: b3 :: r =>
      match ref_bm_read r with
      | Some s => Some ({[ le_value [b0; b1; b2; b3] ]} ∪ s)
      | None => None
      end
  | _ => None
  end.

Definition ref_bm_write (s : gset Z) : list byte :=
  flat_map (fun x => x01 :: le_bytes 4 x) (elements s) ++ [x00].

(** ** Proof automation for comparisons on [Z] *)

Ltac zb_hyps :=
  repeat match goal with
  | H : Z.gtb _ _ = true |- _ => apply Z.gtb_lt in H
  | H : Z.gtb _ _ = false |- _ => rewrite Z.gtb_ltb in H; apply Z.ltb_ge in H
  | H : Z.geb _ _ = true |- _ => apply Z.geb_le in H
  | H : Z.geb _ _ = false |- _ => rewrite Z.geb_leb in H; apply Z.leb_gt in H
  | H : Z.ltb _ _ = true |- _ => apply Z.ltb_lt in H
  | H : Z.ltb _ _ = false |- _ => apply Z.ltb_ge in H
  | H : Z.leb _ _ = true |- _ => apply Z.leb_le in H
  | H : Z.leb _ _ = false |- _ => apply Z.leb_gt in H
  | H : Z.eqb _ _ = true |- _ => apply Z.eqb_eq in H
  | H : Z.eqb _ _ = false |- _ => apply Z.eqb_neq in H
  | H : Nat.ltb _ _ = true |- _ => apply Nat.ltb_lt in H
  | H : Nat.ltb _ _ = false |- _ => apply Nat.ltb_ge in H
  | H : Nat.leb _ _ = true |- _ => apply Nat.leb_le in H
  | H : Nat.leb _ _ = false |- _ => apply Nat.leb_gt in H
  | H : Nat.eqb _ _ = true |- _ => apply Nat.eqb_eq in H
  | H : Nat.eqb _ _ = false |- _ => apply Nat.eqb_neq in H
  end.

Ltac zlia := zb_hyps; first [lia | exfalso; lia].

(** Case analysis on the first boolean test the goal branches on. *)
Ltac case_test :=
  match goal with
  | |- context [ if ?c then _ else _ ] =>
      lazymatch type of c with
      | bool => let E := fresh "E" in destruct c eqn:E
      end
  end.

(** Decide a closed decidable proposition by evaluation. *)
Ltac by_compute :=
  match goal with
  | |- ?P => refine (bool_decide_unpack P _); vm_compute; exact I
  end.

(** * Properties *)

(** ** The sortable-key codec *)

Lemma lxor_top_low (i : Z) : 0 <= i < 2^31 -> Z.lxor i (2^31) = i + 2^31.
Proof.
  intros Hi. symmetry. apply Z.add_nocarry_lxor.
  apply Z.bits_inj'. intros n Hn. rewrite Z.land_spec, Z.bits_0.
  destruct (Z.eq_dec n 31) as [->|Hne].
  - rewrite (Z.bits_above_log2 i 31); [reflexivity | lia |].
    destruct (Z.eq_dec i 0) as [->|]; [simpl; lia|].
    apply Z.log2_lt_pow2; lia.
  - rewrite (Z.pow2_bits_false 31 n) by lia. apply andb_false_r.
Qed.

Lemma lxor_top_high (i : Z) : 2^31 <= i < 2^32 -> Z.lxor i (2^31) = i - 2^31.
Proof.
  intros Hi.
  replace i with ((i - 2^31) + 2^31) at 1 by lia.
  rewrite <- (lxor_top_low (i - 2^31)) by lia.
  rewrite Z.lxor_assoc, Z.lxor_nilpotent, Z.lxor_0_r. reflexivity.
Qed.

Lemma lxor_ones32 (i : Z) : 0 <= i < 2^32 -> Z.lxor i (2^32 - 1) = 2^32 - 1 - i.
Proof.
  intros Hi.
  change (2^32 - 1) with (Z.ones 32).
  assert (Hl : Z.land i (Z.ones 32) = i).
  { rewrite Z.land_ones by lia. apply Z.mod_small. lia. }
  assert (Hd : Z.ldiff i (Z.ones 32) = 0).
  { apply Z.bits_inj'. intros n Hn.
    rewrite Z.ldiff_spec, Z.bits_0.
    rewrite <- Hl at 1. rewrite Z.land_spec.
    destruct (Z.testbit i n), (Z.testbit (Z.ones 32) n); reflexivity. }
  rewrite (Z.sub_nocarry_ldiff (Z.ones 32) i Hd).
  apply Z.bits_inj'. intros n Hn.
  rewrite Z.lxor_spec, Z.ldiff_spec.
  assert (Hb := f_equal (fun z => Z.testbit z n) Hd). simpl in Hb.
  rewrite Z.ldiff_spec, Z.bits_0 in Hb.
  destruct (Z.testbit i n), (Z.testbit (Z.ones 32) n); simpl in *; congruence.
Qed.

Lemma float_to_sortable_eq (f : Z) :
  is_u32 f ->
  float_to_sortable f = if f <? 2^31 then f + 2^31 else 2^32 - 1 - f.
Proof.
  unfold is_u32, float_to_sortable, to_int32, wrap32. intros Hf.
  rewrite (Z.mod_small f) by lia.
  destruct (f <? 2^31) eqn:E.
  - apply Z.ltb_lt in E.
    rewrite Z.shiftr_div_pow2 by lia.
    rewrite (Z.div_small f) by lia.
    change (Z.lor (0 mod 2^32) 0x80000000) with (2^31).
    apply lxor_top_low. lia.
  - apply Z.ltb_ge in E.
    rewrite Z.shiftr_div_pow2 by lia.
    replace ((f - 2^32) / 2^31) with (-1) by lia.
    change (Z.lor ((-1) mod 2^32) 0x80000000) with (2^32 - 1).
    apply lxor_ones32. lia.
Qed.

Lemma sortable_to_float_eq (i : Z) :
  is_u32 i ->
  sortable_to_float i = if i <? 2^31 then 2^32 - 1 - i else i - 2^31.
Proof.
  unfold is_u32, sortable_to_float, wrap32. intros Hi.
  rewrite Z.shiftr_div_pow2 by lia.
  destruct (i <? 2^31) eqn:E.
  - apply Z.ltb_lt in E.
    rewrite (Z.div_small i) by lia.
    change (Z.lor ((0 - 1) mod 2^32) 0x80000000) with (2^32 - 1).
    apply lxor_ones32. lia.
  - apply Z.ltb_ge in E.
    replace (i / 2^31) with 1 by lia.
    change (Z.lor ((1 - 1) mod 2^32) 0x80000000) with (2^31).
    apply lxor_top_high. lia.
Qed.

Lemma float_roundtrip (f : Z) :
  is_u32 f -> sortable_to_float (float_to_sortable f) = f.
Proof.
  intros Hf. rewrite float_to_sortable_eq by exact Hf.
  unfold is_u32 in Hf.
  destruct (f <? 2^31) eqn:E.
  - apply Z.ltb_lt in E. rewrite sortable_to_float_eq by (unfold is_u32; lia).
    destruct (f + 2^31 <? 2^31) eqn:E2; [apply Z.ltb_lt in E2; lia | lia].
  - apply Z.ltb_ge in E. rewrite sortable_to_float_eq by (unfold is_u32; lia).
    destruct (2^32 - 1 - f <? 2^31) eqn:E2; [lia | apply Z.ltb_ge in E2; lia].
Qed.

Lemma int_to_sortable_eq (i : Z) : is_i32 i -> int_to_sortable i = i + 2^31.
Proof.
  unfold is_i32, int_to_sortable, wrap32. intros Hi.
  change 0x80000000 with (2^31).
  destruct (Z_lt_le_dec i 0).
  - replace (i mod 2^32) with (i + 2^32) by lia.
    rewrite lxor_top_high by lia. lia.
  - rewrite Z.mod_small by lia. apply lxor_top_low. lia.
Qed.

Lemma sortable_to_int_eq (u : Z) : is_u32 u -> sortable_to_int u = u - 2^31.
Proof.
  unfold is_u32, sortable_to_int, to_int32, wrap32. intros Hu.
  change 0x80000000 with (2^31).
  destruct (Z_lt_le_dec u (2^31)).
  - rewrite lxor_top_low by lia.
    rewrite Z.mod_small by lia.
    destruct (u + 2^31 <? 2^31) eqn:E; [apply Z.ltb_lt in E; lia | lia].
  - rewrite lxor_top_high by lia.
    rewrite Z.mod_small by lia.
    destruct (u - 2^31 <? 2^31) eqn:E; [lia | apply Z.ltb_ge in E; lia].
Qed.

Lemma float_sign_eq (f : Z) : is_u32 f -> float_sign f = negb (f <? 2^31).
Proof.
  unfold is_u32, float_sign. intros Hf.
  rewrite Z.testbit_odd, Z.shiftr_div_pow2 by lia.
  destruct (f <? 2^31) eqn:E.
  - apply Z.ltb_lt in E. rewrite Z.div_small by lia. reflexivity.
  - apply Z.ltb_ge in E. replace (f / 2^31) with 1 by lia. reflexivity.
Qed.

(** The magnitude of a pattern: its exponent and fraction fields. *)
Definition float_mag (f : Z) : Z := f mod 2^31.

(** The value a pattern of magnitude [m] denotes, whatever its sign. *)
Definition mag_value (s : bool) (m : Z) : spec_float :=
  let e := (m / 2^23) mod 2^8 in
  let fr := m mod 2^23 in
  if e =? 0 then
    if fr =? 0 then S754_zero s else S754_finite s (Z.to_pos fr) (-149)
  else if e =? 255 then
    if fr =? 0 then S754_infinity s else S754_nan
  else S754_finite s (Z.to_pos (fr + 2^23)) (e - 150).

Lemma float_value_mag (f : Z) :
  is_u32 f -> float_value f = mag_value (negb (f <? 2^31)) (float_mag f).
Proof.
  intros Hf. unfold float_value, mag_value, float_exp, float_frac, float_mag.
  rewrite float_sign_eq by exact Hf. unfold is_u32 in Hf.
  replace ((f mod 2^31) / 2^23 mod 2^8) with ((f / 2^23) mod 2^8) by lia.
  replace ((f mod 2^31) mod 2^23) with (f mod 2^23) by lia.
  reflexivity.
Qed.

Lemma mag_finite (f : Z) :
  is_u32 f -> float_finite f -> 0 <= float_mag f < 255 * 2^23.
Proof. unfold is_u32, float_finite, float_exp, float_mag. lia. Qed.

(** On finite magnitudes the denoted values compare as the magnitudes do
    (the same way round for non-negative signs, reversed for negative ones). *)
Lemma mag_compare (s : bool) (m1 m2 : Z) :
  0 <= m1 < 255 * 2^23 -> 0 <= m2 < 255 * 2^23 ->
  SFcompare (mag_value s m1) (mag_value s m2)
  = Some (if s then m2 ?= m1 else m1 ?= m2).
Proof.
  intros H1 H2. unfold mag_value.
  set (e1 := (m1 / 2^23) mod 2^8). set (f1 := m1 mod 2^23).
  set (e2 := (m2 / 2^23) mod 2^8). set (f2 := m2 mod 2^23).
  assert (He1 : 0 <= e1 < 255) by (subst e1; lia).
  assert (He2 : 0 <= e2 < 255) by (subst e2; lia).
  assert (Hf1 : 0 <= f1 < 2^23) by (subst f1; lia).
  assert (Hf2 : 0 <= f2 < 2^23) by (subst f2; lia).
  assert (Hm1 : m1 = e1 * 2^23 + f1) by (subst e1 f1; lia).
  assert (Hm2 : m2 = e2 * 2^23 + f2) by (subst e2 f2; lia).
  clearbody e1 f1 e2 f2. subst m1 m2.
  assert (Hcmp : forall x y : Z, 0 < x -> 0 < y ->
            Pos.compare_cont Eq (Z.to_pos x) (Z.to_pos y) = (x ?= y)).
  { intros x y Hx Hy. change (Pos.compare_cont Eq) with Pos.compare.
    symmetry. apply Z2Pos.inj_compare; lia. }
  repeat match goal with
  | |- context [ ?a =? ?b ] =>
      let C := fresh "C" in
      destruct (a =? b) eqn:C; [apply Z.eqb_eq in C | apply Z.eqb_neq in C]
  end; try lia;
  destruct s; cbv beta iota delta [SFcompare]; f_equal;
  repeat (rewrite Hcmp by lia);
  repeat match goal with
  | |- context [ ?a ?= ?b ] =>
      let C := fresh "C" in
      destruct (Z.compare_spec a b) as [C|C|C]
  end; try reflexivity; try lia.
Qed.

Lemma mag_mixed_lt (m1 m2 : Z) :
  0 <= m1 < 255 * 2^23 -> 0 <= m2 < 255 * 2^23 ->
  SFcompare (mag_value true m1) (mag_value false m2)
  = Some (if (m1 =? 0) && (m2 =? 0) then Eq else Lt).
Proof.
  intros H1 H2. unfold mag_value.
  destruct (m1 =? 0) eqn:M1; [apply Z.eqb_eq in M1 | apply Z.eqb_neq in M1];
  destruct (m2 =? 0) eqn:M2; [apply Z.eqb_eq in M2 | apply Z.eqb_neq in M2 | apply Z.eqb_eq in M2 | apply Z.eqb_neq in M2];
  repeat match goal with
  | |- context [ ?a =? ?b ] =>
      let C := fresh "C" in
      destruct (a =? b) eqn:C; [apply Z.eqb_eq in C | apply Z.eqb_neq in C]
  end; cbv beta iota delta [SFcompare]; try reflexivity; try lia.
Qed.

Lemma mag_mixed_gt (m1 m2 : Z) :
  0 <= m1 < 255 * 2^23 -> 0 <= m2 < 255 * 2^23 ->
  SFcompare (mag_value false m1) (mag_value true m2)
  = Some (if (m1 =? 0) && (m2 =? 0) then Eq else Gt).
Proof.
  intros H1 H2. unfold mag_value.
  destruct (m1 =? 0) eqn:M1; [apply Z.eqb_eq in M1 | apply Z.eqb_neq in M1];
  destruct (m2 =? 0) eqn:M2; [apply Z.eqb_eq in M2 | apply Z.eqb_neq in M2 | apply Z.eqb_eq in M2 | apply Z.eqb_neq in M2];
  repeat match goal with
  | |- context [ ?a =? ?b ] =>
      let C := fresh "C" in
      destruct (a =? b) eqn:C; [apply Z.eqb_eq in C | apply Z.eqb_neq in C]
  end; cbv beta iota delta [SFcompare]; try reflexivity; try lia.
Qed.

Lemma float_lt_order (a b : Z) :
  is_u32 a -> is_u32 b -> float_finite a -> float_finite b ->
  (float_to_sortable a < float_to_sortable b
   <-> float_lt a b \/ (a = neg_zero /\ b = pos_zero)).
Proof.
  intros Ha Hb Fa Fb.
  pose proof (mag_finite a Ha Fa) as Ma.
  pose proof (mag_finite b Hb Fb) as Mb.
  unfold float_lt, SFltb.
  rewrite !float_to_sortable_eq, !float_value_mag by assumption.
  unfold is_u32, float_mag, neg_zero, pos_zero in *.
  destruct (a <? 2^31) eqn:Ea; [apply Z.ltb_lt in Ea | apply Z.ltb_ge in Ea];
  destruct (b <? 2^31) eqn:Eb; [apply Z.ltb_lt in Eb | apply Z.ltb_ge in Eb | apply Z.ltb_lt in Eb | apply Z.ltb_ge in Eb];
  cbn [negb].
  - rewrite mag_compare by lia.
    destruct (Z.compare_spec (a mod 2^31) (b mod 2^31));
      split; intros; try lia; try (left; reflexivity);
      destruct H0 as [?|?]; try discriminate; lia.
  - rewrite mag_mixed_gt by lia.
    destruct ((a mod 2^31 =? 0) && (b mod 2^31 =? 0));
      split; intros; try lia; destruct H as [?|?]; try discriminate; lia.
  - rewrite mag_mixed_lt by lia.
    destruct (a mod 2^31 =? 0) eqn:Za; [apply Z.eqb_eq in Za | apply Z.eqb_neq in Za];
    (destruct (b mod 2^31 =? 0) eqn:Zb; [apply Z.eqb_eq in Zb | apply Z.eqb_neq in Zb]);
    cbn [andb]; split; intros; try lia; try (left; reflexivity).
  - rewrite mag_compare by lia.
    destruct (Z.compare_spec (b mod 2^31) (a mod 2^31));
      split; intros; try lia; try (left; reflexivity);
      destruct H0 as [?|?]; try discriminate; lia.
Qed.

(** C5 (as stated, refuted): the two zeros are finite floats that are not
    ordered by [<], yet their sortable codes are strictly ordered. *)
Lemma float_order_zero_counterexample :
  is_u32 neg_zero /\ is_u32 pos_zero /\
  float_finite neg_zero /\ float_finite pos_zero /\
  float_to_sortable neg_zero < float_to_sortable pos_zero /\
  ~ float_lt neg_zero pos_zero.
Proof.
  unfold is_u32, float_finite, float_lt.
  repeat split; try (vm_compute; congruence).
Qed.

(** C5 (amended): the codec round-trips every bit pattern exactly, both for
    floats and for signed integers; [int_to_sortable] is strictly
    order-preserving; and on finite floats the sortable codes are ordered
    exactly as the floats are, except that the code of -0.0 is below the
    code of +0.0 although the two compare equal. *)
Theorem sortable_codec_order (f a b i j : Z) :
  is_u32 f -> is_u32 a -> is_u32 b ->
  float_finite a -> float_finite b ->
  is_i32 i -> is_i32 j ->
  sortable_to_float (float_to_sortable f) = f /\
  (float_to_sortable a < float_to_sortable b
   <-> float_lt a b \/ (a = neg_zero /\ b = pos_zero)) /\
  sortable_to_int (int_to_sortable i) = i /\
  (i < j <-> int_to_sortable i < int_to_sortable j).
Proof.
  intros Hf Ha Hb Fa Fb Hi Hj.
  split; [apply float_roundtrip; exact Hf |].
  split; [apply float_lt_order; assumption |].
  rewrite !int_to_sortable_eq by assumption.
  split.
  - rewrite sortable_to_int_eq; [lia | unfold is_u32, is_i32 in *; lia].
  - lia.
Qed.

Lemma sortable_codec_order_witness :
  sortable_to_float (float_to_sortable 0x3F800000) = 0x3F800000 /\
  (float_to_sortable 0xBF800000 < float_to_sortable 0x3F000000
   <-> float_lt 0xBF800000 0x3F000000
       \/ (0xBF800000 = neg_zero /\ 0x3F000000 = pos_zero)) /\
  sortable_to_int (int_to_sortable (-5)) = -5 /\
  (-5 < 7 <-> int_to_sortable (-5) < int_to_sortable 7).
Proof.
  apply (sortable_codec_order 0x3F800000 0xBF800000 0x3F000000 (-5) 7);
    unfold is_u32, is_i32, float_finite; try lia; vm_compute; congruence.
Defined.

(** ** Bytes and little-endian integers *)

Lemma Z_of_byte_range (b : byte) : 0 <= Z_of_byte b < 256.
Proof.
  unfold Z_of_byte. pose proof (Byte.to_N_bounded b). lia.
Qed.

Lemma Z_of_byte_of_Z (z : Z) : Z_of_byte (byte_of_Z z) = z mod 256.
Proof.
  unfold Z_of_byte, byte_of_Z.
  destruct (Byte.of_N (Z.to_N (z mod 256))) as [b|] eqn:E.
  - apply Byte.to_of_N in E. rewrite E. lia.
  - apply Byte.of_N_None_iff in E. lia.
Qed.

Lemma byte_of_Z_of_byte (b : byte) : byte_of_Z (Z_of_byte b) = b.
Proof.
  unfold byte_of_Z, Z_of_byte.
  pose proof (Byte.to_N_bounded b).
  rewrite Z.mod_small by lia. rewrite N2Z.id, Byte.of_to_N. reflexivity.
Qed.

Lemma length_le_bytes (n : nat) (z : Z) : length (le_bytes n z) = n.
Proof. revert z. induction n; intros; simpl; [reflexivity | by rewrite IHn]. Qed.

Lemma le_value_le_bytes (n : nat) (z : Z) :
  le_value (le_bytes n z) = z mod 256 ^ Z.of_nat n.
Proof.
  revert z. induction n as [|n IH]; intros z.
  - simpl. rewrite Z.mod_1_r. reflexivity.
  - cbn [le_bytes le_value]. rewrite IH, Z_of_byte_of_Z.
    rewrite Nat2Z.inj_succ, Z.pow_succ_r by lia.
    assert (0 < 256 ^ Z.of_nat n) by (apply Z.pow_pos_nonneg; lia).
    rewrite Z.rem_mul_r by lia. reflexivity.
Qed.

Lemma le_value_le_bytes_small (n : nat) (z : Z) :
  0 <= z < 256 ^ Z.of_nat n -> le_value (le_bytes n z) = z.
Proof. intros. rewrite le_value_le_bytes. apply Z.mod_small. assumption. Qed.

Lemma le_value_range (bs : list byte) :
  0 <= le_value bs < 256 ^ Z.of_nat (length bs).
Proof.
  induction bs as [|b bs IH].
  - simpl. lia.
  - cbn [le_value length]. pose proof (Z_of_byte_range b).
    rewrite Nat2Z.inj_succ, Z.pow_succ_r by lia. lia.
Qed.

Lemma take_le_bytes_app (n : nat) (z : Z) (rest : list byte) :
  take n (le_bytes n z ++ rest) = le_bytes n z.
Proof.
  rewrite take_app_length'; [reflexivity | symmetry; apply length_le_bytes].
Qed.

Lemma drop_le_bytes_app (n : nat) (z : Z) (rest : list byte) :
  drop n (le_bytes n z ++ rest) = rest.
Proof.
  rewrite drop_app_length'; [reflexivity | symmetry; apply length_le_bytes].
Qed.

Lemma length_flat_map_le_bytes (w : nat) (l : list Z) :
  length (flat_map (le_bytes w) l) = (w * length l)%nat.
Proof.
  induction l as [|x l IH]; simpl; [lia |].
  rewrite length_app, length_le_bytes, IH. lia.
Qed.

Lemma le_array_flat_map (w : nat) (l : list Z) (rest : list byte) :
  Forall (fun z => 0 <= z < 256 ^ Z.of_nat w) l ->
  le_array w (length l) (flat_map (le_bytes w) l ++ rest) = l.
Proof.
  induction 1 as [|x l Hx Hl IH]; [reflexivity |].
  cbn [flat_map length le_array]. rewrite <- app_assoc.
  rewrite take_le_bytes_app, drop_le_bytes_app, IH.
  rewrite le_value_le_bytes_small by exact Hx. reflexivity.
Qed.

Lemma length_le_array (w n : nat) (bs : list byte) :
  length (le_array w n bs) = n.
Proof. revert bs. induction n; intros; simpl; [reflexivity | by rewrite IHn]. Qed.

Lemma le_array_range (w n : nat) (bs : list byte) :
  Forall (fun z => 0 <= z < 256 ^ Z.of_nat w) (le_array w n bs).
Proof.
  revert bs. induction n as [|n IH]; intros bs; simpl; constructor.
  - pose proof (le_value_range (take w bs)) as Hr.
    assert (Hl : (length (take w bs) <= w)%nat) by (rewrite length_take; lia).
    split; [apply Hr |].
    eapply Z.lt_le_trans; [apply Hr|].
    apply Z.pow_le_mono_r; [lia | apply Nat2Z.inj_le; exact Hl].
  - apply IH.
Qed.

(** ** The reference codec satisfies the interface *)

Lemma ref_bm_read_step (z : Z) (r : list byte) :
  ref_bm_read ((x01 :: le_bytes 4 z) ++ r)
  = match ref_bm_read r with
    | Some s => Some ({[ le_value (le_bytes 4 z) ]} ∪ s)
    | None => None
    end.
Proof. reflexivity. Qed.

Lemma ref_bm_read_write_list (l : list Z) (rest : list byte) :
  Forall is_u32 l ->
  ref_bm_read (flat_map (fun x => x01 :: le_bytes 4 x) l ++ [x00] ++ rest)
  = Some (list_to_set l).
Proof.
  induction 1 as [|x l Hx Hl IH]; [reflexivity |].
  change (flat_map (fun x => x01 :: le_bytes 4 x) (x :: l))
    with ((x01 :: le_bytes 4 x) ++ flat_map (fun x => x01 :: le_bytes 4 x) l).
  rewrite <- app_assoc, ref_bm_read_step, IH.
  rewrite le_value_le_bytes_small by exact Hx.
  rewrite list_to_set_cons. reflexivity.
Qed.

Lemma ref_bm_read_write (s : gset Z) (rest : list byte) :
  set_Forall is_u32 s -> ref_bm_read (ref_bm_write s ++ rest) = Some s.
Proof.
  intros Hs. unfold ref_bm_write. rewrite <- app_assoc.
  rewrite ref_bm_read_write_list.
  - f_equal. apply list_to_set_elements_L.
  - apply Forall_forall. intros x Hx. apply Hs, elem_of_elements. exact Hx.
Qed.

Lemma ref_bm_size_fits (s : gset Z) :
  set_Forall is_u32 s -> Z.of_nat (size s) <= 65535 ->
  Z.of_nat (length (ref_bm_write s)) < 2^32.
Proof.
  intros _ Hn. unfold ref_bm_write.
  rewrite length_app. cbn [length].
  assert (Hl : forall l : list Z,
            length (flat_map (fun x => x01 :: le_bytes 4 x) l) = (5 * length l)%nat).
  { induction l as [|x l IH]; [reflexivity |].
    cbn [flat_map]. rewrite length_app, IH. cbn [length].
    rewrite length_le_bytes. cbn [length]. lia. }
  rewrite Hl. change (size s) with (length (elements s)) in Hn. lia.
Qed.

#[export] Instance ref_codec : BitmapCodec :=
  Build_BitmapCodec ref_bm_write ref_bm_read ref_bm_read_write ref_bm_size_fits.

(** ** Buckets *)

(** The invariants of a bucket (spec, data model), with the ranges its
    fields have by their C++ types. *)
Record bucket_wf (b : Bucket) : Prop := mk_bucket_wf {
  wf_base : is_u32 (base_value b);
  wf_length : length (deltas b) = length (ids b);
  wf_sorted : StronglySorted Z.le (deltas b);
  wf_deltas :
    Forall (fun d => 0 <= d <= MAX_DELTA /\ base_value b + d < 2^32) (deltas b);
  wf_ids : Forall is_u32 (ids b);
  wf_unique : NoDup (ids b);
  wf_bitmap : summary_bitmap b = list_to_set (ids b)
}.

Lemma lower_bound_le (l : list Z) (d : Z) : (lower_bound l d <= length l)%nat.
Proof.
  induction l as [|x l IH]; simpl; [lia |].
  destruct (x <? d); simpl; lia.
Qed.

Lemma lower_bound_take (l : list Z) (d : Z) :
  Forall (fun x => x < d) (take (lower_bound l d) l).
Proof.
  induction l as [|x l IH]; simpl; [constructor |].
  destruct (x <? d) eqn:E; simpl; [|constructor].
  constructor; [apply Z.ltb_lt; exact E | exact IH].
Qed.

Lemma lower_bound_drop (l : list Z) (d : Z) :
  StronglySorted Z.le l -> Forall (fun x => d <= x) (drop (lower_bound l d) l).
Proof.
  induction 1 as [|x l Hs IH Hx]; simpl; [constructor |].
  destruct (x <? d) eqn:E; simpl; [exact IH |].
  apply Z.ltb_ge in E. constructor; [exact E |].
  eapply Forall_impl; [exact Hx |]. simpl. intros; lia.
Qed.

Lemma sorted_vec_insert (l : list Z) (d : Z) :
  StronglySorted Z.le l ->
  StronglySorted Z.le (vec_insert (lower_bound l d) d l).
Proof.
  intros Hs. unfold vec_insert.
  pose proof (lower_bound_take l d) as Ht.
  pose proof (lower_bound_drop l d Hs) as Hd.
  rewrite <- (take_drop (lower_bound l d) l) in Hs.
  apply StronglySorted_app in Hs as (H12 & H1 & H2).
  apply StronglySorted_app_2.
  - intros x1 x2 Hx1 Hx2.
    rewrite Forall_forall in Ht. specialize (Ht _ Hx1).
    apply elem_of_cons in Hx2 as [-> | Hx2]; [lia |].
    rewrite Forall_forall in Hd. specialize (Hd _ Hx2). lia.
  - exact H1.
  - constructor; [exact H2 | exact Hd].
Qed.

Lemma length_vec_insert {A : Type} (i : nat) (x : A) (l : list A) :
  length (vec_insert i x l) = S (length l).
Proof.
  unfold vec_insert. rewrite length_app. cbn [length].
  rewrite length_take, length_drop. lia.
Qed.

Lemma vec_insert_perm {A : Type} (i : nat) (x : A) (l : list A) :
  vec_insert i x l ≡ₚ x :: l.
Proof.
  unfold vec_insert. rewrite <- Permutation_middle.
  by rewrite take_drop.
Qed.

(** What [add] computes once both preconditions hold. *)
Lemma bucket_add_ok (b : Bucket) (val id : Z) :
  is_u32 val -> is_u32 (base_value b) ->
  base_value b <= val -> val - base_value b <= MAX_DELTA ->
  Bucket.add b val id =
  Ok (mkBucket (base_value b)
        (vec_insert (lower_bound (deltas b) (val - base_value b))
           (val - base_value b) (deltas b))
        (vec_insert (lower_bound (deltas b) (val - base_value b)) id (ids b))
        ({[ id ]} ∪ summary_bitmap b) true).
Proof.
  unfold is_u32, MAX_DELTA, Bucket.add, wrap32, wrap16. intros Hv Hb Hle Hd.
  destruct (val <? base_value b) eqn:E1; [apply Z.ltb_lt in E1; lia |].
  rewrite (Z.mod_small (val - base_value b) (2^32)) by lia.
  destruct (val - base_value b >? MAX_DELTA) eqn:E2;
    [unfold MAX_DELTA in E2; lia |].
  rewrite (Z.mod_small (val - base_value b) (2^16)) by lia.
  reflexivity.
Qed.

(** C8: [Bucket::add] fails, with an invariant violation, exactly when the
    value is below the base or more than 65535 above it; otherwise it
    inserts the delta at the lower-bound position (every delta before it is
    smaller, every delta from it on is at least as large), so that the deltas
    stay non-decreasing, inserts the id at the same position, and adds the
    id to the summary bitmap. *)
Theorem bucket_add_spec (b : Bucket) (val id : Z) :
  is_u32 val -> is_u32 (base_value b) ->
  StronglySorted Z.le (deltas b) ->
  ((exists e, Bucket.add b val id = Err e /\ is_invariant_violation e = true)
   <-> val < base_value b \/ val - base_value b > 65535) /\
  (base_value b <= val -> val - base_value b <= 65535 ->
   let delta := val - base_value b in
   let index := lower_bound (deltas b) delta in
   exists b',
     Bucket.add b val id = Ok b' /\
     base_value b' = base_value b /\
     deltas b' = take index (deltas b) ++ delta :: drop index (deltas b) /\
     ids b' = take index (ids b) ++ id :: drop index (ids b) /\
     summary_bitmap b' = {[ id ]} ∪ summary_bitmap b /\
     (index <= length (deltas b))%nat /\
     Forall (fun x => x < delta) (take index (deltas b)) /\
     Forall (fun x => delta <= x) (drop index (deltas b)) /\
     StronglySorted Z.le (deltas b')).
Proof.
  intros Hv Hb Hs. split.
  - split.
    + intros (e & He & _).
      destruct (Z_lt_le_dec val (base_value b)) as [|Hle]; [left; lia |].
      destruct (Z_le_gt_dec (val - base_value b) 65535) as [Hd|]; [|right; lia].
      rewrite bucket_add_ok in He by (unfold MAX_DELTA; auto). discriminate.
    + unfold Bucket.add, wrap32, MAX_DELTA. unfold is_u32 in *.
      intros [Hlt | Hgt].
      * exists InsertBelowBase.
        destruct (val <? base_value b) eqn:E; [auto | apply Z.ltb_ge in E; lia].
      * destruct (val <? base_value b) eqn:E; [exists InsertBelowBase; auto |].
        apply Z.ltb_ge in E. exists DeltaOverflow.
        rewrite Z.mod_small by lia.
        destruct (val - base_value b >? 65535) eqn:E2; [auto | lia].
  - intros Hle Hd delta index. eexists. split.
    + apply bucket_add_ok; unfold MAX_DELTA; auto.
    + cbn [base_value deltas ids summary_bitmap]. fold delta. fold index.
      repeat split; try reflexivity.
      * apply lower_bound_le.
      * apply lower_bound_take.
      * apply lower_bound_drop, Hs.
      * apply sorted_vec_insert, Hs.
Qed.

Lemma bucket_add_spec_witness :
  exists b',
    Bucket.add (mkBucket 100 [5; 10] [1; 2] {[ 1; 2 ]} false) 107 3 = Ok b' /\
    deltas b' = [5; 7; 10] /\ ids b' = [1; 3; 2].
Proof.
  destruct (bucket_add_spec (mkBucket 100 [5; 10] [1; 2] {[ 1; 2 ]} false) 107 3)
    as [_ Hok].
  - unfold is_u32; lia.
  - unfold is_u32; simpl; lia.
  - simpl. repeat constructor; lia.
  - destruct Hok as (b' & Hadd & _ & Hd & Hi & _); [simpl; lia | simpl; lia |].
    exists b'. split; [exact Hadd |]. split; [exact Hd | exact Hi].
Defined.

(** ** The bucket payload *)

Section PayloadFacts.
Context `{BitmapCodec}.

(** A codec that reads back what it wrote never writes the empty string. *)
Lemma bm_write_nonempty (s : gset Z) :
  set_Forall is_u32 s -> bm_write s <> [].
Proof.
  intros Hs Hnil.
  set (s' := if decide (s = ∅) then ({[ 0 ]} : gset Z) else ∅).
  assert (Hs' : set_Forall is_u32 s').
  { subst s'. destruct (decide (s = ∅)); intros x Hx.
    - apply elem_of_singleton in Hx as ->. unfold is_u32. lia.
    - set_solver. }
  assert (Hne : s <> s').
  { subst s'. destruct (decide (s = ∅)) as [-> | ]; [|assumption].
    intros Heq. assert (H0 : 0 ∈ (∅ : gset Z)) by (rewrite Heq; set_solver).
    set_solver. }
  pose proof (bm_read_write s (bm_write s') Hs) as H1.
  pose proof (bm_read_write s' [] Hs') as H2.
  rewrite Hnil in H1. rewrite app_nil_l in H1. rewrite app_nil_r in H2.
  congruence.
Qed.

(** What a payload written by [serialize] reads back as, for a bucket whose
    bitmap the codec can carry: the first [count] entries, [count] being the
    16-bit count the payload declares. *)
Lemma deserialize_serialize (b : Bucket) (base_val : Z) :
  length (deltas b) = length (ids b) ->
  Forall is_u16 (deltas b) ->
  Forall is_u32 (ids b) ->
  set_Forall is_u32 (summary_bitmap b) ->
  Z.of_nat (length (bm_write (summary_bitmap b))) < 2^32 ->
  let count := Z.to_nat (wrap16 (Z.of_nat (length (ids b)))) in
  Bucket.deserialize (Bucket.serialize b) base_val
  = Ok (mkBucket base_val (take count (deltas b)) (take count (ids b))
          (summary_bitmap b) false).
Proof.
  intros Hlen Hd Hi Hbm Hsz count.
  pose proof (bm_write_nonempty _ Hbm) as Hne.
  assert (Hc : (count <= length (ids b))%nat).
  { subst count. unfold wrap16. lia. }
  assert (Hcz : wrap16 (Z.of_nat (length (ids b))) = Z.of_nat count).
  { subst count. unfold wrap16. lia. }
  assert (Hc16 : Z.of_nat count < 2^16).
  { rewrite <- Hcz. unfold wrap16. lia. }
  unfold Bucket.serialize. rewrite Hcz, Nat2Z.id.
  set (bm := bm_write (summary_bitmap b)) in *.
  set (ds := flat_map (le_bytes 2) (take count (deltas b))).
  set (idb := flat_map (le_bytes ID_BYTES) (take count (ids b))).
  set (data := le_bytes 4 _ ++ _).
  assert (Hbml : 0 < Z.of_nat (length bm)).
  { destruct bm; [congruence | simpl; lia]. }
  assert (Hds : length ds = (2 * count)%nat).
  { subst ds. rewrite length_flat_map_le_bytes, length_take. lia. }
  assert (His : length idb = (4 * count)%nat).
  { subst idb. unfold ID_BYTES. rewrite length_flat_map_le_bytes, length_take. lia. }
  assert (Hdata : Z.of_nat (length data)
                  = 4 + Z.of_nat (length bm) + 2 + 6 * Z.of_nat count).
  { subst data. rewrite !length_app, !length_le_bytes, Hds, His. lia. }
  assert (Hsize : le_value (take 4 data) = Z.of_nat (length bm)).
  { subst data. rewrite take_le_bytes_app.
    unfold wrap32. rewrite (Z.mod_small (Z.of_nat (length bm))) by lia.
    apply le_value_le_bytes_small. simpl. lia. }
  assert (Hp1 : drop 4 data = bm ++ le_bytes 2 (Z.of_nat count) ++ ds ++ idb).
  { subst data. apply drop_le_bytes_app. }
  unfold Bucket.deserialize. cbv zeta.
  rewrite Hdata, Hsize, Hp1, Nat2Z.id, drop_app_length.
  rewrite take_le_bytes_app, drop_le_bytes_app.
  rewrite le_value_le_bytes_small by (simpl; lia).
  subst bm. rewrite bm_read_write by exact Hbm.
  repeat (case_test; try zlia); cbn [rbind]; repeat (case_test; try zlia);
    unfold ID_BYTES in *; try zlia.
  - rewrite Nat2Z.id. f_equal. f_equal.
    + subst ds.
      replace count with (length (take count (deltas b))) at 1
        by (rewrite length_take; lia).
      apply le_array_flat_map.
      apply Forall_take. eapply Forall_impl; [exact Hd |].
      unfold is_u16. simpl. intros; lia.
    + replace (Z.to_nat (Z.of_nat count * 2)) with (length ds) by lia.
      rewrite drop_app_length. subst idb.
      replace count with (length (take count (ids b))) at 1
        by (rewrite length_take; lia).
      rewrite <- (app_nil_r (flat_map _ _)).
      apply le_array_flat_map.
      apply Forall_take. eapply Forall_impl; [exact Hi |].
      unfold is_u32, ID_BYTES. simpl. intros; lia.
  - assert (count = 0%nat) as -> by zlia. rewrite !take_0. reflexivity.
Qed.

End PayloadFacts.

#[export] Instance is_u32_dec (z : Z) : Decision (is_u32 z).
Proof. unfold is_u32. apply _. Defined.

#[export] Instance is_u16_dec (z : Z) : Decision (is_u16 z).
Proof. unfold is_u16. apply _. Defined.

Section PayloadClaims.
Context `{BitmapCodec}.

Lemma bucket_wf_bitmap_u32 (b : Bucket) :
  bucket_wf b -> set_Forall is_u32 (summary_bitmap b).
Proof.
  intros Hwf x Hx. rewrite (wf_bitmap b Hwf) in Hx.
  apply elem_of_list_to_set in Hx.
  pose proof (wf_ids b Hwf) as Hi. rewrite Forall_forall in Hi. auto.
Qed.

Lemma bucket_wf_bitmap_size (b : Bucket) :
  bucket_wf b -> size (summary_bitmap b) = length (ids b).
Proof.
  intros Hwf. rewrite (wf_bitmap b Hwf).
  apply size_list_to_set, (wf_unique b Hwf).
Qed.

Lemma bucket_wf_deltas_u16 (b : Bucket) :
  bucket_wf b -> Forall is_u16 (deltas b).
Proof.
  intros Hwf. eapply Forall_impl; [apply (wf_deltas b Hwf) |].
  unfold is_u16, MAX_DELTA. simpl. intros; lia.
Qed.

(** C6: a bucket that satisfies the bucket invariants and holds at most
    65535 entries is read back from its payload with the same ids, deltas
    and summary bitmap (and the base the caller passes). *)
Theorem serialize_roundtrip (b : Bucket) :
  bucket_wf b ->
  Z.of_nat (length (ids b)) <= 65535 ->
  exists b',
    Bucket.deserialize (Bucket.serialize b) (base_value b) = Ok b' /\
    base_value b' = base_value b /\
    ids b' = ids b /\
    deltas b' = deltas b /\
    summary_bitmap b' = summary_bitmap b.
Proof.
  intros Hwf Hn.
  pose proof (bucket_wf_bitmap_u32 b Hwf) as Hbm.
  eexists. split.
  - apply deserialize_serialize.
    + apply (wf_length b Hwf).
    + apply bucket_wf_deltas_u16, Hwf.
    + apply (wf_ids b Hwf).
    + exact Hbm.
    + apply bm_size_fits; [exact Hbm |].
      rewrite bucket_wf_bitmap_size by exact Hwf. exact Hn.
  - cbn [base_value ids deltas summary_bitmap].
    unfold wrap16. rewrite Z.mod_small by lia. rewrite Nat2Z.id.
    rewrite <- (wf_length b Hwf) at 2.
    rewrite !firstn_all. auto.
Qed.

(** C10: the payload declares the number of entries modulo 2^16, so a
    bucket of more than 65535 entries is read back with only its first
    [size mod 2^16] entries: neither its ids nor its deltas are recovered. *)
Theorem serialize_count_truncation (b : Bucket) :
  length (deltas b) = length (ids b) ->
  Forall is_u16 (deltas b) ->
  Forall is_u32 (ids b) ->
  set_Forall is_u32 (summary_bitmap b) ->
  Z.of_nat (length (bm_write (summary_bitmap b))) < 2^32 ->
  65535 < Z.of_nat (length (ids b)) ->
  let n := Z.of_nat (length (ids b)) in
  let bm_size := length (bm_write (summary_bitmap b)) in
  le_value (take 2 (drop (4 + bm_size) (Bucket.serialize b))) = n mod 2^16 /\
  exists b',
    Bucket.deserialize (Bucket.serialize b) (base_value b) = Ok b' /\
    ids b' = take (Z.to_nat (n mod 2^16)) (ids b) /\
    deltas b' = take (Z.to_nat (n mod 2^16)) (deltas b) /\
    Z.of_nat (length (ids b')) = n mod 2^16 /\
    ids b' <> ids b /\ deltas b' <> deltas b.
Proof.
  intros Hlen Hd Hi Hbm Hsz Hbig n bm_size. split.
  - unfold Bucket.serialize.
    rewrite <- drop_drop, drop_le_bytes_app. subst bm_size.
    rewrite drop_app_length, take_le_bytes_app.
    rewrite le_value_le_bytes_small; [reflexivity |].
    unfold wrap16. simpl. lia.
  - eexists. split; [apply deserialize_serialize; assumption |].
    cbn [ids deltas]. fold n. unfold wrap16.
    assert (Hlt : (Z.to_nat (n mod 2^16) < length (ids b))%nat) by lia.
    repeat split.
    + rewrite length_take. lia.
    + intros Heq. apply (f_equal length) in Heq.
      rewrite length_take in Heq. lia.
    + intros Heq. apply (f_equal length) in Heq.
      rewrite length_take in Heq. lia.
Qed.

(** C7 (amended): a buffer shorter than six bytes is not rejected:
    [deserialize] returns the empty bucket for it. A buffer of six bytes or
    more is rejected with an error whenever the bitmap size it declares, the
    two bytes of its count, or the entries its count declares reach past its
    end. *)
Theorem deserialize_rejects_overrun (data : list byte) (base_val : Z) :
  let len := Z.of_nat (length data) in
  let bm_size := le_value (take 4 data) in
  let count := le_value (take 2 (drop (Z.to_nat bm_size) (drop 4 data))) in
  (len < 6 -> Bucket.deserialize data base_val = Ok (Bucket.empty base_val)) /\
  (6 <= len -> 4 + bm_size > len ->
   Bucket.deserialize data base_val = Err CorruptBitmapSize) /\
  (6 <= len -> 4 + bm_size <= len -> 4 + bm_size + 2 > len ->
   Bucket.deserialize data base_val = Err CorruptTruncatedCount
   \/ Bucket.deserialize data base_val = Err BitmapReadFailed) /\
  (6 <= len -> 4 + bm_size + 2 <= len ->
   0 < count -> 4 + bm_size + 2 + 2 * count + 4 * count > len ->
   Bucket.deserialize data base_val = Err CorruptTruncatedData
   \/ Bucket.deserialize data base_val = Err BitmapReadFailed).
Proof.
  intros len bm_size count. unfold Bucket.deserialize. cbv zeta.
  fold len. fold bm_size. fold count. unfold ID_BYTES.
  repeat split; intros;
    repeat (case_test; try zlia; try auto);
    destruct (bm_read (drop 4 data)); cbn [rbind];
    repeat (case_test; try zlia; try auto);
    solve [left; reflexivity | right; reflexivity].
Qed.

End PayloadClaims.

Definition sample_bucket : Bucket :=
  mkBucket 100 [5; 10] [1; 2] (list_to_set [1; 2]) false.

Lemma sample_bucket_wf : bucket_wf sample_bucket.
Proof.
  constructor; cbn [sample_bucket base_value deltas ids summary_bitmap].
  - unfold is_u32; lia.
  - reflexivity.
  - repeat constructor; lia.
  - unfold MAX_DELTA. repeat constructor; lia.
  - unfold is_u32. repeat constructor; lia.
  - by_compute.
  - reflexivity.
Defined.

Lemma serialize_roundtrip_witness :
  exists b',
    Bucket.deserialize (Bucket.serialize sample_bucket) 100 = Ok b' /\
    base_value b' = 100 /\ ids b' = [1; 2] /\ deltas b' = [5; 10] /\
    summary_bitmap b' = list_to_set [1; 2].
Proof.
  apply (serialize_roundtrip sample_bucket).
  - exact sample_bucket_wf.
  - simpl. lia.
Defined.

(** A bucket of 65536 entries, all of one value. *)
Definition oversized_bucket : Bucket :=
  mkBucket 42 (replicate (Z.to_nat 65536) 0)
    (Z.of_nat <$> seq 0 (Z.to_nat 65536)) ∅ true.

Lemma serialize_count_truncation_witness :
  exists b',
    Bucket.deserialize (Bucket.serialize oversized_bucket) 42 = Ok b' /\
    ids b' = [] /\ deltas b' = [] /\ ids b' <> ids oversized_bucket.
Proof.
  assert (Hn : length (ids oversized_bucket) = Z.to_nat 65536).
  { unfold oversized_bucket. cbn [ids]. rewrite length_fmap. apply length_seq. }
  assert (Hz : Z.of_nat (length (ids oversized_bucket)) = 65536).
  { rewrite Hn. apply Z2Nat.id. discriminate. }
  assert (H0 : Z.to_nat (Z.of_nat (length (ids oversized_bucket)) mod 2^16)
               = 0%nat).
  { rewrite Hz. reflexivity. }
  destruct (serialize_count_truncation oversized_bucket)
    as (_ & b' & Hd & Hi & Hdl & _ & Hne & _).
  - rewrite Hn. unfold oversized_bucket. cbn [deltas].
    apply length_replicate.
  - unfold oversized_bucket. cbn [deltas].
    apply Forall_replicate. split; [discriminate | reflexivity].
  - unfold oversized_bucket. cbn [ids].
    apply Forall_fmap, Forall_forall. intros x Hx.
    apply elem_of_seq in Hx. clear -Hx. unfold is_u32. simpl. lia.
  - intros x Hx. apply not_elem_of_empty in Hx. destruct Hx.
  - change (summary_bitmap oversized_bucket) with (∅ : gset Z).
    vm_compute. reflexivity.
  - rewrite Hz. reflexivity.
  - exists b'. split; [exact Hd |]. split; [|split; [|exact Hne]].
    + rewrite Hi, H0. reflexivity.
    + rewrite Hdl, H0. reflexivity.
Defined.

(** C7 (as stated, refuted): the empty buffer is shorter than six bytes and
    [deserialize] returns a bucket for it instead of raising an error. *)
Lemma deserialize_short_counterexample :
  (length ([] : list byte) < 6)%nat /\
  Bucket.deserialize [] 7 = Ok (Bucket.empty 7).
Proof. split; [simpl; lia | reflexivity]. Qed.

Lemma deserialize_rejects_overrun_witness :
  Bucket.deserialize [x09; x00; x00; x00; x00; x00; x00] 7
  = Err CorruptBitmapSize.
Proof.
  apply (deserialize_rejects_overrun [x09; x00; x00; x00; x00; x00; x00] 7);
    vm_compute; congruence.
Defined.

(** ** Entries of a bucket *)

(** The (value, id) pairs a bucket holds, in the order of its arrays. *)
Definition bucket_entries (b : Bucket) : list (Z * Z) :=
  zip ((fun d => base_value b + d) <$> deltas b) (ids b).

Lemma zip_vec_insert {A B : Type} (i : nat) (x : A) (y : B)
    (l1 : list A) (l2 : list B) :
  length l1 = length l2 ->
  zip (vec_insert i x l1) (vec_insert i y l2) = vec_insert i (x, y) (zip l1 l2).
Proof.
  intros Hlen. unfold vec_insert.
  rewrite zip_with_app by (rewrite !length_take; lia).
  cbn [zip_with]. rewrite <- zip_with_take, <- zip_with_drop. reflexivity.
Qed.

Lemma fmap_vec_insert {A B : Type} (f : A -> B) (i : nat) (x : A) (l : list A) :
  f <$> vec_insert i x l = vec_insert i (f x) (f <$> l).
Proof.
  unfold vec_insert. rewrite fmap_app, fmap_cons, fmap_take, fmap_drop.
  reflexivity.
Qed.

Lemma list_to_set_vec_insert (i : nat) (x : Z) (l : list Z) :
  list_to_set (vec_insert i x l) =@{gset Z} {[ x ]} ∪ list_to_set l.
Proof.
  apply set_eq. intros y.
  rewrite elem_of_union, elem_of_singleton, !elem_of_list_to_set.
  rewrite (vec_insert_perm i x l), elem_of_cons. reflexivity.
Qed.

(** [add] keeps a well-formed bucket well-formed and adds one entry. *)
Lemma bucket_add_wf (b : Bucket) (val id : Z) :
  bucket_wf b -> is_u32 val -> is_u32 id -> id ∉ ids b ->
  base_value b <= val -> val - base_value b <= MAX_DELTA ->
  exists b',
    Bucket.add b val id = Ok b' /\
    bucket_wf b' /\
    base_value b' = base_value b /\
    bucket_entries b' ≡ₚ (val, id) :: bucket_entries b /\
    length (ids b') = S (length (ids b)).
Proof.
  intros Hwf Hv Hid Hnew Hle Hd.
  destruct Hwf as [Hb Hlen Hs Hds Hids Hnd Hbm].
  eexists. split; [apply bucket_add_ok; assumption |].
  set (i := lower_bound (deltas b) (val - base_value b)).
  split; [| split; [reflexivity | split]].
  - constructor; cbn [base_value deltas ids summary_bitmap].
    + exact Hb.
    + rewrite !length_vec_insert. lia.
    + apply sorted_vec_insert, Hs.
    + rewrite (vec_insert_perm i). constructor; [| exact Hds].
      unfold is_u32, MAX_DELTA in *. lia.
    + rewrite (vec_insert_perm i). constructor; assumption.
    + rewrite (vec_insert_perm i). constructor; assumption.
    + rewrite Hbm. symmetry. apply list_to_set_vec_insert.
  - unfold bucket_entries. cbn [base_value deltas ids].
    rewrite fmap_vec_insert, zip_vec_insert by (rewrite length_fmap; exact Hlen).
    rewrite vec_insert_perm. replace (base_value b + (val - base_value b)) with val by lia.
    reflexivity.
  - cbn [ids]. apply length_vec_insert.
Qed.

(** Position of the first occurrence of an id. *)
Lemma find_id_Some (l : list Z) (id : Z) (i : nat) :
  find_id l id = Some i -> l !! i = Some id.
Proof.
  revert i. induction l as [|x l IH]; intros i; simpl; [discriminate |].
  destruct (x =? id) eqn:E.
  - intros [= <-]. apply Z.eqb_eq in E. subst. reflexivity.
  - destruct (find_id l id) as [j|]; simpl; [|discriminate].
    intros [= <-]. simpl. apply IH. reflexivity.
Qed.

Lemma find_id_None (l : list Z) (id : Z) :
  find_id l id = None <-> id ∉ l.
Proof.
  induction l as [|x l IH]; simpl.
  - split; [intros _; apply not_elem_of_nil | reflexivity].
  - rewrite not_elem_of_cons. destruct (x =? id) eqn:E.
    + apply Z.eqb_eq in E. subst. split; [discriminate | intros [? _]; congruence].
    + apply Z.eqb_neq in E. destruct (find_id l id); simpl.
      * split; [discriminate |]. intros [_ Hn]. apply IH in Hn. discriminate.
      * split; [|reflexivity]. intros _. split; [congruence | by apply IH].
Qed.

Lemma find_id_elem (l : list Z) (id : Z) :
  id ∈ l -> exists i, find_id l id = Some i.
Proof.
  intros Hin. destruct (find_id l id) as [i|] eqn:E; [eauto |].
  apply find_id_None in E. contradiction.
Qed.

Lemma StronglySorted_delete (l : list Z) (i : nat) :
  StronglySorted Z.le l -> StronglySorted Z.le (delete i l).
Proof.
  intros Hs. rewrite delete_take_drop.
  replace (S i) with (i + 1)%nat by lia. rewrite <- drop_drop.
  rewrite <- (take_drop i l) in Hs.
  apply StronglySorted_app in Hs as (H12 & H1 & H2).
  apply StronglySorted_app_2; [| exact H1 |].
  - intros x1 x2 Hx1 Hx2. apply H12; [exact Hx1 |].
    eapply elem_of_sublist; [exact Hx2 |]. apply sublist_drop.
  - destruct (drop i l) as [|y r]; [constructor |].
    apply StronglySorted_cons in H2 as [_ H2]. exact H2.
Qed.

Lemma zip_delete {A B : Type} (i : nat) (l1 : list A) (l2 : list B) :
  zip (delete i l1) (delete i l2) = delete i (zip l1 l2).
Proof.
  revert i l2. induction l1 as [|x l1 IH]; intros i l2.
  - destruct i; reflexivity.
  - destruct l2 as [|y l2].
    + destruct i; simpl; [destruct l1; reflexivity | reflexivity].
    + destruct i; simpl; [reflexivity | f_equal; apply IH].
Qed.

(** [remove] of an id the bucket holds takes out exactly its entry. *)
Lemma bucket_remove_wf (b : Bucket) (id : Z) :
  bucket_wf b -> id ∈ ids b ->
  exists b' v,
    Bucket.remove b id = (b', true) /\
    bucket_wf b' /\
    base_value b' = base_value b /\
    bucket_entries b ≡ₚ (v, id) :: bucket_entries b' /\
    (id ∉ ids b') /\
    length (ids b) = S (length (ids b')).
Proof.
  intros Hwf Hin.
  destruct Hwf as [Hb Hlen Hs Hds Hids Hnd Hbm].
  destruct (find_id_elem _ _ Hin) as [i Hi].
  pose proof (find_id_Some _ _ _ Hi) as Hli.
  assert (Hlt : (i < length (ids b))%nat) by (eapply lookup_lt_Some; eauto).
  destruct (lookup_lt_is_Some_2 (deltas b) i) as [d Hd]; [lia |].
  unfold Bucket.remove. rewrite Hi.
  assert (Hnot : id ∉ delete i (ids b)).
  { intros Hx. rewrite <- (take_drop_middle _ _ _ Hli) in Hnd.
    rewrite delete_take_drop in Hx.
    apply NoDup_app in Hnd as (_ & Hn1 & Hn2).
    apply NoDup_cons in Hn2 as [Hn2 _].
    apply elem_of_app in Hx as [Hx | Hx]; [| contradiction].
    apply (Hn1 _ Hx). left. }
  eexists. exists (base_value b + d). split; [reflexivity |].
  split; [| split; [reflexivity | split; [| split]]].
  - constructor; cbn [base_value deltas ids summary_bitmap].
    + exact Hb.
    + rewrite !length_delete by eauto. lia.
    + apply StronglySorted_delete, Hs.
    + apply Forall_delete, Hds.
    + apply Forall_delete, Hids.
    + eapply sublist_NoDup; [exact Hnd | apply sublist_delete].
    + rewrite Hbm. apply set_eq. intros x.
      rewrite elem_of_difference, elem_of_singleton, !elem_of_list_to_set.
      rewrite (delete_Permutation _ _ _ Hli) at 1. rewrite elem_of_cons.
      split.
      * intros [[-> | Hx] Hne]; [congruence | exact Hx].
      * intros Hx. split; [right; exact Hx | intros ->; contradiction].
  - unfold bucket_entries. cbn [base_value deltas ids].
    rewrite list_fmap_delete, zip_delete.
    apply delete_Permutation.
    rewrite lookup_zip_with, list_lookup_fmap, Hd, Hli. reflexivity.
  - exact Hnot.
  - cbn [ids]. rewrite length_delete by eauto. lia.
Qed.

Lemma bucket_remove_absent (b : Bucket) (id : Z) :
  id ∉ ids b -> Bucket.remove b id = (b, false).
Proof.
  intros Hn. unfold Bucket.remove.
  apply find_id_None in Hn. rewrite Hn. reflexivity.
Qed.

Lemma bucket_entries_ids (b : Bucket) :
  length (deltas b) = length (ids b) -> (bucket_entries b).*2 = ids b.
Proof.
  intros Hlen. unfold bucket_entries.
  apply snd_zip. rewrite length_fmap. lia.
Qed.

Lemma bucket_entries_values (b : Bucket) :
  length (deltas b) = length (ids b) ->
  (bucket_entries b).*1 = (fun d => base_value b + d) <$> deltas b.
Proof.
  intros Hlen. unfold bucket_entries.
  apply fst_zip. rewrite length_fmap. lia.
Qed.

Lemma length_bucket_entries (b : Bucket) :
  length (deltas b) = length (ids b) ->
  length (bucket_entries b) = length (ids b).
Proof.
  intros Hlen. unfold bucket_entries.
  rewrite length_zip_with, length_fmap. lia.
Qed.

(** ** The slide split *)

(** [k] is a value-boundary cut of [l] chosen by the slide rule around
    [mid]: the first boundary at or after [mid], or else the last one at or
    before it. *)
Definition cut_at (l : list Z) (mid k : nat) : Prop :=
  (0 < k < length l)%nat /\
  l !!! (k - 1)%nat <> l !!! k /\
  ((mid <= k)%nat /\
     (forall j, (mid <= j < k)%nat -> l !!! j = l !!! (j - 1)%nat)
   \/
   (k <= mid)%nat /\
     (forall j, (mid <= j < length l)%nat -> l !!! j = l !!! (j - 1)%nat) /\
     (forall j, (k < j <= mid)%nat -> l !!! j = l !!! (j - 1)%nat)).

Lemma probe_right_spec (fuel : nat) (l : list Z) (p : nat) :
  (length l <= p + fuel)%nat -> (0 < p)%nat ->
  let r := NumericIndex.probe_right fuel l p in
  (p <= r)%nat /\
  (r < length l -> l !!! r <> l !!! (r - 1)%nat)%nat /\
  (forall j, (p <= j < r)%nat -> l !!! j = l !!! (j - 1)%nat) /\
  (r <= Nat.max p (length l))%nat.
Proof.
  revert p. induction fuel as [|fuel IH]; intros p Hf Hp; cbn [NumericIndex.probe_right].
  - repeat split; try lia.
  - destruct ((p <? length l)%nat && (0 <? p)%nat
              && (l !!! p =? l !!! (p - 1)%nat)) eqn:E.
    + apply andb_true_iff in E as [E E3]. apply andb_true_iff in E as [E1 E2].
      zb_hyps.
      destruct (IH (S p)) as (H1 & H2 & H3 & H4); [lia | lia |].
      cbv zeta in *.
      split; [lia |]. split; [exact H2 |]. split; [| lia].
      intros j Hj. destruct (decide (j = p)) as [-> | Hne]; [exact E3 |].
      apply H3. lia.
    + split; [lia |]. split; [| split; [intros; lia | lia]].
      intros Hlt Heq.
      apply andb_false_iff in E as [E | E]; [|zb_hyps; congruence].
      apply andb_false_iff in E as [E | E]; zb_hyps; lia.
Qed.

(** With fuel [length l] the right probe stops on its own condition. *)
Lemma probe_right_stops (l : list Z) (p : nat) :
  (0 < p)%nat ->
  let r := NumericIndex.probe_right (length l) l p in
  ((r <? length l)%nat && (0 <? r)%nat && (l !!! r =? l !!! (r - 1)%nat)) = false.
Proof.
  intros Hp r.
  destruct (probe_right_spec (length l) l p) as (H1 & H2 & _); [lia | lia |].
  fold r in H1, H2.
  destruct (decide (r < length l)%nat) as [Hlt | Hge].
  - specialize (H2 Hlt).
    destruct (l !!! r =? l !!! (r - 1)%nat) eqn:E; [zb_hyps; contradiction |].
    apply andb_false_r.
  - destruct (r <? length l)%nat eqn:E; [zb_hyps; contradiction |].
    reflexivity.
Qed.

Lemma probe_left_spec (l : list Z) (p : nat) :
  let r := NumericIndex.probe_left l p in
  (r <= p)%nat /\
  (0 < r -> l !!! r <> l !!! (r - 1)%nat)%nat /\
  (forall j, (r < j <= p)%nat -> l !!! j = l !!! (j - 1)%nat).
Proof.
  induction p as [|p IH]; cbn [NumericIndex.probe_left].
  - repeat split; try lia.
  - destruct (l !!! S p =? l !!! p) eqn:E; zb_hyps.
    + destruct IH as (H1 & H2 & H3). cbv zeta in *.
      split; [lia |]. split; [exact H2 |].
      intros j Hj. destruct (decide (j = S p)) as [-> | Hne].
      * replace (S p - 1)%nat with p by lia. exact E.
      * apply H3. lia.
    + split; [lia |]. split; [| intros; lia].
      intros _. replace (S p - 1)%nat with p by lia. exact E.
Qed.

Lemma split_index_spec (b : Bucket) :
  length (deltas b) = length (ids b) -> (2 <= length (ids b))%nat ->
  let k := NumericIndex.split_index b in
  ((k < length (deltas b))%nat /\
     cut_at (deltas b) (length (ids b) / 2) k)
  \/
  (k = length (deltas b) /\
     forall j, (0 < j < length (deltas b))%nat ->
               deltas b !!! j = deltas b !!! (j - 1)%nat).
Proof.
  intros Hlen Hn. unfold NumericIndex.split_index.
  set (l := deltas b). set (n := length (ids b)) in *.
  assert (Hl : length l = n) by exact Hlen.
  set (mid := (n / 2)%nat).
  assert (Hmid : (0 < mid < n)%nat).
  { subst mid. split; [apply Nat.div_str_pos; lia | apply Nat.div_lt; lia]. }
  destruct (probe_right_spec (length l) l mid) as (R1 & R2 & R3 & R4);
    [lia | lia |].
  destruct (probe_left_spec l mid) as (L1 & L2 & L3).
  cbv zeta in *.
  set (pr := NumericIndex.probe_right (length l) l mid) in *.
  set (pl := NumericIndex.probe_left l mid) in *.
  destruct (pr <? length l)%nat eqn:Er; zb_hyps.
  - left. split; [exact Er |]. unfold cut_at.
    split; [lia |]. split; [intros Heq; apply (R2 Er); congruence |].
    left. split; [exact R1 | exact R3].
  - destruct (0 <? pl)%nat eqn:El; zb_hyps.
    + left. split; [lia |]. unfold cut_at.
      split; [lia |]. split; [intros Heq; apply (L2 El); congruence |].
      right. split; [exact L1 |]. split; [| exact L3].
      intros j Hj. apply R3. lia.
    + right. split; [reflexivity |].
      intros j Hj. destruct (decide (j <= mid)%nat).
      * apply L3. lia.
      * apply R3. lia.
Qed.

Lemma sorted_lookup_le (l : list Z) (i j : nat) (x y : Z) :
  StronglySorted Z.le l -> (i <= j)%nat ->
  l !! i = Some x -> l !! j = Some y -> x <= y.
Proof.
  intros Hs. revert i j. induction Hs as [|a l Hs IH Ha]; intros i j Hij Hi Hj.
  - rewrite lookup_nil in Hi. discriminate.
  - destruct i as [|i], j as [|j]; simpl in *; try lia.
    + injection Hi as <-. injection Hj as <-. lia.
    + injection Hi as <-. rewrite Forall_forall in Ha.
      apply Ha. eapply list_elem_of_lookup_2. exact Hj.
    + eapply IH; [| exact Hi | exact Hj]. lia.
Qed.

Lemma sorted_total_le (l : list Z) (i j : nat) :
  StronglySorted Z.le l -> (i <= j < length l)%nat -> l !!! i <= l !!! j.
Proof.
  intros Hs Hij.
  destruct (lookup_lt_is_Some_2 l i) as [x Hx]; [lia |].
  destruct (lookup_lt_is_Some_2 l j) as [y Hy]; [lia |].
  rewrite (list_lookup_total_correct _ _ _ Hx).
  rewrite (list_lookup_total_correct _ _ _ Hy).
  apply (sorted_lookup_le l i j x y Hs); [lia | exact Hx | exact Hy].
Qed.

(** [move_entries] adds, one by one, the entries from the cut on. *)
Definition add_all (r : result Bucket) (es : list (Z * Z)) : result Bucket :=
  foldl (fun acc e => let! r := acc in Bucket.add r e.1 e.2) r es.

Lemma add_all_Err (e : error) (es : list (Z * Z)) : add_all (Err e) es = Err e.
Proof. induction es as [|x es IH]; [reflexivity | exact IH]. Qed.

Lemma bucket_entries_lookup (b : Bucket) (i : nat) :
  (i < length (deltas b))%nat -> (i < length (ids b))%nat ->
  bucket_entries b !! i = Some (base_value b + deltas b !!! i, ids b !!! i).
Proof.
  intros H1 H2. unfold bucket_entries.
  destruct (lookup_lt_is_Some_2 (deltas b) i H1) as [d Hd].
  destruct (lookup_lt_is_Some_2 (ids b) i H2) as [x Hx].
  rewrite lookup_zip_with, list_lookup_fmap, Hd, Hx. cbn.
  rewrite (list_lookup_total_correct _ _ _ Hd).
  rewrite (list_lookup_total_correct _ _ _ Hx). reflexivity.
Qed.

Lemma move_entries_fold (b : Bucket) (m k : nat) (acc : result Bucket) :
  length (deltas b) = length (ids b) ->
  Forall (fun d => 0 <= base_value b + d < 2^32) (deltas b) ->
  (k + m = length (deltas b))%nat ->
  foldl (fun acc i =>
           let! r := acc in
           Bucket.add r (wrap32 (base_value b + deltas b !!! i)) (ids b !!! i))
        acc (seq k m)
  = add_all acc (drop k (bucket_entries b)).
Proof.
  intros Hlen Hr. revert k acc. induction m as [|m IH]; intros k acc Hk.
  - rewrite drop_ge; [reflexivity |].
    rewrite length_bucket_entries by exact Hlen. lia.
  - cbn [seq foldl].
    rewrite (drop_S _ _ _ (bucket_entries_lookup b k ltac:(lia) ltac:(lia))).
    cbn [add_all foldl]. rewrite IH by lia. cbn [fst snd].
    unfold wrap32. rewrite Z.mod_small; [reflexivity |].
    rewrite Forall_forall in Hr. apply Hr.
    apply list_elem_of_lookup_total_2. lia.
Qed.

Lemma add_all_spec (es : list (Z * Z)) (r : Bucket) :
  bucket_wf r ->
  Forall (fun e => is_u32 e.1 /\ is_u32 e.2 /\
                   base_value r <= e.1 /\ e.1 - base_value r <= MAX_DELTA) es ->
  NoDup es.*2 ->
  (forall e, e ∈ es -> e.2 ∉ ids r) ->
  exists r',
    add_all (Ok r) es = Ok r' /\
    bucket_wf r' /\
    base_value r' = base_value r /\
    bucket_entries r' ≡ₚ es ++ bucket_entries r.
Proof.
  revert r. induction es as [|e es IH]; intros r Hwf Hes Hnd Hfresh.
  - exists r. split; [reflexivity |]. split; [exact Hwf |]. split; reflexivity.
  - apply Forall_cons in Hes as [(He1 & He2 & He3 & He4) Hes].
    cbn [fmap list_fmap] in Hnd. apply NoDup_cons in Hnd as [Hne Hnd].
    destruct (bucket_add_wf r e.1 e.2) as (r1 & Hadd & Hwf1 & Hb1 & Hp1 & _);
      auto.
    { apply Hfresh. left. }
    assert (Hids1 : ids r1 ≡ₚ e.2 :: ids r).
    { rewrite <- (bucket_entries_ids r1) by apply (wf_length _ Hwf1).
      rewrite <- (bucket_entries_ids r) by apply (wf_length _ Hwf).
      rewrite Hp1. reflexivity. }
    destruct (IH r1) as (r' & Hall & Hwf' & Hb' & Hp'); auto.
    { rewrite Hb1. exact Hes. }
    { intros e' He'. rewrite Hids1. apply not_elem_of_cons. split.
      - intros Heq. apply Hne. rewrite <- Heq.
        apply list_elem_of_fmap_2. exact He'.
      - apply Hfresh. right. exact He'. }
    exists r'. split; [| split; [exact Hwf' | split; [congruence |]]].
    + cbn [add_all foldl]. cbn [rbind]. rewrite Hadd. exact Hall.
    + rewrite Hp', Hp1. destruct e. cbn.
      rewrite <- Permutation_middle. reflexivity.
Qed.

Lemma bucket_empty_wf (base_val : Z) :
  is_u32 base_val -> bucket_wf (Bucket.empty base_val).
Proof.
  intros Hb. constructor; cbn; auto; constructor.
Qed.

Lemma truncate_left_wf (b : Bucket) (k : nat) :
  bucket_wf b ->
  bucket_wf (NumericIndex.truncate_left b k) /\
  bucket_entries (NumericIndex.truncate_left b k) = take k (bucket_entries b).
Proof.
  intros [Hb Hlen Hs Hds Hids Hnd Hbm]. split.
  - constructor; cbn [NumericIndex.truncate_left base_value deltas ids summary_bitmap].
    + exact Hb.
    + rewrite !length_take. lia.
    + rewrite <- (take_drop k (deltas b)) in Hs.
      apply StronglySorted_app in Hs as (_ & H1 & _). exact H1.
    + apply Forall_take, Hds.
    + apply Forall_take, Hids.
    + eapply sublist_NoDup; [exact Hnd | apply sublist_take].
    + reflexivity.
  - unfold bucket_entries, NumericIndex.truncate_left.
    cbn [base_value deltas ids].
    rewrite fmap_take, <- zip_with_take. reflexivity.
Qed.

Lemma bucket_wf_delta_range (b : Bucket) (i : nat) :
  bucket_wf b -> (i < length (deltas b))%nat ->
  0 <= deltas b !!! i <= MAX_DELTA /\ base_value b + deltas b !!! i < 2^32.
Proof.
  intros Hwf Hi. pose proof (wf_deltas b Hwf) as Hd.
  rewrite Forall_forall in Hd. apply Hd.
  apply list_elem_of_lookup_total_2. exact Hi.
Qed.

Lemma bucket_wf_id_range (b : Bucket) (i : nat) :
  bucket_wf b -> (i < length (ids b))%nat -> is_u32 (ids b !!! i).
Proof.
  intros Hwf Hi. pose proof (wf_ids b Hwf) as Hd.
  rewrite Forall_forall in Hd. apply Hd.
  apply list_elem_of_lookup_total_2. exact Hi.
Qed.

Lemma bucket_wf_values (b : Bucket) :
  bucket_wf b ->
  Forall (fun d => 0 <= base_value b + d < 2^32) (deltas b).
Proof.
  intros Hwf. pose proof (wf_base b Hwf) as Hb.
  eapply Forall_impl; [apply (wf_deltas b Hwf) |].
  unfold is_u32 in Hb. simpl. intros; lia.
Qed.

(** What the split yields for a well-formed bucket cut at a value boundary. *)
Lemma slide_split_wf (b : Bucket) (k : nat) (value id : Z) :
  bucket_wf b ->
  (0 < k < length (deltas b))%nat ->
  deltas b !!! (k - 1)%nat <> deltas b !!! k ->
  is_u32 value -> is_u32 id -> id ∉ ids b ->
  base_value b <= value -> value - base_value b <= MAX_DELTA ->
  exists left_b right_b,
    NumericIndex.slide_split b k value id = Ok (left_b, right_b) /\
    bucket_wf left_b /\ bucket_wf right_b /\
    base_value left_b = base_value b /\
    base_value right_b = base_value b + deltas b !!! k /\
    base_value b < base_value right_b /\
    Forall (fun e => e.1 < base_value right_b) (bucket_entries left_b) /\
    (if value <? base_value right_b
     then bucket_entries left_b ≡ₚ (value, id) :: take k (bucket_entries b) /\
          bucket_entries right_b ≡ₚ drop k (bucket_entries b)
     else bucket_entries left_b = take k (bucket_entries b) /\
          bucket_entries right_b ≡ₚ (value, id) :: drop k (bucket_entries b)).
Proof.
  intros Hwf Hk Hcut Hv Hid Hnew Hle Hmax.
  pose proof (wf_length b Hwf) as Hlen.
  pose proof (wf_base b Hwf) as Hb.
  pose proof (bucket_wf_delta_range b k Hwf ltac:(lia)) as [Hdk Hdk32].
  pose proof (bucket_wf_delta_range b (k - 1) Hwf ltac:(lia)) as [Hdk1 _].
  pose proof (sorted_total_le (deltas b) (k - 1) k (wf_sorted b Hwf) ltac:(lia))
    as Hmono.
  unfold NumericIndex.slide_split, NumericIndex.move_entries.
  set (dk := deltas b !!! k) in *.
  set (rb := base_value b + dk).
  assert (Hrb : is_u32 rb) by (unfold is_u32 in *; subst rb; lia).
  replace (wrap32 rb) with rb
    by (unfold wrap32; rewrite Z.mod_small; unfold is_u32 in *; lia).
  rewrite (move_entries_fold b (length (deltas b) - k) k)
    by (auto using bucket_wf_values; lia).
  (* the entries moved to the right bucket *)
  assert (Hmoved : Forall (fun e => is_u32 e.1 /\ is_u32 e.2 /\
                                    rb <= e.1 /\ e.1 - rb <= MAX_DELTA)
                     (drop k (bucket_entries b))).
  { apply Forall_lookup_2. intros i e He.
    rewrite lookup_drop in He.
    assert (Hi : (k + i < length (deltas b))%nat).
    { apply lookup_lt_Some in He.
      rewrite length_bucket_entries in He by exact Hlen. lia. }
    rewrite bucket_entries_lookup in He by lia. injection He as <-.
    cbn [fst snd].
    pose proof (bucket_wf_delta_range b (k + i) Hwf Hi) as [Hd Hd32].
    pose proof (sorted_total_le (deltas b) k (k + i) (wf_sorted b Hwf)
                  ltac:(lia)) as Hge.
    fold dk in Hge.
    split; [unfold is_u32 in *; lia |].
    split; [apply bucket_wf_id_range; [exact Hwf | lia] |].
    subst rb. unfold MAX_DELTA in *. lia. }
  assert (Hmoved_ids : (drop k (bucket_entries b)).*2 = drop k (ids b)).
  { rewrite fmap_drop, bucket_entries_ids by exact Hlen. reflexivity. }
  destruct (add_all_spec (drop k (bucket_entries b)) (Bucket.empty rb))
    as (r1 & Hr1 & Hwf1 & Hb1 & Hp1).
  { apply bucket_empty_wf, Hrb. }
  { exact Hmoved. }
  { rewrite Hmoved_ids. eapply sublist_NoDup; [apply (wf_unique b Hwf) |].
    apply sublist_drop. }
  { intros e _. cbn. apply not_elem_of_nil. }
  rewrite Hr1. cbn [rbind]. rewrite app_nil_r in Hp1.
  cbn [Bucket.empty base_value] in Hb1.
  destruct (truncate_left_wf b k Hwf) as [Hwfl Hel].
  (* entries kept on the left are strictly below the new base *)
  assert (Hleft : Forall (fun e => e.1 < rb) (take k (bucket_entries b))).
  { apply Forall_lookup_2. intros i e He.
    assert (Hi : (i < k)%nat).
    { apply lookup_lt_Some in He. rewrite length_take in He. lia. }
    rewrite lookup_take_lt in He by exact Hi.
    rewrite bucket_entries_lookup in He by lia. injection He as <-.
    cbn [fst].
    pose proof (sorted_total_le (deltas b) i (k - 1) (wf_sorted b Hwf)
                  ltac:(lia)).
    subst rb. lia. }
  assert (Hids1 : ids r1 ≡ₚ drop k (ids b)).
  { rewrite <- (bucket_entries_ids r1) by apply (wf_length _ Hwf1).
    rewrite Hp1, Hmoved_ids. reflexivity. }
  rewrite Hb1.
  destruct (value >=? rb) eqn:Ev; zb_hyps.
  - destruct (bucket_add_wf r1 value id) as (r2 & Hadd & Hwf2 & Hb2 & Hp2 & _);
      auto.
    { rewrite Hids1. intros Hx. apply Hnew.
      eapply elem_of_sublist; [exact Hx | apply sublist_drop]. }
    { lia. }
    { subst rb. unfold MAX_DELTA in *. lia. }
    rewrite Hadd. cbn [rbind].
    exists (NumericIndex.truncate_left b k), r2.
    split; [reflexivity |]. split; [exact Hwfl |]. split; [exact Hwf2 |].
    split; [reflexivity |]. split; [congruence |].
    rewrite Hb2, Hb1.
    split; [subst rb; lia |].
    split; [rewrite Hel; exact Hleft |].
    destruct (value <? rb) eqn:Ev2; zb_hyps; [lia |].
    split; [exact Hel |]. rewrite Hp2, Hp1. reflexivity.
  - destruct (bucket_add_wf (NumericIndex.truncate_left b k) value id)
      as (l2 & Hadd & Hwf2 & Hb2 & Hp2 & _); auto.
    { cbn [NumericIndex.truncate_left ids]. intros Hx. apply Hnew.
      eapply elem_of_sublist; [exact Hx | apply sublist_take]. }
    rewrite Hadd. cbn [rbind].
    exists l2, r1.
    split; [reflexivity |]. split; [exact Hwf2 |]. split; [exact Hwf1 |].
    split; [exact Hb2 |]. split; [exact Hb1 |].
    rewrite Hb1.
    split; [subst rb; lia |].
    split.
    { rewrite Hp2, Hel. constructor; [cbn; lia | exact Hleft]. }
    destruct (value <? rb) eqn:Ev2; zb_hyps; [| lia].
    split; [rewrite Hp2, Hel; reflexivity | exact Hp1].
Qed.

Lemma rebase_entries (base c : Z) (ds xs : list Z) :
  (fun e : Z * Z => (e.1 - c, e.2)) <$> zip ((fun d => base + d) <$> ds) xs
  = zip ((fun d => base + d - c) <$> ds) xs.
Proof.
  revert xs. induction ds as [|d ds IH]; intros [|x xs]; cbn; try reflexivity.
  f_equal. apply IH.
Qed.

Lemma bucket_pairs_of_entries (b : Bucket) :
  zip (deltas b) (ids b)
  = (fun e : Z * Z => (e.1 - base_value b, e.2)) <$> bucket_entries b.
Proof.
  unfold bucket_entries. rewrite rebase_entries.
  f_equal. rewrite <- (list_fmap_id (deltas b)) at 1.
  apply list_fmap_ext. intros i d _. simpl. lia.
Qed.

Lemma bucket_pairs_rebased (b : Bucket) (c : Z) (k : nat) :
  (fun e : Z * Z => (e.1 - (base_value b + c), e.2)) <$> drop k (bucket_entries b)
  = zip ((fun d => d - c) <$> drop k (deltas b)) (drop k (ids b)).
Proof.
  unfold bucket_entries.
  rewrite zip_with_drop, <- fmap_drop, rebase_entries.
  f_equal. apply list_fmap_ext. intros i d _. simpl. lia.
Qed.

(** C3: when an insert into a saturated bucket finds a value-boundary cut
    [k] (the first boundary at or after the midpoint, else the last one at or
    before it), the split yields a right bucket based at
    [left.base + deltas[k]] that holds the former entries from [k] on, their
    deltas re-expressed against the new base, and a left bucket truncated to
    the first [k] entries; each summary bitmap is the set of its bucket's
    ids; the new entry goes left when its value is below the right base and
    right otherwise; both delta arrays are non-decreasing and every value on
    the left is strictly below the right base. *)
Theorem slide_split_spec (b : Bucket) (value id : Z) :
  bucket_wf b ->
  (MAX_SIZE <= length (ids b))%nat ->
  is_u32 value -> is_u32 id -> id ∉ ids b ->
  base_value b <= value -> value - base_value b <= 65535 ->
  let k := NumericIndex.split_index b in
  let mid := (length (ids b) / 2)%nat in
  (k < length (deltas b))%nat ->
  cut_at (deltas b) mid k /\
  exists left_b right_b,
    NumericIndex.slide_split b k value id = Ok (left_b, right_b) /\
    base_value left_b = base_value b /\
    base_value right_b = base_value b + deltas b !!! k /\
    (if value <? base_value right_b
     then
       zip (deltas left_b) (ids left_b)
         ≡ₚ (value - base_value b, id) :: zip (take k (deltas b)) (take k (ids b)) /\
       zip (deltas right_b) (ids right_b)
         ≡ₚ zip ((fun d => d - deltas b !!! k) <$> drop k (deltas b))
              (drop k (ids b))
     else
       deltas left_b = take k (deltas b) /\ ids left_b = take k (ids b) /\
       zip (deltas right_b) (ids right_b)
         ≡ₚ (value - base_value right_b, id)
            :: zip ((fun d => d - deltas b !!! k) <$> drop k (deltas b))
                 (drop k (ids b))) /\
    summary_bitmap left_b = list_to_set (ids left_b) /\
    summary_bitmap right_b = list_to_set (ids right_b) /\
    StronglySorted Z.le (deltas left_b) /\
    StronglySorted Z.le (deltas right_b) /\
    Forall (fun d => base_value left_b + d < base_value right_b) (deltas left_b).
Proof.
  intros Hwf Hsat Hv Hid Hnew Hle Hmax k mid Hk.
  pose proof (wf_length b Hwf) as Hlen.
  assert (Hcut : cut_at (deltas b) mid k).
  { destruct (split_index_spec b Hlen) as [[_ Hc] | [Heq _]].
    - unfold MAX_SIZE in Hsat. lia.
    - exact Hc.
    - fold k in Heq. lia. }
  split; [exact Hcut |].
  destruct Hcut as (Hk0 & Hne & _).
  destruct (slide_split_wf b k value id)
    as (l & r & Hs & Hwfl & Hwfr & Hbl & Hbr & Hlt & Hbelow & Hent); auto.
  exists l, r. split; [exact Hs |]. split; [exact Hbl |]. split; [exact Hbr |].
  split; [| split; [apply (wf_bitmap l Hwfl) |
            split; [apply (wf_bitmap r Hwfr) |
            split; [apply (wf_sorted l Hwfl) |
            split; [apply (wf_sorted r Hwfr) |]]]]].
  - assert (Htake : (fun e : Z * Z => (e.1 - base_value b, e.2))
                      <$> take k (bucket_entries b)
                    = zip (take k (deltas b)) (take k (ids b))).
    { rewrite fmap_take, <- bucket_pairs_of_entries.
      apply zip_with_take. }
    destruct (value <? base_value r) eqn:E; destruct Hent as [Hl Hr].
    + split.
      * rewrite (bucket_pairs_of_entries l), Hbl, Hl.
        cbn [fmap list_fmap fst snd]. rewrite Htake. reflexivity.
      * rewrite (bucket_pairs_of_entries r), Hr, Hbr.
        rewrite bucket_pairs_rebased. reflexivity.
    + assert (Hpl : zip (deltas l) (ids l)
                    = zip (take k (deltas b)) (take k (ids b))).
      { rewrite (bucket_pairs_of_entries l), Hbl, Hl. exact Htake. }
      assert (Hll : length (deltas l) = length (ids l))
        by apply (wf_length l Hwfl).
      split; [| split].
      * apply (f_equal (fmap fst)) in Hpl.
        rewrite !fst_zip in Hpl; [exact Hpl | rewrite !length_take; lia | lia].
      * apply (f_equal (fmap snd)) in Hpl.
        rewrite !snd_zip in Hpl; [exact Hpl | rewrite !length_take; lia | lia].
      * rewrite (bucket_pairs_of_entries r), Hr.
        cbn [fmap list_fmap fst snd]. constructor.
        rewrite Hbr, bucket_pairs_rebased. reflexivity.
  - pose proof (bucket_entries_values l (wf_length l Hwfl)) as Hvals.
    assert (Hb1 : Forall (fun v => v < base_value r) (bucket_entries l).*1).
    { apply Forall_fmap. exact Hbelow. }
    rewrite Hvals in Hb1. apply Forall_fmap in Hb1. exact Hb1.
Qed.

(** A saturated bucket with one value boundary, at its midpoint. *)
Definition saturated_bucket : Bucket :=
  mkBucket 100 (replicate 512 0 ++ replicate 512 7)
    (Z.of_nat <$> seq 0 1024)
    (list_to_set (Z.of_nat <$> seq 0 1024)) false.

Lemma saturated_bucket_wf : bucket_wf saturated_bucket.
Proof.
  constructor; cbn [saturated_bucket base_value deltas ids summary_bitmap].
  - unfold is_u32; lia.
  - by_compute.
  - by_compute.
  - unfold MAX_DELTA. by_compute.
  - by_compute.
  - by_compute.
  - reflexivity.
Defined.

Lemma slide_split_spec_witness :
  cut_at (deltas saturated_bucket) 512 512 /\
  exists left_b right_b,
    NumericIndex.slide_split saturated_bucket 512 103 5000
      = Ok (left_b, right_b) /\
    base_value left_b = 100 /\ base_value right_b = 107 /\
    StronglySorted Z.le (deltas left_b) /\
    StronglySorted Z.le (deltas right_b).
Proof.
  destruct (slide_split_spec saturated_bucket 103 5000)
    as (Hcut & l & r & Hs & Hbl & Hbr & _ & _ & _ & Hsl & Hsr & _).
  - exact saturated_bucket_wf.
  - by_compute.
  - unfold is_u32; lia.
  - unfold is_u32; lia.
  - by_compute.
  - simpl; lia.
  - simpl; lia.
  - by_compute.
  - split; [exact Hcut |]. exists l, r.
    split; [exact Hs |]. split; [exact Hbl |]. split; [exact Hbr |].
    split; [exact Hsl | exact Hsr].
Defined.

(** ** The order of keys *)

Definition key_le (a b : string) : Prop := String.leb a b = true.
Definition key_lt (a b : string) : Prop := String.ltb a b = true.

Lemma compare_cons (c1 c2 : ascii) (s1 s2 : string) :
  String.compare (String c1 s1) (String c2 s2)
  = match N.compare (N_of_ascii c1) (N_of_ascii c2) with
    | Eq => String.compare s1 s2
    | Lt => Lt
    | Gt => Gt
    end.
Proof. reflexivity. Qed.

Lemma compare_refl (s : string) : String.compare s s = Eq.
Proof.
  induction s as [|c s IH]; [reflexivity |].
  rewrite compare_cons, N.compare_refl. exact IH.
Qed.

Lemma key_lt_not_le (a b : string) : key_lt a b <-> ~ key_le b a.
Proof.
  unfold key_lt, key_le, String.ltb, String.leb.
  rewrite (String.compare_antisym b a).
  destruct (String.compare a b); simpl; split; intros; congruence.
Qed.

Lemma key_le_not_lt (a b : string) : key_le a b <-> ~ key_lt b a.
Proof.
  unfold key_lt, key_le, String.ltb, String.leb.
  rewrite (String.compare_antisym b a).
  destruct (String.compare a b); simpl; split; intros; congruence.
Qed.

Lemma key_le_refl (a : string) : key_le a a.
Proof. unfold key_le, String.leb. rewrite compare_refl. reflexivity. Qed.

Lemma key_le_antisym (a b : string) : key_le a b -> key_le b a -> a = b.
Proof. apply String.leb_antisym. Qed.

Lemma key_le_total (a b : string) : key_le a b \/ key_le b a.
Proof. apply String.leb_total. Qed.

Lemma key_le_trans (a b c : string) : key_le a b -> key_le b c -> key_le a c.
Proof.
  unfold key_le, String.leb. revert b c.
  induction a as [|x a IH]; intros [|y b] [|z c];
    try solve [simpl; congruence].
  rewrite !compare_cons.
  destruct (N.compare_spec (N_of_ascii x) (N_of_ascii y)) as [Hxy|Hxy|Hxy];
  destruct (N.compare_spec (N_of_ascii y) (N_of_ascii z)) as [Hyz|Hyz|Hyz];
  destruct (N.compare_spec (N_of_ascii x) (N_of_ascii z)) as [Hxz|Hxz|Hxz];
  try congruence; try lia; auto.
  apply IH.
Qed.

Lemma key_lt_le (a b : string) : key_lt a b -> key_le a b.
Proof.
  unfold key_lt, key_le, String.ltb, String.leb.
  destruct (String.compare a b); congruence.
Qed.

Lemma key_lt_irrefl (a : string) : ~ key_lt a a.
Proof. rewrite key_lt_not_le. intros H. apply H, key_le_refl. Qed.

Lemma key_le_lt_trans (a b c : string) : key_le a b -> key_lt b c -> key_lt a c.
Proof.
  rewrite !key_lt_not_le. intros Hab Hbc Hca.
  apply Hbc. eapply key_le_trans; eauto.
Qed.

Lemma key_lt_le_trans (a b c : string) : key_lt a b -> key_le b c -> key_lt a c.
Proof.
  rewrite !key_lt_not_le. intros Hab Hbc Hca.
  apply Hab. eapply key_le_trans; eauto.
Qed.

Lemma key_lt_trans (a b c : string) : key_lt a b -> key_lt b c -> key_lt a c.
Proof. intros Hab Hbc. eapply key_lt_le_trans; eauto using key_lt_le. Qed.

Lemma key_le_lt_or_eq (a b : string) : key_le a b -> key_lt a b \/ a = b.
Proof.
  intros Hab. destruct (String.ltb a b) eqn:E; [left; exact E |].
  right. apply key_le_antisym; [exact Hab |].
  apply key_le_not_lt. unfold key_lt. congruence.
Qed.

Lemma key_lt_or_le (a b : string) : key_lt a b \/ key_le b a.
Proof.
  destruct (String.leb b a) eqn:E; [right; exact E |].
  left. apply key_lt_not_le. unfold key_le. congruence.
Qed.

(** Prefixes. *)
Lemma prefix_nil (k : string) : String.prefix EmptyString k = true.
Proof. destruct k; reflexivity. Qed.

Lemma prefix_cons (a b : ascii) (p k : string) :
  String.prefix (String a p) (String b k)
  = if ascii_dec a b then String.prefix p k else false.
Proof. reflexivity. Qed.

Lemma prefix_app (p s : string) : String.prefix p (p +:+ s) = true.
Proof.
  induction p as [|c p IH]; [apply prefix_nil |].
  change (String c p +:+ s) with (String c (p +:+ s)). rewrite prefix_cons.
  destruct (ascii_dec c c); [exact IH | congruence].
Qed.

Lemma prefix_split (p k : string) :
  String.prefix p k = true -> exists s, k = p +:+ s.
Proof.
  revert k. induction p as [|c p IH]; intros k Hp.
  - exists k. reflexivity.
  - destruct k as [|c' k]; [discriminate |]. rewrite prefix_cons in Hp.
    destruct (ascii_dec c c') as [<- |]; [| discriminate].
    destruct (IH k Hp) as [s ->]. exists s. reflexivity.
Qed.

Lemma compare_app (p a b : string) :
  String.compare (p +:+ a) (p +:+ b) = String.compare a b.
Proof.
  induction p as [|c p IH]; [reflexivity |].
  change (String c p +:+ a) with (String c (p +:+ a)).
  change (String c p +:+ b) with (String c (p +:+ b)).
  rewrite compare_cons, N.compare_refl. exact IH.
Qed.

(** Keys with a common prefix are contiguous in the order of the store. *)
Lemma prefix_between (p k1 k2 k3 : string) :
  String.prefix p k1 = true -> String.prefix p k3 = true ->
  key_le k1 k2 -> key_le k2 k3 -> String.prefix p k2 = true.
Proof.
  unfold key_le, String.leb. revert k1 k2 k3.
  induction p as [|c p IH]; intros k1 k2 k3 H1 H3 H12 H23; [apply prefix_nil |].
  destruct k1 as [|c1 k1]; [discriminate |].
  destruct k3 as [|c3 k3]; [discriminate |].
  rewrite prefix_cons in H1, H3.
  destruct (ascii_dec c c1) as [<- |]; [| discriminate].
  destruct (ascii_dec c c3) as [<- |]; [| discriminate].
  destruct k2 as [|c2 k2]; [simpl in H12; discriminate |].
  rewrite compare_cons in H12, H23. rewrite prefix_cons.
  destruct (ascii_dec c c2) as [<- | Hne].
  - rewrite N.compare_refl in H12, H23. exact (IH k1 k2 k3 H1 H3 H12 H23).
  - exfalso. revert H12 H23.
    rewrite (N.compare_antisym (N_of_ascii c) (N_of_ascii c2)).
    destruct (N.compare_spec (N_of_ascii c) (N_of_ascii c2)) as [Hc|Hc|Hc];
      simpl; try discriminate.
    intros _ _. apply Hne.
    rewrite <- (ascii_N_embedding c), <- (ascii_N_embedding c2). congruence.
Qed.

(** ** Bucket keys *)

(** Field names on which the bucket keys of one field cannot be mistaken
    for those of another: names without the separator. *)
Fixpoint colon_free (s : string) : bool :=
  match s with
  | EmptyString => true
  | String c r => negb (Ascii.eqb c ":") && colon_free r
  end.

Lemma string_app_assoc (a b c : string) : (a +:+ b) +:+ c = a +:+ (b +:+ c).
Proof.
  induction a as [|x a IH]; [reflexivity |].
  change (String x a +:+ b) with (String x (a +:+ b)).
  change (String x (a +:+ b) +:+ c) with (String x ((a +:+ b) +:+ c)).
  change (String x a +:+ (b +:+ c)) with (String x (a +:+ (b +:+ c))).
  by rewrite IH.
Qed.

Lemma string_length_app (a b : string) :
  String.length (a +:+ b) = (String.length a + String.length b)%nat.
Proof.
  induction a as [|x a IH]; [reflexivity |].
  change (String x a +:+ b) with (String x (a +:+ b)).
  cbn [String.length]. by rewrite IH.
Qed.

Lemma substring_skip (p s : string) (n : nat) :
  substring (String.length p) n (p +:+ s) = substring 0 n s.
Proof.
  induction p as [|x p IH]; [reflexivity |].
  change (String x p +:+ s) with (String x (p +:+ s)).
  cbn [String.length substring]. exact IH.
Qed.

Lemma Z_of_char_of_Z (z : Z) : Z_of_char (char_of_Z z) = z mod 256.
Proof.
  unfold Z_of_char, char_of_Z.
  rewrite N_ascii_embedding by lia. lia.
Qed.

Lemma N_of_char_of_Z (z : Z) : N_of_ascii (char_of_Z z) = Z.to_N (z mod 256).
Proof. unfold char_of_Z. apply N_ascii_embedding. lia. Qed.

Lemma be_value_be32 (v : Z) : is_u32 v -> be_value (be32 v) 0 = v.
Proof.
  unfold is_u32, be32. intros Hv. cbn [be_value].
  rewrite !Z_of_char_of_Z. lia.
Qed.

Lemma be32_digits (x : Z) :
  is_u32 x ->
  exists a3 a2 a1 a0,
    (0 <= a3 < 256 /\ 0 <= a2 < 256 /\ 0 <= a1 < 256 /\ 0 <= a0 < 256) /\
    x = a3 * 2^24 + a2 * 2^16 + a1 * 2^8 + a0 /\
    (x / 2^24) mod 256 = a3 /\ (x / 2^16) mod 256 = a2 /\
    (x / 2^8) mod 256 = a1 /\ x mod 256 = a0.
Proof.
  unfold is_u32. intros Hx.
  exists ((x / 2^24) mod 256), ((x / 2^16) mod 256), ((x / 2^8) mod 256),
    (x mod 256).
  repeat split; try reflexivity; lia.
Qed.

Lemma compare_be32 (u v : Z) :
  is_u32 u -> is_u32 v -> String.compare (be32 u) (be32 v) = (u ?= v).
Proof.
  intros Hu Hv. unfold be32.
  rewrite !compare_cons, !N_of_char_of_Z. cbn [String.compare].
  destruct (be32_digits u Hu) as (a3 & a2 & a1 & a0 & Ha & -> & -> & -> & -> & ->).
  destruct (be32_digits v Hv) as (b3 & b2 & b1 & b0 & Hb & -> & -> & -> & -> & ->).
  clear Hu Hv.
  repeat match goal with
  | |- context [ N.compare ?a ?b ] =>
      destruct (N.compare_spec a b)
  end;
  symmetry;
  first [ apply Z.compare_eq_iff | apply Z.compare_lt_iff
        | apply Z.compare_gt_iff ]; lia.
Qed.

Lemma parse_make_bucket_key (field : string) (v : Z) :
  is_u32 v ->
  NumericIndex.parse_bucket_key_val (NumericIndex.make_bucket_key field v) = v.
Proof.
  intros Hv. unfold NumericIndex.parse_bucket_key_val, NumericIndex.make_bucket_key.
  rewrite <- string_app_assoc.
  rewrite (string_length_app (field +:+ ":") (be32 v)).
  change (String.length (be32 v)) with 4%nat.
  destruct (_ <? 4)%nat eqn:E; [zb_hyps; lia |].
  replace (String.length (field +:+ ":") + 4 - 4)%nat
    with (String.length (field +:+ ":")) by lia.
  rewrite substring_skip.
  change (substring 0 4 (be32 v)) with (be32 v).
  apply be_value_be32, Hv.
Qed.

Lemma compare_make_bucket_key (field : string) (u v : Z) :
  is_u32 u -> is_u32 v ->
  String.compare (NumericIndex.make_bucket_key field u)
                 (NumericIndex.make_bucket_key field v) = (u ?= v).
Proof.
  intros Hu Hv. unfold NumericIndex.make_bucket_key.
  rewrite !compare_app. apply compare_be32; assumption.
Qed.

Lemma bucket_key_le (field : string) (u v : Z) :
  is_u32 u -> is_u32 v ->
  key_le (NumericIndex.make_bucket_key field u)
         (NumericIndex.make_bucket_key field v) <-> u <= v.
Proof.
  intros Hu Hv. unfold key_le, String.leb.
  rewrite compare_make_bucket_key by assumption.
  destruct (Z.compare_spec u v); split; intros; try lia; congruence.
Qed.

Lemma bucket_key_lt (field : string) (u v : Z) :
  is_u32 u -> is_u32 v ->
  key_lt (NumericIndex.make_bucket_key field u)
         (NumericIndex.make_bucket_key field v) <-> u < v.
Proof.
  intros Hu Hv. unfold key_lt, String.ltb.
  rewrite compare_make_bucket_key by assumption.
  destruct (Z.compare_spec u v); split; intros; try lia; congruence.
Qed.

Lemma bucket_key_prefix (field : string) (v : Z) :
  has_field_prefix (NumericIndex.make_bucket_key field v) field = true.
Proof.
  unfold has_field_prefix, field_prefix, NumericIndex.make_bucket_key.
  rewrite <- string_app_assoc. apply prefix_app.
Qed.

Lemma bucket_key_prefix_other (f g : string) (v : Z) :
  colon_free f = true -> colon_free g = true -> f <> g ->
  has_field_prefix (NumericIndex.make_bucket_key g v) f = false.
Proof.
  unfold has_field_prefix, field_prefix, NumericIndex.make_bucket_key.
  revert g. induction f as [|c f IH]; intros [|c' g] Hf Hg Hne.
  - congruence.
  - change (String c' g +:+ ":" +:+ be32 v)
      with (String c' (g +:+ ":" +:+ be32 v)).
    change (EmptyString +:+ ":") with (String ":" EmptyString).
    rewrite prefix_cons. cbn [colon_free] in Hg.
    apply andb_true_iff in Hg as [Hc _].
    destruct (ascii_dec ":" c') as [<- |]; [discriminate | reflexivity].
  - change (String c f +:+ ":") with (String c (f +:+ ":")).
    change (EmptyString +:+ ":" +:+ be32 v)
      with (String ":" (be32 v)).
    rewrite prefix_cons. cbn [colon_free] in Hf.
    apply andb_true_iff in Hf as [Hc _].
    destruct (ascii_dec c ":") as [-> |]; [discriminate | reflexivity].
  - change (String c f +:+ ":") with (String c (f +:+ ":")).
    change (String c' g +:+ ":" +:+ be32 v)
      with (String c' (g +:+ ":" +:+ be32 v)).
    rewrite prefix_cons. cbn [colon_free] in Hf, Hg.
    apply andb_true_iff in Hf as [_ Hf]. apply andb_true_iff in Hg as [_ Hg].
    destruct (ascii_dec c c') as [<- |]; [| reflexivity].
    apply IH; [assumption | assumption | congruence].
Qed.

Lemma bucket_key_inj (f g : string) (u v : Z) :
  colon_free f = true -> colon_free g = true -> is_u32 u -> is_u32 v ->
  NumericIndex.make_bucket_key f u = NumericIndex.make_bucket_key g v ->
  f = g /\ u = v.
Proof.
  intros Hf Hg Hu Hv Heq.
  destruct (decide (f = g)) as [-> | Hne].
  - split; [reflexivity |].
    apply (f_equal NumericIndex.parse_bucket_key_val) in Heq.
    rewrite !parse_make_bucket_key in Heq by assumption. exact Heq.
  - pose proof (bucket_key_prefix f u) as H1.
    rewrite Heq, bucket_key_prefix_other in H1 by assumption. discriminate.
Qed.

(** ** Cursor operations *)

Lemma elem_of_kv_keys (m : gmap string (list byte)) (k : string) :
  k ∈ kv_keys m <-> is_Some (m !! k).
Proof.
  unfold kv_keys. rewrite list_elem_of_fmap. split.
  - intros ([k' d] & -> & Hin). apply elem_of_map_to_list in Hin. eauto.
  - intros [d Hd]. exists (k, d). split; [reflexivity |].
    apply elem_of_map_to_list. exact Hd.
Qed.

Lemma least_spec (l : list string) :
  match least l with
  | Some k => k ∈ l /\ forall k', k' ∈ l -> key_le k k'
  | None => l = []
  end.
Proof.
  induction l as [|x l IH]; [reflexivity |].
  cbn [least foldr]. fold (least l). unfold key_min.
  destruct (least l) as [k|].
  - destruct IH as [Hk Hmin].
    destruct (String.leb x k) eqn:E.
    + split; [left |]. intros k' Hk'.
      apply elem_of_cons in Hk' as [-> | Hk']; [apply key_le_refl |].
      eapply key_le_trans; [exact E | auto].
    + split; [right; exact Hk |]. intros k' Hk'.
      apply elem_of_cons in Hk' as [-> | Hk']; [| auto].
      destruct (key_le_total k x) as [H | H]; [exact H |].
      unfold key_le in H. congruence.
  - subst l. split; [left |]. intros k' Hk'.
    apply list_elem_of_singleton in Hk' as ->. apply key_le_refl.
Qed.

Lemma greatest_spec (l : list string) :
  match greatest l with
  | Some k => k ∈ l /\ forall k', k' ∈ l -> key_le k' k
  | None => l = []
  end.
Proof.
  induction l as [|x l IH]; [reflexivity |].
  cbn [greatest foldr]. fold (greatest l). unfold key_max.
  destruct (greatest l) as [k|].
  - destruct IH as [Hk Hmax].
    destruct (String.leb k x) eqn:E.
    + split; [left |]. intros k' Hk'.
      apply elem_of_cons in Hk' as [-> | Hk']; [apply key_le_refl |].
      eapply key_le_trans; [auto | exact E].
    + split; [right; exact Hk |]. intros k' Hk'.
      apply elem_of_cons in Hk' as [-> | Hk']; [| auto].
      destruct (key_le_total k x) as [H | H]; [| exact H].
      unfold key_le in H. congruence.
  - subst l. split; [left |]. intros k' Hk'.
    apply list_elem_of_singleton in Hk' as ->. apply key_le_refl.
Qed.

Lemma entry_at_Some (m : gmap string (list byte)) (ok : option string)
    (k : string) (d : list byte) :
  entry_at m ok = Some (k, d) <-> ok = Some k /\ m !! k = Some d.
Proof.
  unfold entry_at. destruct ok as [k0|]; [| split; [discriminate | intros [? _]; discriminate]].
  destruct (m !! k0) as [d0|] eqn:E; split.
  - intros [= <- <-]. auto.
  - intros [[= <-] Hd]. congruence.
  - discriminate.
  - intros [[= <-] Hd]. congruence.
Qed.

Section CursorSpecs.
Variable m : gmap string (list byte).

Lemma cursor_set_range_Some (k k' : string) (d : list byte) :
  cursor_set_range m k = Some (k', d) ->
  m !! k' = Some d /\ key_le k k' /\
  forall k'', is_Some (m !! k'') -> key_le k k'' -> key_le k' k''.
Proof.
  unfold cursor_set_range. intros H. apply entry_at_Some in H as [Hl Hd].
  pose proof (least_spec (filter (fun x => String.leb k x) (kv_keys m))) as Hs.
  rewrite Hl in Hs. destruct Hs as [Hin Hmin].
  apply list_elem_of_filter in Hin as [Hle _].
  split; [exact Hd |]. split; [apply Is_true_true; exact Hle |].
  intros k'' Hk'' Hle''. apply Hmin, list_elem_of_filter.
  split; [apply Is_true_true; exact Hle'' | apply elem_of_kv_keys; exact Hk''].
Qed.

Lemma cursor_set_range_None (k : string) :
  cursor_set_range m k = None ->
  forall k'', is_Some (m !! k'') -> key_lt k'' k.
Proof.
  unfold cursor_set_range. intros H k'' Hk''.
  pose proof (least_spec (filter (fun x => String.leb k x) (kv_keys m))) as Hs.
  destruct (least _) as [k0|] eqn:El.
  - destruct Hs as [Hin _]. apply list_elem_of_filter in Hin as [_ Hin].
    apply elem_of_kv_keys in Hin as [d Hd].
    cbn [entry_at] in H. rewrite Hd in H. discriminate.
  - apply key_lt_not_le. intros Hle.
    assert (Hin : k'' ∈ filter (fun x => String.leb k x) (kv_keys m)).
    { apply list_elem_of_filter.
      split; [apply Is_true_true; exact Hle | apply elem_of_kv_keys; exact Hk'']. }
    rewrite Hs in Hin. apply elem_of_nil in Hin. exact Hin.
Qed.

Lemma cursor_prev_Some (c k' : string) (d : list byte) :
  cursor_prev m c = Some (k', d) ->
  m !! k' = Some d /\ key_lt k' c /\
  forall k'', is_Some (m !! k'') -> key_lt k'' c -> key_le k'' k'.
Proof.
  unfold cursor_prev. intros H. apply entry_at_Some in H as [Hl Hd].
  pose proof (greatest_spec (filter (fun x => String.ltb x c) (kv_keys m))) as Hs.
  rewrite Hl in Hs. destruct Hs as [Hin Hmax].
  apply list_elem_of_filter in Hin as [Hlt _].
  split; [exact Hd |]. split; [apply Is_true_true; exact Hlt |].
  intros k'' Hk'' Hlt''. apply Hmax, list_elem_of_filter.
  split; [apply Is_true_true; exact Hlt'' | apply elem_of_kv_keys; exact Hk''].
Qed.

Lemma cursor_prev_None (c : string) :
  cursor_prev m c = None ->
  forall k'', is_Some (m !! k'') -> key_le c k''.
Proof.
  unfold cursor_prev. intros H k'' Hk''.
  pose proof (greatest_spec (filter (fun x => String.ltb x c) (kv_keys m))) as Hs.
  destruct (greatest _) as [k0|] eqn:El.
  - destruct Hs as [Hin _]. apply list_elem_of_filter in Hin as [_ Hin].
    apply elem_of_kv_keys in Hin as [d Hd].
    cbn [entry_at] in H. rewrite Hd in H. discriminate.
  - apply key_le_not_lt. intros Hlt.
    assert (Hin : k'' ∈ filter (fun x => String.ltb x c) (kv_keys m)).
    { apply list_elem_of_filter.
      split; [apply Is_true_true; exact Hlt | apply elem_of_kv_keys; exact Hk'']. }
    rewrite Hs in Hin. apply elem_of_nil in Hin. exact Hin.
Qed.

Lemma cursor_next_Some (c k' : string) (d : list byte) :
  cursor_next m c = Some (k', d) ->
  m !! k' = Some d /\ key_lt c k' /\
  forall k'', is_Some (m !! k'') -> key_lt c k'' -> key_le k' k''.
Proof.
  unfold cursor_next. intros H. apply entry_at_Some in H as [Hl Hd].
  pose proof (least_spec (filter (fun x => String.ltb c x) (kv_keys m))) as Hs.
  rewrite Hl in Hs. destruct Hs as [Hin Hmin].
  apply list_elem_of_filter in Hin as [Hlt _].
  split; [exact Hd |]. split; [apply Is_true_true; exact Hlt |].
  intros k'' Hk'' Hlt''. apply Hmin, list_elem_of_filter.
  split; [apply Is_true_true; exact Hlt'' | apply elem_of_kv_keys; exact Hk''].
Qed.

Lemma cursor_next_None (c : string) :
  cursor_next m c = None ->
  forall k'', is_Some (m !! k'') -> key_le k'' c.
Proof.
  unfold cursor_next. intros H k'' Hk''.
  pose proof (least_spec (filter (fun x => String.ltb c x) (kv_keys m))) as Hs.
  destruct (least _) as [k0|] eqn:El.
  - destruct Hs as [Hin _]. apply list_elem_of_filter in Hin as [_ Hin].
    apply elem_of_kv_keys in Hin as [d Hd].
    cbn [entry_at] in H. rewrite Hd in H. discriminate.
  - apply key_le_not_lt. intros Hlt.
    assert (Hin : k'' ∈ filter (fun x => String.ltb c x) (kv_keys m)).
    { apply list_elem_of_filter.
      split; [apply Is_true_true; exact Hlt | apply elem_of_kv_keys; exact Hk'']. }
    rewrite Hs in Hin. apply elem_of_nil in Hin. exact Hin.
Qed.

Lemma cursor_last_Some (k' : string) (d : list byte) :
  cursor_last m = Some (k', d) ->
  m !! k' = Some d /\ forall k'', is_Some (m !! k'') -> key_le k'' k'.
Proof.
  unfold cursor_last. intros H. apply entry_at_Some in H as [Hl Hd].
  pose proof (greatest_spec (kv_keys m)) as Hs.
  rewrite Hl in Hs. destruct Hs as [_ Hmax].
  split; [exact Hd |].
  intros k'' Hk''. apply Hmax, elem_of_kv_keys. exact Hk''.
Qed.

Lemma cursor_last_None :
  cursor_last m = None -> forall k'', m !! k'' = None.
Proof.
  unfold cursor_last. intros H k''.
  pose proof (greatest_spec (kv_keys m)) as Hs.
  destruct (greatest _) as [k0|] eqn:El.
  - destruct Hs as [Hin _]. apply elem_of_kv_keys in Hin as [d Hd].
    cbn [entry_at] in H. rewrite Hd in H. discriminate.
  - destruct (m !! k'') as [d|] eqn:E; [| reflexivity].
    assert (Hin : k'' ∈ kv_keys m) by (apply elem_of_kv_keys; eauto).
    rewrite Hs in Hin. apply elem_of_nil in Hin. destruct Hin.
Qed.

End CursorSpecs.

(** ** The inverted table as a map of buckets *)

(** A bucket as it is read back from the table. *)
Definition clean (b : Bucket) : Bucket :=
  mkBucket (base_value b) (deltas b) (ids b) (summary_bitmap b) false.

(** What holds of every bucket stored under base [base]. *)
Record bucket_ok (base : Z) (b : Bucket) : Prop := mk_bucket_ok {
  ok_wf : bucket_wf b;
  ok_base : base_value b = base;
  ok_clean : is_dirty b = false;
  ok_nonempty : ids b <> [];
  ok_size : Z.of_nat (length (ids b)) <= 65535
}.

Lemma clean_wf (b : Bucket) : bucket_wf b -> bucket_wf (clean b).
Proof. intros [? ? ? ? ? ? ?]. constructor; assumption. Qed.

Lemma clean_entries (b : Bucket) : bucket_entries (clean b) = bucket_entries b.
Proof. reflexivity. Qed.

Lemma clean_ok (base : Z) (b : Bucket) :
  bucket_wf b -> base_value b = base -> ids b <> [] ->
  Z.of_nat (length (ids b)) <= 65535 -> bucket_ok base (clean b).
Proof. intros. constructor; auto using clean_wf. Qed.

Section Repr.
Context `{BitmapCodec}.

Lemma serialize_clean (b : Bucket) :
  Bucket.serialize (clean b) = Bucket.serialize b.
Proof. reflexivity. Qed.

Lemma deserialize_stored (base : Z) (b : Bucket) :
  bucket_ok base b -> Bucket.deserialize (Bucket.serialize b) base = Ok b.
Proof.
  intros [Hwf Hb Hc Hne Hn].
  pose proof (bucket_wf_bitmap_u32 b Hwf) as Hbm.
  rewrite deserialize_serialize.
  - unfold wrap16. rewrite Z.mod_small by lia. rewrite Nat2Z.id.
    rewrite <- (wf_length b Hwf) at 1. rewrite !firstn_all.
    destruct b; cbn in *; subst; reflexivity.
  - apply (wf_length b Hwf).
  - apply bucket_wf_deltas_u16, Hwf.
  - apply (wf_ids b Hwf).
  - exact Hbm.
  - apply bm_size_fits; [exact Hbm |].
    rewrite bucket_wf_bitmap_size by exact Hwf. exact Hn.
Qed.

Lemma serialize_length (b : Bucket) :
  (6 <= length (Bucket.serialize b))%nat.
Proof.
  unfold Bucket.serialize. rewrite !length_app, !length_le_bytes. lia.
Qed.

(** [repr A inv]: the table [inv] holds exactly the buckets of [A], each
    under the key of its field and base and as its serialized payload. *)
Record repr (A : gmap (string * Z) Bucket) (inv : gmap string (list byte))
  : Prop := mk_repr {
  repr_dom : forall f base b,
    A !! (f, base) = Some b ->
    colon_free f = true /\ is_u32 base /\ bucket_ok base b;
  repr_get : forall f base b,
    A !! (f, base) = Some b ->
    inv !! NumericIndex.make_bucket_key f base = Some (Bucket.serialize b);
  repr_key : forall k p,
    inv !! k = Some p ->
    exists f base b,
      k = NumericIndex.make_bucket_key f base /\ A !! (f, base) = Some b
}.

Lemma repr_lookup (A : gmap (string * Z) Bucket) (inv : gmap string (list byte))
    (f : string) (base : Z) :
  repr A inv -> colon_free f = true -> is_u32 base ->
  inv !! NumericIndex.make_bucket_key f base = Bucket.serialize <$> A !! (f, base).
Proof.
  intros HR Hf Hb.
  destruct (A !! (f, base)) as [b|] eqn:EA.
  - cbn. apply (repr_get A inv HR). exact EA.
  - cbn. destruct (inv !! _) as [p|] eqn:Ei; [| reflexivity].
    destruct (repr_key A inv HR _ _ Ei) as (f' & base' & b' & Hk & HA').
    destruct (repr_dom A inv HR _ _ _ HA') as (Hf' & Hb' & _).
    apply bucket_key_inj in Hk as [-> ->]; auto. congruence.
Qed.

Lemma repr_empty : repr ∅ ∅.
Proof.
  constructor.
  - intros f base b Hl. rewrite lookup_empty in Hl. discriminate.
  - intros f base b Hl. rewrite lookup_empty in Hl. discriminate.
  - intros k p Hl. rewrite lookup_empty in Hl. discriminate.
Qed.

Lemma repr_insert (A : gmap (string * Z) Bucket) (inv : gmap string (list byte))
    (f : string) (base : Z) (b : Bucket) :
  repr A inv -> colon_free f = true -> is_u32 base ->
  bucket_wf b -> base_value b = base -> ids b <> [] ->
  Z.of_nat (length (ids b)) <= 65535 ->
  repr (<[(f, base) := clean b]> A)
       (<[NumericIndex.make_bucket_key f base := Bucket.serialize b]> inv).
Proof.
  intros HR Hf Hb Hwf Hbase Hne Hn. constructor.
  - intros f' base' b' Hl.
    destruct (decide ((f, base) = (f', base'))) as [[= <- <-] | Hneq].
    + rewrite lookup_insert_eq in Hl. injection Hl as <-.
      auto using clean_ok.
    + rewrite lookup_insert_ne in Hl by exact Hneq.
      eapply repr_dom; eauto.
  - intros f' base' b' Hl.
    destruct (decide ((f, base) = (f', base'))) as [[= <- <-] | Hneq].
    + rewrite lookup_insert_eq in Hl. injection Hl as <-.
      rewrite lookup_insert_eq, serialize_clean. reflexivity.
    + rewrite lookup_insert_ne in Hl by exact Hneq.
      destruct (repr_dom A inv HR _ _ _ Hl) as (Hf' & Hb' & _).
      rewrite lookup_insert_ne; [eapply repr_get; eauto |].
      intros Hk. apply bucket_key_inj in Hk as [-> ->]; auto.
  - intros k p Hl.
    destruct (decide (NumericIndex.make_bucket_key f base = k)) as [<- | Hneq].
    + exists f, base, (clean b). split; [reflexivity |].
      apply lookup_insert_eq.
    + rewrite lookup_insert_ne in Hl by exact Hneq.
      destruct (repr_key A inv HR _ _ Hl) as (f' & base' & b' & -> & HA').
      exists f', base', b'. split; [reflexivity |].
      rewrite lookup_insert_ne; [exact HA' |]. congruence.
Qed.

Lemma repr_delete (A : gmap (string * Z) Bucket) (inv : gmap string (list byte))
    (f : string) (base : Z) :
  repr A inv -> colon_free f = true -> is_u32 base ->
  repr (delete (f, base) A) (delete (NumericIndex.make_bucket_key f base) inv).
Proof.
  intros HR Hf Hb. constructor.
  - intros f' base' b' Hl. apply lookup_delete_Some in Hl as [_ Hl].
    eapply repr_dom; eauto.
  - intros f' base' b' Hl. apply lookup_delete_Some in Hl as [Hneq Hl].
    destruct (repr_dom A inv HR _ _ _ Hl) as (Hf' & Hb' & _).
    rewrite lookup_delete_ne; [eapply repr_get; eauto |].
    intros Hk. apply bucket_key_inj in Hk as [-> ->]; auto.
  - intros k p Hl. apply lookup_delete_Some in Hl as [Hneq Hl].
    destruct (repr_key A inv HR _ _ Hl) as (f' & base' & b' & -> & HA').
    exists f', base', b'. split; [reflexivity |].
    rewrite lookup_delete_ne; [exact HA' |]. congruence.
Qed.

End Repr.

Section Seek.
Context `{BitmapCodec}.
Variable A : gmap (string * Z) Bucket.
Variable inv : gmap string (list byte).
Hypothesis HR : repr A inv.

Lemma field_key_of_prefix (f k : string) (d : list byte) :
  colon_free f = true -> inv !! k = Some d -> has_field_prefix k f = true ->
  exists base b,
    k = NumericIndex.make_bucket_key f base /\ A !! (f, base) = Some b /\
    d = Bucket.serialize b /\ is_u32 base.
Proof.
  intros Hf Hk Hp.
  destruct (repr_key A inv HR _ _ Hk) as (g & base & b & -> & HA).
  destruct (repr_dom A inv HR _ _ _ HA) as (Hg & Hb & _).
  destruct (decide (f = g)) as [<- | Hne].
  - exists base, b. split; [reflexivity |]. split; [exact HA |].
    split; [| exact Hb].
    pose proof (repr_get A inv HR _ _ _ HA) as Hget. congruence.
  - rewrite bucket_key_prefix_other in Hp by assumption. discriminate.
Qed.

Lemma stored_key_present (f : string) (base : Z) (b : Bucket) :
  A !! (f, base) = Some b ->
  is_Some (inv !! NumericIndex.make_bucket_key f base).
Proof. intros HA. rewrite (repr_get A inv HR _ _ _ HA). eauto. Qed.

(** The cursor walk of [seek_bucket] finds the bucket of the field with the
    greatest base at or below the value, when there is one. *)
Lemma seek_bucket_floor (f : string) (v : Z) :
  colon_free f = true -> is_u32 v ->
  match NumericIndex.seek_bucket inv f v with
  | Some (k, d) =>
      if has_field_prefix k f then
        exists base b,
          k = NumericIndex.make_bucket_key f base /\
          A !! (f, base) = Some b /\ d = Bucket.serialize b /\
          is_u32 base /\ base <= v /\
          forall base' b', A !! (f, base') = Some b' -> base' <= v ->
                           base' <= base
      else forall base' b', A !! (f, base') = Some b' -> v < base'
  | None => forall base' b', A !! (f, base') = Some b' -> v < base'
  end.
Proof.
  intros Hf Hv. unfold NumericIndex.seek_bucket.
  set (kv := NumericIndex.make_bucket_key f v).
  assert (Hkvp : String.prefix (field_prefix f) kv = true)
    by apply bucket_key_prefix.
  assert (Hkey : forall base' b', A !! (f, base') = Some b' ->
            is_u32 base' /\
            is_Some (inv !! NumericIndex.make_bucket_key f base') /\
            String.prefix (field_prefix f)
              (NumericIndex.make_bucket_key f base') = true).
  { intros base' b' HA'.
    destruct (repr_dom A inv HR _ _ _ HA') as (_ & Hb' & _).
    split; [exact Hb' |]. split; [eapply stored_key_present; eauto |].
    apply bucket_key_prefix. }
  destruct (cursor_set_range inv kv) as [[K0 d0]|] eqn:ESR.
  - apply cursor_set_range_Some in ESR as (HK0 & HleK0 & HminK0).
    destruct (negb (has_field_prefix K0 f)
              || (NumericIndex.parse_bucket_key_val K0 >? v)) eqn:Econd.
    + assert (HnoK0 : forall base' b', A !! (f, base') = Some b' ->
                base' <= v ->
                key_lt (NumericIndex.make_bucket_key f base') K0).
      { intros base' b' HA' Hle'.
        destruct (Hkey _ _ HA') as (Hb' & _ & _).
        assert (Hle0 : key_le (NumericIndex.make_bucket_key f base') K0).
        { eapply key_le_trans; [| exact HleK0].
          apply bucket_key_le; assumption. }
        destruct (key_le_lt_or_eq _ _ Hle0) as [Hlt | Heq]; [exact Hlt |].
        exfalso. subst K0.
        rewrite bucket_key_prefix, parse_make_bucket_key in Econd by exact Hb'.
        cbn in Econd. zlia. }
      destruct (cursor_prev inv K0) as [[P dP]|] eqn:EP.
      * apply cursor_prev_Some in EP as (HP & HltP & HmaxP).
        assert (HPlt : key_lt P kv).
        { apply key_lt_not_le. intros Hle.
          apply (key_lt_irrefl P). eapply key_lt_le_trans; [exact HltP |].
          apply HminK0; eauto. }
        destruct (has_field_prefix P f) eqn:EPf.
        -- destruct (field_key_of_prefix f P dP Hf HP EPf)
             as (bP & b & -> & HA & -> & HbP).
           exists bP, b. split; [reflexivity |]. split; [exact HA |].
           split; [reflexivity |]. split; [exact HbP |].
           apply bucket_key_lt in HPlt; [| exact HbP | exact Hv].
           split; [lia |].
           intros base' b' HA' Hle'.
           destruct (Hkey _ _ HA') as (Hb' & Hin' & _).
           apply (bucket_key_le f); [exact Hb' | exact HbP |].
           apply HmaxP; [exact Hin' | eapply HnoK0; eauto].
        -- intros base' b' HA'.
           destruct (Z_lt_le_dec v base') as [Hlt | Hle']; [exact Hlt |].
           exfalso. destruct (Hkey _ _ HA') as (Hb' & Hin' & Hp').
           assert (HPp : String.prefix (field_prefix f) P = true).
           { eapply prefix_between; [exact Hp' | exact Hkvp | | ].
             - apply HmaxP; [exact Hin' | eapply HnoK0; eauto].
             - apply key_lt_le, HPlt. }
           unfold has_field_prefix in EPf. congruence.
      * intros base' b' HA'.
        destruct (Z_lt_le_dec v base') as [Hlt | Hle']; [exact Hlt |].
        exfalso. destruct (Hkey _ _ HA') as (Hb' & Hin' & _).
        apply (key_lt_irrefl K0). eapply key_le_lt_trans.
        -- eapply cursor_prev_None; [exact EP | exact Hin'].
        -- eapply HnoK0; eauto.
    + apply orb_false_iff in Econd as [Ep Eparse].
      apply negb_false_iff in Ep. rewrite Ep.
      destruct (field_key_of_prefix f K0 d0 Hf HK0 Ep)
        as (b0 & b & -> & HA & -> & Hb0).
      rewrite parse_make_bucket_key in Eparse by exact Hb0.
      apply bucket_key_le in HleK0; [| exact Hv | exact Hb0].
      exists b0, b. split; [reflexivity |]. split; [exact HA |].
      split; [reflexivity |]. split; [exact Hb0 |].
      split; [zlia |]. intros base' b' _ Hle'. lia.
  - pose proof (cursor_set_range_None inv kv ESR) as Hall.
    destruct (cursor_last inv) as [[L dL]|] eqn:EL.
    + apply cursor_last_Some in EL as (HL & HmaxL).
      assert (HLlt : key_lt L kv) by (apply Hall; eauto).
      destruct (has_field_prefix L f) eqn:ELf.
      * destruct (field_key_of_prefix f L dL Hf HL ELf)
          as (bL & b & -> & HA & -> & HbL).
        exists bL, b. split; [reflexivity |]. split; [exact HA |].
        split; [reflexivity |]. split; [exact HbL |].
        apply bucket_key_lt in HLlt; [| exact HbL | exact Hv].
        split; [lia |].
        intros base' b' HA' _.
        destruct (Hkey _ _ HA') as (Hb' & Hin' & _).
        apply (bucket_key_le f); [exact Hb' | exact HbL |].
        apply HmaxL. exact Hin'.
      * intros base' b' HA'. exfalso.
        destruct (Hkey _ _ HA') as (Hb' & Hin' & Hp').
        assert (HLp : String.prefix (field_prefix f) L = true).
        { eapply prefix_between; [exact Hp' | exact Hkvp | | ].
          - apply HmaxL. exact Hin'.
          - apply key_lt_le, HLlt. }
        unfold has_field_prefix in ELf. congruence.
    + intros base' b' HA'. exfalso.
      destruct (Hkey _ _ HA') as (_ & [d Hin'] & _).
      rewrite (cursor_last_None inv EL) in Hin'. discriminate.
Qed.

End Seek.

(** ** Entries and the forward index *)

Lemma bucket_entry_lookup (b : Bucket) (v id : Z) :
  (v, id) ∈ bucket_entries b ->
  exists i d, deltas b !! i = Some d /\ ids b !! i = Some id /\
              v = base_value b + d.
Proof.
  intros Hin. apply list_elem_of_lookup in Hin as [i Hi].
  unfold bucket_entries in Hi.
  apply lookup_zip_with_Some in Hi as (x & y & Heq & Hx & Hy).
  injection Heq as -> ->.
  rewrite list_lookup_fmap in Hx.
  destruct (deltas b !! i) as [d|] eqn:Ed; [| discriminate].
  injection Hx as <-. exists i, d. auto.
Qed.

Lemma bucket_entry_facts (b : Bucket) (v id : Z) :
  bucket_wf b -> (v, id) ∈ bucket_entries b ->
  base_value b <= v /\ v - base_value b <= MAX_DELTA /\
  is_u32 v /\ is_u32 id /\ id ∈ ids b.
Proof.
  intros Hwf Hin.
  destruct (bucket_entry_lookup b v id Hin) as (i & d & Hd & Hi & ->).
  pose proof (wf_deltas b Hwf) as Hds. rewrite Forall_forall in Hds.
  pose proof (wf_ids b Hwf) as His. rewrite Forall_forall in His.
  pose proof (wf_base b Hwf) as Hb.
  specialize (Hds d (list_elem_of_lookup_2 _ _ _ Hd)).
  specialize (His id (list_elem_of_lookup_2 _ _ _ Hi)).
  unfold is_u32, MAX_DELTA in *.
  repeat split; try lia. eapply list_elem_of_lookup_2; eauto.
Qed.

Lemma bucket_entry_unique (b : Bucket) (v v' id : Z) :
  bucket_wf b -> (v, id) ∈ bucket_entries b -> (v', id) ∈ bucket_entries b ->
  v = v'.
Proof.
  intros Hwf H1 H2.
  destruct (bucket_entry_lookup b v id H1) as (i & d & Hd & Hi & ->).
  destruct (bucket_entry_lookup b v' id H2) as (j & d' & Hd' & Hj & ->).
  assert (i = j) as <-
    by exact (NoDup_lookup _ _ _ _ (wf_unique b Hwf) Hi Hj).
  congruence.
Qed.

Lemma bucket_id_entry (b : Bucket) (id : Z) :
  length (deltas b) = length (ids b) -> id ∈ ids b ->
  exists v, (v, id) ∈ bucket_entries b.
Proof.
  intros Hlen Hin. apply list_elem_of_lookup in Hin as [i Hi].
  assert (Hlt : (i < length (ids b))%nat) by (eapply lookup_lt_Some; eauto).
  exists (base_value b + deltas b !!! i).
  apply list_elem_of_lookup. exists i.
  rewrite bucket_entries_lookup by lia.
  rewrite (list_lookup_total_correct _ _ _ Hi). reflexivity.
Qed.

(** [has_entry A f v id]: some bucket of field [f] holds [id] with value [v]. *)
Definition has_entry (A : gmap (string * Z) Bucket) (f : string) (v id : Z)
  : Prop :=
  exists base b, A !! (f, base) = Some b /\ (v, id) ∈ bucket_entries b.

(** Entries of a bucket lie below every later base of the same field. *)
Definition ordered (A : gmap (string * Z) Bucket) : Prop :=
  forall f base base' b b' v id,
    A !! (f, base) = Some b -> A !! (f, base') = Some b' -> base < base' ->
    (v, id) ∈ bucket_entries b -> v < base'.

(** The buckets hold exactly what the forward function [F] records. *)
Record index_inv (F : string -> Z -> option Z)
    (A : gmap (string * Z) Bucket) : Prop := mk_index_inv {
  inv_entries : forall f v id, has_entry A f v id <-> F f id = Some v;
  inv_ordered : ordered A
}.

Definition fwd_update (F : string -> Z -> option Z) (f : string) (id : Z)
    (x : option Z) : string -> Z -> option Z :=
  fun f' id' => if decide (f' = f /\ id' = id) then x else F f' id'.

Lemma index_inv_extend F A A' f v id :
  index_inv F A -> F f id = None ->
  (forall f' v' id',
     has_entry A' f' v' id'
     <-> has_entry A f' v' id' \/ (f' = f /\ v' = v /\ id' = id)) ->
  ordered A' ->
  index_inv (fwd_update F f id (Some v)) A'.
Proof.
  intros [HE HO] Hnone HE' HO'. constructor; [| exact HO'].
  intros f' v' id'. rewrite HE', HE. unfold fwd_update.
  destruct (decide (f' = f /\ id' = id)) as [[-> ->] | Hne].
  - rewrite Hnone. split.
    + intros [? | (_ & -> & _)]; [discriminate | reflexivity].
    + intros [= ->]. right. auto.
  - split; [| auto]. intros [? | (-> & _ & ->)]; [assumption |].
    exfalso. apply Hne. auto.
Qed.

Lemma index_inv_restrict F A A' f v id :
  index_inv F A -> F f id = Some v ->
  (forall f' v' id',
     has_entry A' f' v' id'
     <-> has_entry A f' v' id' /\ ~ (f' = f /\ id' = id)) ->
  ordered A' ->
  index_inv (fwd_update F f id None) A'.
Proof.
  intros [HE HO] Hsome HE' HO'. constructor; [| exact HO'].
  intros f' v' id'. rewrite HE', HE. unfold fwd_update.
  destruct (decide (f' = f /\ id' = id)) as [[-> ->] | Hne].
  - split; [intros [_ Hn]; exfalso; apply Hn; auto | discriminate].
  - split; [intros [? _]; assumption | auto].
Qed.

(** In a well-formed index the bucket that holds a value is the one with
    the greatest base at or below it. *)
Lemma entry_bucket_is_floor F A inv `{BitmapCodec} f base b v id :
  repr A inv -> index_inv F A ->
  A !! (f, base) = Some b -> (v, id) ∈ bucket_entries b ->
  base <= v /\
  forall base' b', A !! (f, base') = Some b' -> base' <= v -> base' <= base.
Proof.
  intros HR [HE HO] HA Hin.
  destruct (repr_dom A inv HR _ _ _ HA) as (_ & _ & [Hwf Hb _ _ _]).
  destruct (bucket_entry_facts b v id Hwf Hin) as (Hle & _).
  split; [lia |]. intros base' b' HA' Hle'.
  destruct (Z_lt_le_dec base base') as [Hlt | ?]; [| lia].
  pose proof (HO _ _ _ _ _ _ _ HA HA' Hlt Hin). lia.
Qed.

Section IndexSteps.
Context `{BitmapCodec}.

Lemma entry_bucket_unique F A inv f base1 base2 b1 b2 v1 v2 id :
  repr A inv -> index_inv F A ->
  A !! (f, base1) = Some b1 -> (v1, id) ∈ bucket_entries b1 ->
  A !! (f, base2) = Some b2 -> (v2, id) ∈ bucket_entries b2 ->
  base1 = base2 /\ v1 = v2.
Proof.
  intros HR HI HA1 Hin1 HA2 Hin2.
  assert (Hv : v1 = v2).
  { assert (H1 : F f id = Some v1)
      by (apply (inv_entries F A HI); exists base1, b1; auto).
    assert (H2 : F f id = Some v2)
      by (apply (inv_entries F A HI); exists base2, b2; auto).
    congruence. }
  subst v2. split; [| reflexivity].
  destruct (entry_bucket_is_floor F A inv f base1 b1 v1 id HR HI HA1 Hin1)
    as [Hle1 Hfl1].
  destruct (entry_bucket_is_floor F A inv f base2 b2 v1 id HR HI HA2 Hin2)
    as [Hle2 Hfl2].
  pose proof (Hfl1 _ _ HA2 Hle2). pose proof (Hfl2 _ _ HA1 Hle1). lia.
Qed.

Lemma ordered_sub (A A' : gmap (string * Z) Bucket) :
  ordered A ->
  (forall f base b', A' !! (f, base) = Some b' ->
     exists b, A !! (f, base) = Some b /\
               forall e, e ∈ bucket_entries b' -> e ∈ bucket_entries b) ->
  ordered A'.
Proof.
  intros HO Hsub f base base' b b' v id HA HA' Hlt Hin.
  destruct (Hsub _ _ _ HA) as (b0 & HA0 & Hsub0).
  destruct (Hsub _ _ _ HA') as (b0' & HA0' & _).
  exact (HO f base base' b0 b0' v id HA0 HA0' Hlt (Hsub0 _ Hin)).
Qed.

(** [remove_from_buckets] succeeds on an id the forward function records,
    and takes exactly that entry out of the buckets. *)
Lemma remove_from_buckets_ok F A inv f v id :
  repr A inv -> index_inv F A -> colon_free f = true ->
  F f id = Some v ->
  exists A' inv',
    NumericIndex.remove_from_buckets inv f v id = Ok inv' /\
    repr A' inv' /\
    index_inv (fwd_update F f id None) A' /\
    (forall f' base' b', A' !! (f', base') = Some b' ->
       exists b0, A !! (f', base') = Some b0 /\
                  (length (ids b') <= length (ids b0))%nat).
Proof.
  intros HR HI Hf HF.
  pose proof HF as HF0.
  apply (inv_entries F A HI) in HF as (base & b & HA & Hin).
  destruct (repr_dom A inv HR _ _ _ HA) as (_ & Hbase & Hok).
  pose proof Hok as [Hwf Hbv Hcl Hne Hsz].
  destruct (bucket_entry_facts b v id Hwf Hin) as (Hle & Hmax & Hv & Hid & Hidin).
  destruct (entry_bucket_is_floor F A inv f base b v id HR HI HA Hin)
    as [_ Hfloor].
  unfold NumericIndex.remove_from_buckets.
  pose proof (seek_bucket_floor A inv HR f v Hf Hv) as Hseek.
  destruct (NumericIndex.seek_bucket inv f v) as [[k d]|];
    [destruct (has_field_prefix k f) eqn:Ep |];
    try (specialize (Hseek _ _ HA); lia).
  destruct Hseek as (base0 & b0 & -> & HA0 & -> & Hb0 & Hle0 & Hfloor0).
  assert (base0 = base) as ->.
  { pose proof (Hfloor _ _ HA0 Hle0). pose proof (Hfloor0 _ _ HA ltac:(lia)). lia. }
  assert (b0 = b) as -> by congruence. clear HA0.
  rewrite parse_make_bucket_key by exact Hbase.
  destruct (v >=? base) eqn:Ege; [| zlia].
  rewrite (deserialize_stored base b Hok). cbn [rbind].
  destruct (bucket_remove_wf b id Hwf Hidin)
    as (b' & v0 & Hrem & Hwf' & Hb' & Hperm & Hnot & Hlen').
  rewrite Hrem.
  assert (v0 = v) as ->.
  { eapply (bucket_entry_unique b); [exact Hwf | | exact Hin].
    rewrite Hperm. left. }
  (* common facts about the entries of every other bucket *)
  assert (Hother : forall f' base'' b'' v' id',
            A !! (f', base'') = Some b'' -> (v', id') ∈ bucket_entries b'' ->
            (f', base'') <> (f, base) -> ~ (f' = f /\ id' = id)).
  { intros f' base'' b'' v' id' HA'' Hin'' Hneq [-> ->].
    destruct (entry_bucket_unique F A inv f base base'' b b'' v v' id
                HR HI HA Hin HA'' Hin'') as [<- _].
    congruence. }
  destruct (Bucket.is_empty b') eqn:Eempty.
  - (* the bucket becomes empty: its key is deleted *)
    assert (Hb'nil : bucket_entries b' = []).
    { unfold Bucket.is_empty in Eempty.
      destruct (ids b') eqn:Ei; [| discriminate].
      unfold bucket_entries. rewrite Ei. apply zip_with_nil_r. }
    rewrite Hb'nil in Hperm.
    exists (delete (f, base) A), (delete (NumericIndex.make_bucket_key f base) inv).
    split; [reflexivity |]. split; [apply repr_delete; assumption |].
    split; [| intros f' base' b'' Hl;
              apply lookup_delete_Some in Hl as [_ Hl]; eauto].
    apply (index_inv_restrict F A _ f v id HI HF0).
    + intros f' v' id'. split.
      * intros (base'' & b'' & Hl & Hin'').
        apply lookup_delete_Some in Hl as [Hneq Hl].
        split; [exists base'', b''; auto |].
        eapply Hother; eauto.
      * intros [(base'' & b'' & Hl & Hin'') Hn].
        exists base'', b''. split; [| exact Hin''].
        apply lookup_delete_Some. split; [| exact Hl].
        intros [= -> ->]. assert (b'' = b) as -> by congruence.
        rewrite Hperm in Hin''. apply list_elem_of_singleton in Hin''.
        injection Hin'' as -> ->. apply Hn. auto.
    + eapply ordered_sub; [apply (inv_ordered F A HI) |].
      intros f' base' b'' Hl. apply lookup_delete_Some in Hl as [_ Hl].
      exists b''. auto.
  - (* the bucket is written back without the entry *)
    assert (Hne' : ids b' <> []).
    { unfold Bucket.is_empty in Eempty. destruct (ids b'); congruence. }
    exists (<[(f, base) := clean b']> A),
      (<[NumericIndex.make_bucket_key f base := Bucket.serialize b']> inv).
    split; [reflexivity |].
    split; [apply repr_insert; auto; lia |].
    split.
    + apply (index_inv_restrict F A _ f v id HI HF0).
      * intros f' v' id'. split.
        -- intros (base'' & b'' & Hl & Hin'').
           destruct (decide ((f, base) = (f', base''))) as [[= <- <-] | Hneq].
           ++ rewrite lookup_insert_eq in Hl. injection Hl as <-.
              rewrite clean_entries in Hin''.
              split.
              ** exists base, b. split; [exact HA |].
                 rewrite Hperm. right. exact Hin''.
              ** intros [_ ->]. apply Hnot.
                 apply (bucket_entry_facts b' v' id Hwf' Hin'').
           ++ rewrite lookup_insert_ne in Hl by exact Hneq.
              split; [exists base'', b''; auto |].
              eapply Hother; eauto.
        -- intros [(base'' & b'' & Hl & Hin'') Hn].
           destruct (decide ((f, base) = (f', base''))) as [[= <- <-] | Hneq].
           ++ assert (b'' = b) as -> by congruence.
              rewrite Hperm in Hin''.
              apply elem_of_cons in Hin'' as [[= -> ->] | Hin''].
              ** exfalso. apply Hn. auto.
              ** exists base, (clean b'). rewrite lookup_insert_eq. auto.
           ++ exists base'', b''. rewrite lookup_insert_ne by exact Hneq. auto.
      * eapply ordered_sub; [apply (inv_ordered F A HI) |].
        intros f' base' b'' Hl.
        destruct (decide ((f, base) = (f', base'))) as [[= <- <-] | Hneq].
        -- rewrite lookup_insert_eq in Hl. injection Hl as <-.
           exists b. split; [exact HA |]. intros e He.
           rewrite clean_entries in He. rewrite Hperm. right. exact He.
        -- rewrite lookup_insert_ne in Hl by exact Hneq. exists b''. auto.
    + intros f' base' b'' Hl.
      destruct (decide ((f, base) = (f', base'))) as [[= <- <-] | Hneq].
      * rewrite lookup_insert_eq in Hl. injection Hl as <-.
        exists b. split; [exact HA |]. cbn [clean ids]. lia.
      * rewrite lookup_insert_ne in Hl by exact Hneq. exists b''. auto.
Qed.

End IndexSteps.

(** ** Abstract effect of an insertion on the bucket map *)

Section InsertSteps.
Variable F : string -> Z -> option Z.
Variable A : gmap (string * Z) Bucket.
Hypothesis HI : index_inv F A.
Variables (f : string) (v id : Z).
Hypothesis Hnone : F f id = None.

(** A new bucket holding only the new entry. *)
Lemma index_inv_create (b1 : Bucket) :
  A !! (f, v) = None ->
  (forall e, e ∈ bucket_entries b1 <-> e = (v, id)) ->
  (forall base' b' v' id',
     A !! (f, base') = Some b' -> base' < v ->
     (v', id') ∈ bucket_entries b' -> v' < v) ->
  index_inv (fwd_update F f id (Some v)) (<[(f, v) := b1]> A).
Proof.
  intros Hfree Hb1 Hbelow. apply (index_inv_extend F A _ f v id HI Hnone).
  - intros f' v' id'. split.
    + intros (base' & b' & Hl & Hin).
      destruct (decide ((f, v) = (f', base'))) as [[= <- <-] | Hneq].
      * rewrite lookup_insert_eq in Hl. injection Hl as <-.
        apply Hb1 in Hin. injection Hin as -> ->. right. auto.
      * rewrite lookup_insert_ne in Hl by exact Hneq.
        left. exists base', b'. auto.
    + intros [(base' & b' & Hl & Hin) | (-> & -> & ->)].
      * exists base', b'. split; [| exact Hin].
        rewrite lookup_insert_ne; [exact Hl | congruence].
      * exists v, b1. rewrite lookup_insert_eq. split; [reflexivity |].
        apply Hb1. reflexivity.
  - intros g base1 base2 b b' v' id' Hl1 Hl2 Hlt Hin.
    destruct (decide ((f, v) = (g, base1))) as [[= <- <-] | Hneq1].
    + rewrite lookup_insert_eq in Hl1. injection Hl1 as <-.
      apply Hb1 in Hin. injection Hin as -> ->. exact Hlt.
    + rewrite lookup_insert_ne in Hl1 by exact Hneq1.
      destruct (decide ((f, v) = (g, base2))) as [[= <- <-] | Hneq2].
      * exact (Hbelow _ _ _ _ Hl1 Hlt Hin).
      * rewrite lookup_insert_ne in Hl2 by exact Hneq2.
        exact (inv_ordered F A HI _ _ _ _ _ _ _ Hl1 Hl2 Hlt Hin).
Qed.

(** The covering bucket with the new entry added. *)
Lemma index_inv_replace (base0 : Z) (b0 b1 : Bucket) :
  A !! (f, base0) = Some b0 ->
  bucket_entries b1 ≡ₚ (v, id) :: bucket_entries b0 ->
  (forall base' b', A !! (f, base') = Some b' -> base' <= v -> base' <= base0) ->
  index_inv (fwd_update F f id (Some v)) (<[(f, base0) := b1]> A).
Proof.
  intros HA0 Hperm Hfloor. apply (index_inv_extend F A _ f v id HI Hnone).
  - intros f' v' id'. split.
    + intros (base' & b' & Hl & Hin).
      destruct (decide ((f, base0) = (f', base'))) as [[= <- <-] | Hneq].
      * rewrite lookup_insert_eq in Hl. injection Hl as <-.
        rewrite Hperm in Hin. apply elem_of_cons in Hin as [[= -> ->] | Hin].
        -- right. auto.
        -- left. exists base0, b0. auto.
      * rewrite lookup_insert_ne in Hl by exact Hneq.
        left. exists base', b'. auto.
    + intros [(base' & b' & Hl & Hin) | (-> & -> & ->)].
      * destruct (decide ((f, base0) = (f', base'))) as [[= <- <-] | Hneq].
        -- exists base0, b1. rewrite lookup_insert_eq. split; [reflexivity |].
           rewrite Hperm. right. congruence.
        -- exists base', b'. rewrite lookup_insert_ne by exact Hneq. auto.
      * exists base0, b1. rewrite lookup_insert_eq. split; [reflexivity |].
        rewrite Hperm. left.
  - intros g base1 base2 b b' v' id' Hl1 Hl2 Hlt Hin.
    assert (Hkey2 : exists b2, A !! (g, base2) = Some b2).
    { destruct (decide ((f, base0) = (g, base2))) as [[= <- <-] | Hneq2].
      - eauto.
      - rewrite lookup_insert_ne in Hl2 by exact Hneq2. eauto. }
    destruct Hkey2 as [b2 HA2].
    destruct (decide ((f, base0) = (g, base1))) as [[= <- <-] | Hneq1].
    + rewrite lookup_insert_eq in Hl1. injection Hl1 as <-.
      rewrite Hperm in Hin. apply elem_of_cons in Hin as [[= -> ->] | Hin].
      * destruct (Z_lt_le_dec v base2) as [? | Hle]; [assumption |].
        pose proof (Hfloor _ _ HA2 Hle). lia.
      * exact (inv_ordered F A HI _ _ _ _ _ _ _ HA0 HA2 Hlt Hin).
    + rewrite lookup_insert_ne in Hl1 by exact Hneq1.
      exact (inv_ordered F A HI _ _ _ _ _ _ _ Hl1 HA2 Hlt Hin).
Qed.

(** The covering bucket split in two, the new entry in one of the halves. *)
Lemma index_inv_split (base0 rb : Z) (b0 l r : Bucket) (idk : Z) :
  A !! (f, base0) = Some b0 ->
  base0 < rb ->
  (rb, idk) ∈ bucket_entries b0 ->
  bucket_entries l ++ bucket_entries r ≡ₚ (v, id) :: bucket_entries b0 ->
  Forall (fun e => e.1 < rb) (bucket_entries l) ->
  (forall base' b', A !! (f, base') = Some b' -> base' <= v -> base' <= base0) ->
  A !! (f, rb) = None /\
  index_inv (fwd_update F f id (Some v))
    (<[(f, rb) := r]> (<[(f, base0) := l]> A)).
Proof.
  intros HA0 Hlt0 Hk Hperm Hleft Hfloor.
  pose proof (inv_ordered F A HI) as HO.
  assert (Hfree : A !! (f, rb) = None).
  { destruct (A !! (f, rb)) as [b'|] eqn:E; [| reflexivity].
    pose proof (HO _ _ _ _ _ _ _ HA0 E Hlt0 Hk). lia. }
  split; [exact Hfree |].
  assert (Hneq0 : (f, rb) <> (f, base0)) by (intros [= ->]; lia).
  assert (Hmid : forall base' b', A !! (f, base') = Some b' ->
            base0 < base' -> rb < base').
  { intros base' b' HA' Hlt'. exact (HO _ _ _ _ _ _ _ HA0 HA' Hlt' Hk). }
  rewrite Forall_forall in Hleft.
  apply (index_inv_extend F A _ f v id HI Hnone).
  - intros f' v' id'. split.
    + intros (base' & b' & Hl & Hin).
      destruct (decide ((f, rb) = (f', base'))) as [[= <- <-] | Hneq].
      * rewrite lookup_insert_eq in Hl. injection Hl as <-.
        assert (Hin' : (v', id') ∈ (v, id) :: bucket_entries b0)
          by (rewrite <- Hperm; apply elem_of_app; auto).
        apply elem_of_cons in Hin' as [[= -> ->] | Hin']; [right; auto |].
        left. exists base0, b0. auto.
      * rewrite lookup_insert_ne in Hl by exact Hneq.
        destruct (decide ((f, base0) = (f', base'))) as [[= <- <-] | Hneq'].
        -- rewrite lookup_insert_eq in Hl. injection Hl as <-.
           assert (Hin' : (v', id') ∈ (v, id) :: bucket_entries b0)
             by (rewrite <- Hperm; apply elem_of_app; auto).
           apply elem_of_cons in Hin' as [[= -> ->] | Hin']; [right; auto |].
           left. exists base0, b0. auto.
        -- rewrite lookup_insert_ne in Hl by exact Hneq'.
           left. exists base', b'. auto.
    + intros Hcase.
      assert (Hnew : forall e, e ∈ (v, id) :: bucket_entries b0 ->
                exists base' b',
                  <[(f, rb) := r]> (<[(f, base0) := l]> A) !! (f, base')
                    = Some b' /\ e ∈ bucket_entries b').
      { intros e He. rewrite <- Hperm in He.
        apply elem_of_app in He as [He | He].
        - exists base0, l. rewrite lookup_insert_ne by exact Hneq0.
          rewrite lookup_insert_eq. auto.
        - exists rb, r. rewrite lookup_insert_eq. auto. }
      destruct Hcase as [(base' & b' & Hl & Hin) | (-> & -> & ->)].
      * destruct (decide ((f, base0) = (f', base'))) as [[= <- <-] | Hneq'].
        -- assert (b' = b0) as -> by congruence.
           apply Hnew. right. exact Hin.
        -- exists base', b'. split; [| exact Hin].
           rewrite lookup_insert_ne by (intros [= <- <-]; congruence).
           rewrite lookup_insert_ne by exact Hneq'. exact Hl.
      * apply Hnew. left.
  - intros g base1 base2 b b' v' id' Hl1 Hl2 Hlt Hin.
    destruct (decide (g = f)) as [-> | Hg].
    2: { rewrite !lookup_insert_ne in Hl1, Hl2 by congruence.
         exact (HO _ _ _ _ _ _ _ Hl1 Hl2 Hlt Hin). }
    (* the entry is the new one or an old entry of [b0], when it sits in a half *)
    assert (Hhalf : base1 = base0 \/ base1 = rb ->
              (v', id') = (v, id) \/ (v', id') ∈ bucket_entries b0).
    { intros Hb1.
      assert (Hin' : (v', id') ∈ (v, id) :: bucket_entries b0).
      { rewrite <- Hperm. apply elem_of_app.
        destruct Hb1 as [-> | ->].
        - left. rewrite lookup_insert_ne in Hl1 by exact Hneq0.
          rewrite lookup_insert_eq in Hl1. congruence.
        - right. rewrite lookup_insert_eq in Hl1. congruence. }
      apply elem_of_cons in Hin'. exact Hin'. }
    (* the later key is the right half or an old key *)
    destruct (decide (base2 = rb)) as [-> | Hb2].
    + (* later key: the right half *)
      destruct (decide (base1 = base0)) as [-> | Hb1].
      * rewrite lookup_insert_ne in Hl1 by exact Hneq0.
        rewrite lookup_insert_eq in Hl1. injection Hl1 as <-.
        apply (Hleft _ Hin).
      * rewrite lookup_insert_ne in Hl1 by (intros [= ->]; lia).
        rewrite lookup_insert_ne in Hl1 by congruence.
        destruct (Z_lt_le_dec base1 base0) as [Hlt1 | Hge1].
        -- pose proof (HO _ _ _ _ _ _ _ Hl1 HA0 Hlt1 Hin). lia.
        -- pose proof (Hmid _ _ Hl1 ltac:(lia)). lia.
    + rewrite lookup_insert_ne in Hl2 by congruence.
      assert (Hold2 : exists b2, A !! (f, base2) = Some b2).
      { destruct (decide (base2 = base0)) as [-> | Hb20]; [eauto |].
        rewrite lookup_insert_ne in Hl2 by congruence. eauto. }
      destruct Hold2 as [b2 HA2].
      assert (Hnewlt : base0 < base2 -> v < base2).
      { intros Hgt. destruct (Z_lt_le_dec v base2) as [? | Hle]; [assumption |].
        pose proof (Hfloor _ _ HA2 Hle). lia. }
      destruct (decide (base1 = base0)) as [-> | Hb1].
      * destruct (Hhalf ltac:(auto)) as [[= -> ->] | Hold].
        -- apply Hnewlt. lia.
        -- exact (HO _ _ _ _ _ _ _ HA0 HA2 Hlt Hold).
      * destruct (decide (base1 = rb)) as [-> | Hb1r].
        -- destruct (Hhalf ltac:(auto)) as [[= -> ->] | Hold].
           ++ apply Hnewlt. lia.
           ++ exact (HO _ _ _ _ _ _ _ HA0 HA2 ltac:(lia) Hold).
        -- rewrite !lookup_insert_ne in Hl1 by congruence.
           exact (HO _ _ _ _ _ _ _ Hl1 HA2 Hlt Hin).
Qed.

End InsertSteps.

Section AddSteps.
Context `{BitmapCodec}.
Variable F : string -> Z -> option Z.
Variable A : gmap (string * Z) Bucket.
Variable inv : gmap string (list byte).
Hypothesis HR : repr A inv.
Hypothesis HI : index_inv F A.
Variables (f : string) (v id : Z).
Hypothesis Hf : colon_free f = true.
Hypothesis Hv : is_u32 v.
Hypothesis Hid : is_u32 id.
Hypothesis Hnone : F f id = None.

Lemma fresh_id_not_in_bucket (base : Z) (b : Bucket) :
  A !! (f, base) = Some b -> id ∉ ids b.
Proof.
  intros HA Hin.
  destruct (repr_dom A inv HR _ _ _ HA) as (_ & _ & [Hwf _ _ _ _]).
  destruct (bucket_id_entry b id (wf_length b Hwf) Hin) as [v' Hv'].
  assert (HF : F f id = Some v')
    by (apply (inv_entries F A HI); exists base, b; auto).
  congruence.
Qed.

(** "Create new bucket at exact value". *)
Lemma create_bucket_ok :
  A !! (f, v) = None ->
  (forall base' b' v' id',
     A !! (f, base') = Some b' -> base' < v ->
     (v', id') ∈ bucket_entries b' -> v' < v) ->
  exists A' inv',
    (let! b := Bucket.add (Bucket.empty v) v id in
     Ok (<[NumericIndex.make_bucket_key f v := Bucket.serialize b]> inv))
    = Ok inv' /\
    repr A' inv' /\
    index_inv (fwd_update F f id (Some v)) A'.
Proof.
  intros Hfree Hbelow.
  destruct (bucket_add_wf (Bucket.empty v) v id)
    as (b1 & Hadd & Hwf1 & Hb1 & Hp1 & Hlen1);
    auto using bucket_empty_wf.
  { cbn. apply not_elem_of_nil. }
  { cbn. lia. }
  { cbn. unfold MAX_DELTA. lia. }
  rewrite Hadd. cbn [rbind].
  cbn [Bucket.empty base_value ids length] in Hb1, Hlen1.
  change (bucket_entries (Bucket.empty v)) with (@nil (Z * Z)) in Hp1.
  exists (<[(f, v) := clean b1]> A). eexists. split; [reflexivity |].
  split.
  - apply repr_insert; auto.
    + destruct (ids b1); [discriminate | congruence].
    + lia.
  - apply index_inv_create; auto.
    intros e. rewrite clean_entries, Hp1. apply list_elem_of_singleton.
Qed.

(** "Normal Insert", and the append to a bucket that cannot be split. *)
Lemma replace_bucket_ok (base0 : Z) (b0 : Bucket) :
  A !! (f, base0) = Some b0 ->
  base0 <= v -> v - base0 <= MAX_DELTA ->
  Z.of_nat (length (ids b0)) < 65535 ->
  (forall base' b', A !! (f, base') = Some b' -> base' <= v -> base' <= base0) ->
  exists A' inv',
    (let! b1 := Bucket.add b0 v id in
     Ok (<[NumericIndex.make_bucket_key f base0 := Bucket.serialize b1]> inv))
    = Ok inv' /\
    repr A' inv' /\
    index_inv (fwd_update F f id (Some v)) A' /\
    dom A' = dom A.
Proof.
  intros HA0 Hle Hmax Hsz Hfloor.
  destruct (repr_dom A inv HR _ _ _ HA0) as (_ & Hbase & [Hwf Hbv _ _ _]).
  destruct (bucket_add_wf b0 v id) as (b1 & Hadd & Hwf1 & Hb1 & Hp1 & Hlen1);
    auto; try lia.
  { eapply fresh_id_not_in_bucket; eauto. }
  rewrite Hadd. cbn [rbind].
  exists (<[(f, base0) := clean b1]> A). eexists. split; [reflexivity |].
  split; [| split].
  - apply repr_insert; auto; try lia; try congruence.
    destruct (ids b1); [discriminate | congruence].
  - eapply index_inv_replace; eauto.
  - apply set_eq. intros x. rewrite dom_insert, elem_of_union, elem_of_singleton.
    split; [intros [-> | ?]; [apply elem_of_dom; eauto | assumption] | auto].
Qed.

(** "Standard Slide Split". *)
Lemma split_bucket_ok (base0 : Z) (b0 : Bucket) :
  A !! (f, base0) = Some b0 ->
  base0 <= v -> v - base0 <= MAX_DELTA ->
  Z.of_nat (length (ids b0)) < 65535 ->
  (2 <= length (ids b0))%nat ->
  (NumericIndex.split_index b0 =? length (deltas b0))%nat = false ->
  (forall base' b', A !! (f, base') = Some b' -> base' <= v -> base' <= base0) ->
  exists A' inv',
    (let! lr := NumericIndex.slide_split b0 (NumericIndex.split_index b0) v id in
     let '(left_b, right_b) := lr in
     Ok (<[NumericIndex.make_bucket_key f (base_value right_b)
             := Bucket.serialize right_b]>
           (<[NumericIndex.make_bucket_key f base0
                := Bucket.serialize left_b]> inv)))
    = Ok inv' /\
    repr A' inv' /\
    index_inv (fwd_update F f id (Some v)) A'.
Proof.
  intros HA0 Hle Hmax Hsz Hn Hsplit Hfloor.
  destruct (repr_dom A inv HR _ _ _ HA0) as (_ & Hbase & [Hwf Hbv _ _ _]).
  pose proof (wf_length b0 Hwf) as Hlen.
  set (k := NumericIndex.split_index b0) in *.
  assert (Hcut : (0 < k < length (deltas b0))%nat /\
                 deltas b0 !!! (k - 1)%nat <> deltas b0 !!! k).
  { destruct (split_index_spec b0 Hlen Hn) as [[_ (Hk & Hne & _)] | [Heq _]].
    - auto.
    - fold k in Heq. zlia. }
  destruct Hcut as [Hk Hne].
  destruct (slide_split_wf b0 k v id)
    as (l & r & Hs & Hwfl & Hwfr & Hbl & Hbr & Hlt & Hbelow & Hent);
    auto; try lia.
  { eapply fresh_id_not_in_bucket; eauto. }
  rewrite Hs. cbn [rbind].
  pose proof (length_bucket_entries b0 Hlen) as HlenE.
  assert (Hperm : bucket_entries l ++ bucket_entries r
                  ≡ₚ (v, id) :: bucket_entries b0).
  { replace ((v, id) :: bucket_entries b0)
      with ((v, id) :: (take k (bucket_entries b0) ++ drop k (bucket_entries b0)))
      by (by rewrite take_drop).
    destruct (v <? base_value r); destruct Hent as [Hl Hr].
    - rewrite Hl, Hr. reflexivity.
    - rewrite Hl, Hr. rewrite <- Permutation_middle. reflexivity. }
  assert (Hlens : (length (ids l) + length (ids r)
                   = S (length (ids b0)))%nat).
  { rewrite <- (length_bucket_entries l), <- (length_bucket_entries r)
      by (apply wf_length; assumption).
    rewrite <- length_app, Hperm. cbn [length]. lia. }
  assert (Hparts : (k <= length (ids l))%nat /\
                   (length (ids b0) - k <= length (ids r))%nat).
  { rewrite <- (length_bucket_entries l), <- (length_bucket_entries r)
      by (apply wf_length; assumption).
    destruct (v <? base_value r); destruct Hent as [Hl Hr];
      rewrite Hl, Hr; cbn [length]; rewrite length_take, length_drop; lia. }
  assert (Hrb32 : is_u32 (base_value r)) by apply (wf_base r Hwfr).
  assert (Hkentry : (base_value r, ids b0 !!! k) ∈ bucket_entries b0).
  { apply list_elem_of_lookup. exists k.
    rewrite bucket_entries_lookup by lia. rewrite Hbr, Hbv. reflexivity. }
  destruct (index_inv_split F A HI f v id Hnone base0 (base_value r) b0
              (clean l) (clean r) (ids b0 !!! k))
    as [Hfree Hinv]; auto; try lia.
  exists (<[(f, base_value r) := clean r]> (<[(f, base0) := clean l]> A)).
  eexists. split; [reflexivity |]. split; [| exact Hinv].
  apply repr_insert; auto; try lia.
  - apply repr_insert; auto; try lia; try congruence.
    destruct (ids l); [cbn in Hparts; lia | congruence].
  - destruct (ids r); [cbn in Hparts; lia | congruence].
Qed.

End AddSteps.

Section AddToBuckets.
Context `{BitmapCodec}.
Variable F : string -> Z -> option Z.
Variable A : gmap (string * Z) Bucket.
Variable inv : gmap string (list byte).
Hypothesis HR : repr A inv.
Hypothesis HI : index_inv F A.
Variables (f : string) (v id : Z).
Hypothesis Hf : colon_free f = true.
Hypothesis Hv : is_u32 v.

(** The branch [add_to_buckets] takes when a bucket of the field covers
    the value. *)
Lemma add_to_buckets_found (base0 : Z) (b0 : Bucket) :
  A !! (f, base0) = Some b0 ->
  base0 <= v -> v - base0 <= MAX_DELTA ->
  (forall base' b', A !! (f, base') = Some b' -> base' <= v -> base' <= base0) ->
  NumericIndex.add_to_buckets inv f v id
  = if (MAX_SIZE <=? length (ids b0))%nat then
      let mid_idx := NumericIndex.split_index b0 in
      if (mid_idx =? length (deltas b0))%nat then
        let! b1 := Bucket.add b0 v id in
        Ok (<[NumericIndex.make_bucket_key f base0 := Bucket.serialize b1]> inv)
      else
        let! lr := NumericIndex.slide_split b0 mid_idx v id in
        let '(left_b, right_b) := lr in
        Ok (<[NumericIndex.make_bucket_key f (base_value right_b)
                := Bucket.serialize right_b]>
              (<[NumericIndex.make_bucket_key f base0
                   := Bucket.serialize left_b]> inv))
    else
      let! b1 := Bucket.add b0 v id in
      Ok (<[NumericIndex.make_bucket_key f base0 := Bucket.serialize b1]> inv).
Proof.
  intros HA0 Hle Hmax Hfloor.
  destruct (repr_dom A inv HR _ _ _ HA0) as (_ & Hbase & Hok).
  unfold NumericIndex.add_to_buckets.
  pose proof (seek_bucket_floor A inv HR f v Hf Hv) as Hseek.
  destruct (NumericIndex.seek_bucket inv f v) as [[k d]|];
    [destruct (has_field_prefix k f) eqn:Ep |];
    try (specialize (Hseek _ _ HA0); lia).
  destruct Hseek as (base1 & b1 & -> & HA1 & -> & Hb1 & Hle1 & Hfloor1).
  assert (base1 = base0) as ->.
  { pose proof (Hfloor _ _ HA1 Hle1). pose proof (Hfloor1 _ _ HA0 Hle). lia. }
  assert (b1 = b0) as -> by congruence.
  rewrite parse_make_bucket_key by exact Hbase.
  destruct ((v >=? base0) && (v - base0 <=? MAX_DELTA)) eqn:Er.
  2: { apply andb_false_iff in Er as [Er | Er]; zlia. }
  rewrite (repr_get A inv HR _ _ _ HA0).
  rewrite (deserialize_stored base0 b0 Hok). cbn [rbind].
  reflexivity.
Qed.

(** The branch it takes when none does. *)
Lemma add_to_buckets_missing :
  (forall base' b', A !! (f, base') = Some b' -> base' <= v ->
                    v - base' > MAX_DELTA) ->
  NumericIndex.add_to_buckets inv f v id
  = let! b := Bucket.add (Bucket.empty v) v id in
    Ok (<[NumericIndex.make_bucket_key f v := Bucket.serialize b]> inv).
Proof.
  intros Hmiss.
  unfold NumericIndex.add_to_buckets.
  pose proof (seek_bucket_floor A inv HR f v Hf Hv) as Hseek.
  destruct (NumericIndex.seek_bucket inv f v) as [[k d]|];
    [destruct (has_field_prefix k f) eqn:Ep |]; try reflexivity.
  destruct Hseek as (base1 & b1 & -> & HA1 & -> & Hb1 & Hle1 & Hfloor1).
  rewrite parse_make_bucket_key by exact Hb1.
  specialize (Hmiss _ _ HA1 Hle1).
  destruct ((v >=? base1) && (v - base1 <=? MAX_DELTA)) eqn:Er;
    [| reflexivity].
  apply andb_true_iff in Er as [_ Er]. zlia.
Qed.

Hypothesis Hid : is_u32 id.
Hypothesis Hnone : F f id = None.
Hypothesis Hsmall : forall f' base' b',
  A !! (f', base') = Some b' -> Z.of_nat (length (ids b')) < 65535.

(** [add_to_buckets] succeeds for an id the forward function does not
    record, and adds exactly its entry to the buckets. *)
Lemma add_to_buckets_ok :
  exists A' inv',
    NumericIndex.add_to_buckets inv f v id = Ok inv' /\
    repr A' inv' /\
    index_inv (fwd_update F f id (Some v)) A'.
Proof.
  (* is there a bucket of the field with base at or below the value? *)
  destruct (NumericIndex.seek_bucket inv f v) as [[k d]|] eqn:Eseek.
  2: { pose proof (seek_bucket_floor A inv HR f v Hf Hv) as Hseek.
       rewrite Eseek in Hseek.
       rewrite add_to_buckets_missing
         by (intros base' b' HA' Hle'; specialize (Hseek _ _ HA'); lia).
       apply (create_bucket_ok F A inv); auto.
       - destruct (A !! (f, v)) as [b'|] eqn:E; [| reflexivity].
         specialize (Hseek _ _ E). lia.
       - intros base' b' v' id' HA' Hlt' _. specialize (Hseek _ _ HA'). lia. }
  pose proof (seek_bucket_floor A inv HR f v Hf Hv) as Hseek.
  rewrite Eseek in Hseek.
  destruct (has_field_prefix k f) eqn:Ep.
  2: { rewrite add_to_buckets_missing
         by (intros base' b' HA' Hle'; specialize (Hseek _ _ HA'); lia).
       apply (create_bucket_ok F A inv); auto.
       - destruct (A !! (f, v)) as [b'|] eqn:E; [| reflexivity].
         specialize (Hseek _ _ E). lia.
       - intros base' b' v' id' HA' Hlt' _. specialize (Hseek _ _ HA'). lia. }
  destruct Hseek as (base0 & b0 & -> & HA0 & -> & Hb0 & Hle0 & Hfloor0).
  destruct (repr_dom A inv HR _ _ _ HA0) as (_ & _ & [Hwf0 Hbv0 _ Hne0 _]).
  destruct (Z_le_gt_dec (v - base0) MAX_DELTA) as [Hin | Hout].
  - (* the covering bucket has room for the delta *)
    rewrite (add_to_buckets_found base0 b0) by auto.
    specialize (Hsmall _ _ _ HA0).
    destruct (MAX_SIZE <=? length (ids b0))%nat eqn:Esat.
    + cbv zeta.
      destruct (NumericIndex.split_index b0 =? length (deltas b0))%nat eqn:Es.
      * destruct (replace_bucket_ok F A inv HR HI f v id Hf Hv Hid Hnone
                    base0 b0) as (A' & inv' & ? & ? & ? & _); eauto.
      * apply (split_bucket_ok F A inv); auto.
        zb_hyps. unfold MAX_SIZE in Esat. lia.
    + destruct (replace_bucket_ok F A inv HR HI f v id Hf Hv Hid Hnone
                  base0 b0) as (A' & inv' & ? & ? & ? & _); eauto.
  - (* the value is out of reach of every bucket below it *)
    assert (Hbelow : forall base' b' v' id',
              A !! (f, base') = Some b' -> base' < v ->
              (v', id') ∈ bucket_entries b' -> v' < v).
    { intros base' b' v' id' HA' Hlt' Hin'.
      pose proof (Hfloor0 _ _ HA' ltac:(lia)) as Hle'.
      destruct (repr_dom A inv HR _ _ _ HA') as (_ & _ & [Hwf' Hbv' _ _ _]).
      destruct (bucket_entry_facts b' v' id' Hwf' Hin') as (_ & Hmax' & _).
      destruct (Z_lt_le_dec base' base0) as [Hlt0 | ?].
      - pose proof (inv_ordered F A HI _ _ _ _ _ _ _ HA' HA0 Hlt0 Hin'). lia.
      - unfold MAX_DELTA in *. lia. }
    rewrite add_to_buckets_missing.
    + apply (create_bucket_ok F A inv); auto.
      destruct (A !! (f, v)) as [b'|] eqn:E; [| reflexivity].
      pose proof (Hfloor0 _ _ E ltac:(lia)). unfold MAX_DELTA in *. lia.
    + intros base' b' HA' Hle'.
      pose proof (Hfloor0 _ _ HA' Hle'). lia.
Qed.

End AddToBuckets.

(** ** The forward table *)

Lemma append_nil_l (s : string) : "" +:+ s = s.
Proof. reflexivity. Qed.

Lemma append_cons_l (c : ascii) (a b : string) :
  String c a +:+ b = String c (a +:+ b).
Proof. reflexivity. Qed.

Lemma forward_key_split (f g s s' : string) :
  colon_free f = true -> colon_free g = true ->
  f +:+ ":" +:+ s = g +:+ ":" +:+ s' -> f = g /\ s = s'.
Proof.
  revert g. induction f as [|c f IH]; intros [|c' g] Hf Hg Heq;
    rewrite ?append_cons_l, ?append_nil_l in Heq.
  - injection Heq as ->. auto.
  - injection Heq as <- _. cbn [colon_free] in Hg. discriminate.
  - injection Heq as -> _. cbn [colon_free] in Hf. discriminate.
  - injection Heq as <- Heq. cbn [colon_free] in Hf, Hg.
    apply andb_true_iff in Hf as [_ Hf]. apply andb_true_iff in Hg as [_ Hg].
    destruct (IH g Hf Hg Heq) as [-> ->]. auto.
Qed.

Lemma make_forward_key_inj (f g : string) (id id' : Z) :
  colon_free f = true -> colon_free g = true -> is_u32 id -> is_u32 id' ->
  NumericIndex.make_forward_key f id = NumericIndex.make_forward_key g id' ->
  f = g /\ id = id'.
Proof.
  unfold NumericIndex.make_forward_key, is_u32. intros Hf Hg Hi Hi' Heq.
  apply forward_key_split in Heq as [-> Heq]; [| assumption | assumption].
  split; [reflexivity |]. apply (inj pretty) in Heq. lia.
Qed.

Lemma forward_word (v : Z) :
  is_u32 v -> le_value (take 4 (le_bytes 4 v)) = v.
Proof.
  intros Hv. rewrite (take_ge (le_bytes 4 v)) by (rewrite length_le_bytes; lia).
  apply le_value_le_bytes_small. exact Hv.
Qed.

(** The value the forward table records for an id of a field, as [put],
    [remove] and [check_range] read it. *)
Definition forward_value (s : NumericIndex) (f : string) (id : Z) : option Z :=
  (fun fwd_val => le_value (take 4 fwd_val))
    <$> forward_dbi_ s !! NumericIndex.make_forward_key f id.

(** The same, restricted to the fields and ids the index is used with. *)
Definition fwd_of (s : NumericIndex) : string -> Z -> option Z :=
  fun f id =>
    if colon_free f && bool_decide (is_u32 id) then forward_value s f id
    else None.

Definition fwd_wf (fwd : gmap string (list byte)) : Prop :=
  forall k bytes, fwd !! k = Some bytes ->
    exists f id v,
      colon_free f = true /\ is_u32 id /\ is_u32 v /\
      k = NumericIndex.make_forward_key f id /\ bytes = le_bytes 4 v.

(** A stored bucket with room for one more entry under a 16-bit count. *)
Definition payload_small `{BitmapCodec} (k : string) (p : list byte) : Prop :=
  match Bucket.deserialize p (NumericIndex.parse_bucket_key_val k) with
  | Ok b => Z.of_nat (length (ids b)) < 65535
  | Err _ => True
  end.

#[export] Instance payload_small_dec `{BitmapCodec} k p :
  Decision (payload_small k p).
Proof.
  unfold payload_small. destruct (Bucket.deserialize _ _); apply _.
Defined.

Definition small_buckets `{BitmapCodec} (s : NumericIndex) : Prop :=
  map_Forall payload_small (inverted_dbi_ s).

Section StateInv.
Context `{BitmapCodec}.

Definition state_inv (s : NumericIndex) : Prop :=
  fwd_wf (forward_dbi_ s) /\
  exists A, repr A (inverted_dbi_ s) /\ index_inv (fwd_of s) A.

Lemma fwd_of_guard (s : NumericIndex) (f : string) (id v : Z) :
  fwd_of s f id = Some v -> colon_free f = true /\ is_u32 id.
Proof.
  unfold fwd_of. destruct (colon_free f); [| discriminate].
  destruct (bool_decide (is_u32 id)) eqn:E; [| discriminate].
  apply bool_decide_eq_true in E. auto.
Qed.

Lemma fwd_of_value (s : NumericIndex) (f : string) (id : Z) :
  colon_free f = true -> is_u32 id -> fwd_of s f id = forward_value s f id.
Proof.
  intros Hf Hid. unfold fwd_of. rewrite Hf.
  rewrite bool_decide_eq_true_2 by exact Hid. reflexivity.
Qed.

Lemma fwd_wf_value (s : NumericIndex) (f : string) (id v : Z) :
  fwd_wf (forward_dbi_ s) -> forward_value s f id = Some v -> is_u32 v.
Proof.
  intros Hwf Hv. unfold forward_value in Hv.
  destruct (forward_dbi_ s !! _) as [bytes|] eqn:E; [| discriminate].
  destruct (Hwf _ _ E) as (g & id' & v' & _ & _ & Hv' & _ & ->).
  change (Some (le_value (take 4 (le_bytes 4 v'))) = Some v) in Hv.
  rewrite forward_word in Hv by exact Hv'. injection Hv as <-. exact Hv'.
Qed.

Lemma small_buckets_repr (s : NumericIndex) (A : gmap (string * Z) Bucket) :
  repr A (inverted_dbi_ s) -> small_buckets s ->
  forall f base b, A !! (f, base) = Some b ->
                   Z.of_nat (length (ids b)) < 65535.
Proof.
  intros HR Hs f base b HA.
  destruct (repr_dom A _ HR _ _ _ HA) as (_ & Hb & Hok).
  pose proof (repr_get A _ HR _ _ _ HA) as Hget.
  specialize (Hs _ _ Hget). unfold payload_small in Hs.
  rewrite parse_make_bucket_key in Hs by exact Hb.
  rewrite (deserialize_stored base b Hok) in Hs. exact Hs.
Qed.

(** Writing the forward entry of (f, id). *)
Lemma fwd_of_insert (s : NumericIndex) (f : string) (id v : Z)
    (inv' : gmap string (list byte)) :
  colon_free f = true -> is_u32 id -> is_u32 v ->
  forall f' id',
    fwd_of (mkIndex (<[NumericIndex.make_forward_key f id := le_bytes 4 v]>
                       (forward_dbi_ s)) inv') f' id'
    = fwd_update (fwd_of s) f id (Some v) f' id'.
Proof.
  intros Hf Hid Hv f' id'. unfold fwd_of, fwd_update, forward_value.
  cbn [forward_dbi_].
  destruct (colon_free f') eqn:Hf'; cbn [andb].
  2: { destruct (decide _) as [[-> _] | ?]; [congruence | reflexivity]. }
  destruct (bool_decide (is_u32 id')) eqn:Hid'.
  2: { apply bool_decide_eq_false in Hid'.
       destruct (decide _) as [[_ ->] | ?]; [contradiction | reflexivity]. }
  apply bool_decide_eq_true in Hid'.
  destruct (decide (f' = f /\ id' = id)) as [[-> ->] | Hne].
  - rewrite lookup_insert_eq.
    change (Some (le_value (take 4 (le_bytes 4 v))) = Some v).
    rewrite forward_word by exact Hv. reflexivity.
  - rewrite lookup_insert_ne; [reflexivity |].
    intros Heq. apply make_forward_key_inj in Heq as [-> ->]; auto.
Qed.

Lemma fwd_of_delete (s : NumericIndex) (f : string) (id : Z)
    (inv' : gmap string (list byte)) :
  colon_free f = true -> is_u32 id ->
  forall f' id',
    fwd_of (mkIndex (delete (NumericIndex.make_forward_key f id)
                       (forward_dbi_ s)) inv') f' id'
    = fwd_update (fwd_of s) f id None f' id'.
Proof.
  intros Hf Hid f' id'. unfold fwd_of, fwd_update, forward_value.
  cbn [forward_dbi_].
  destruct (colon_free f') eqn:Hf'; cbn [andb].
  2: { destruct (decide _); reflexivity. }
  destruct (bool_decide (is_u32 id')) eqn:Hid'.
  2: { destruct (decide _); reflexivity. }
  apply bool_decide_eq_true in Hid'.
  destruct (decide (f' = f /\ id' = id)) as [[-> ->] | Hne].
  - rewrite lookup_delete_eq. reflexivity.
  - rewrite lookup_delete_ne; [reflexivity |].
    intros Heq. apply make_forward_key_inj in Heq as [-> ->]; auto.
Qed.

Lemma index_inv_ext (F F' : string -> Z -> option Z)
    (A : gmap (string * Z) Bucket) :
  (forall f id, F' f id = F f id) -> index_inv F A -> index_inv F' A.
Proof.
  intros Hext [HE HO]. constructor; [| exact HO].
  intros f v id. rewrite Hext. apply HE.
Qed.

End StateInv.

(** ** [put] and [remove] keep the state invariant *)

Section StateSteps.
Context `{BitmapCodec}.

Lemma fwd_update_same (F : string -> Z -> option Z) (f : string) (id v : Z) :
  F f id = Some v ->
  forall f' id', fwd_update F f id (Some v) f' id' = F f' id'.
Proof.
  intros HF f' id'. unfold fwd_update.
  destruct (decide _) as [[-> ->] | ?]; auto.
Qed.

Lemma fwd_update_twice (F : string -> Z -> option Z) (f : string) (id : Z)
    (x y : option Z) :
  forall f' id',
    fwd_update (fwd_update F f id x) f id y f' id' = fwd_update F f id y f' id'.
Proof.
  intros f' id'. unfold fwd_update. destruct (decide _); reflexivity.
Qed.

Lemma index_inv_update_ext (F G : string -> Z -> option Z) (f : string)
    (id : Z) (x : option Z) (A : gmap (string * Z) Bucket) :
  (forall f' id', G f' id' = F f' id') ->
  index_inv (fwd_update F f id x) A -> index_inv (fwd_update G f id x) A.
Proof.
  intros Hext. apply index_inv_ext. intros f' id'. unfold fwd_update.
  destruct (decide _); auto.
Qed.

Lemma fwd_wf_insert (fwd : gmap string (list byte)) (f : string) (id v : Z) :
  colon_free f = true -> is_u32 id -> is_u32 v -> fwd_wf fwd ->
  fwd_wf (<[NumericIndex.make_forward_key f id := le_bytes 4 v]> fwd).
Proof.
  intros Hf Hid Hv Hwf k bytes Hk.
  destruct (decide (k = NumericIndex.make_forward_key f id)) as [-> | Hne].
  - rewrite lookup_insert_eq in Hk. injection Hk as <-.
    exists f, id, v. auto.
  - rewrite lookup_insert_ne in Hk by congruence. exact (Hwf _ _ Hk).
Qed.

Lemma fwd_wf_delete (fwd : gmap string (list byte)) (k : string) :
  fwd_wf fwd -> fwd_wf (delete k fwd).
Proof.
  intros Hwf k' bytes Hk. apply lookup_delete_Some in Hk as [_ Hk].
  exact (Hwf _ _ Hk).
Qed.

Lemma forward_value_lookup (s : NumericIndex) (f : string) (id : Z)
    (fwd_val : list byte) :
  forward_dbi_ s !! NumericIndex.make_forward_key f id = Some fwd_val ->
  forward_value s f id = Some (le_value (take 4 fwd_val)).
Proof. intros E. unfold forward_value. rewrite E. reflexivity. Qed.

Lemma forward_value_none (s : NumericIndex) (f : string) (id : Z) :
  forward_dbi_ s !! NumericIndex.make_forward_key f id = None ->
  forward_value s f id = None.
Proof. intros E. unfold forward_value. rewrite E. reflexivity. Qed.

(** [put] on a state satisfying the invariant succeeds and records the new
    value, provided no bucket is at the limit of the 16-bit count. *)
Lemma put_ok (s : NumericIndex) (f : string) (id v : Z) :
  state_inv s -> small_buckets s ->
  colon_free f = true -> is_u32 id -> is_u32 v ->
  exists s',
    NumericIndex.put s f id v = Ok s' /\ state_inv s' /\
    forall f' id', fwd_of s' f' id' = fwd_update (fwd_of s) f id (Some v) f' id'.
Proof.
  intros (Hwf & A & HR & HI) Hsmall Hf Hid Hv.
  pose proof (small_buckets_repr s A HR Hsmall) as HsA.
  unfold NumericIndex.put, NumericIndex.put_internal.
  destruct (forward_dbi_ s !! NumericIndex.make_forward_key f id)
    as [fwd_val|] eqn:E.
  - pose proof (forward_value_lookup s f id fwd_val E) as Hold.
    rewrite <- (fwd_of_value s f id Hf Hid) in Hold.
    cbv zeta. destruct (Z.eqb_spec (le_value (take 4 fwd_val)) v) as [Heq | Hne].
    + exists s. split; [reflexivity |]. split.
      * split; [exact Hwf |]. exists A. auto.
      * intros f' id'. symmetry. apply fwd_update_same. congruence.
    + destruct (remove_from_buckets_ok _ A _ f _ id HR HI Hf Hold)
        as (A1 & inv1 & Hrm & HR1 & HI1 & Hsz).
      rewrite Hrm. cbn [rbind].
      assert (HsA1 : forall f' base' b', A1 !! (f', base') = Some b' ->
                       Z.of_nat (length (ids b')) < 65535).
      { intros f' base' b' HA1. destruct (Hsz _ _ _ HA1) as (b0 & HA0 & Hle).
        pose proof (HsA _ _ _ HA0). lia. }
      assert (Hnone : fwd_update (fwd_of s) f id None f id = None).
      { unfold fwd_update. rewrite decide_True by auto. reflexivity. }
      destruct (add_to_buckets_ok _ A1 inv1 HR1 HI1 f v id Hf Hv Hid Hnone HsA1)
        as (A2 & inv2 & Hadd & HR2 & HI2).
      rewrite Hadd. cbn [rbind]. eexists. split; [reflexivity |].
      split.
      * split; [apply fwd_wf_insert; auto |]. exists A2. split; [exact HR2 |].
        eapply index_inv_ext; [| exact HI2]. intros f' id'. cbn.
        rewrite (fwd_of_insert s f id v inv2 Hf Hid Hv).
        symmetry. apply fwd_update_twice.
      * intros f' id'. apply (fwd_of_insert s f id v inv2 Hf Hid Hv).
  - pose proof (forward_value_none s f id E) as Hold.
    rewrite <- (fwd_of_value s f id Hf Hid) in Hold.
    cbn [rbind].
    destruct (add_to_buckets_ok _ A _ HR HI f v id Hf Hv Hid Hold HsA)
      as (A2 & inv2 & Hadd & HR2 & HI2).
    rewrite Hadd. cbn [rbind]. eexists. split; [reflexivity |].
    split.
    + split; [apply fwd_wf_insert; auto |]. exists A2. split; [exact HR2 |].
      eapply index_inv_ext; [| exact HI2]. intros f' id'. cbn.
      apply (fwd_of_insert s f id v inv2 Hf Hid Hv).
    + intros f' id'. apply (fwd_of_insert s f id v inv2 Hf Hid Hv).
Qed.

Lemma fwd_update_none_same (F : string -> Z -> option Z) (f : string) (id : Z) :
  F f id = None ->
  forall f' id', fwd_update F f id None f' id' = F f' id'.
Proof.
  intros HF f' id'. unfold fwd_update.
  destruct (decide _) as [[-> ->] | ?]; auto.
Qed.

Lemma remove_ok (s : NumericIndex) (f : string) (id : Z) :
  state_inv s -> colon_free f = true -> is_u32 id ->
  exists s',
    NumericIndex.remove s f id = Ok s' /\ state_inv s' /\
    (forall f' id', fwd_of s' f' id' = fwd_update (fwd_of s) f id None f' id') /\
    (small_buckets s -> small_buckets s').
Proof.
  intros (Hwf & A & HR & HI) Hf Hid. unfold NumericIndex.remove.
  destruct (forward_dbi_ s !! NumericIndex.make_forward_key f id)
    as [fwd_val|] eqn:E.
  - pose proof (forward_value_lookup s f id fwd_val E) as Hold.
    rewrite <- (fwd_of_value s f id Hf Hid) in Hold. cbv zeta.
    destruct (remove_from_buckets_ok _ A _ f _ id HR HI Hf Hold)
      as (A1 & inv1 & Hrm & HR1 & HI1 & Hsz).
    rewrite Hrm. cbn [rbind]. eexists. split; [reflexivity |].
    split; [| split].
    + split; [apply fwd_wf_delete; exact Hwf |]. exists A1.
      split; [exact HR1 |].
      eapply index_inv_ext; [| exact HI1]. intros f' id'.
      apply (fwd_of_delete s f id inv1 Hf Hid).
    + intros f' id'. apply (fwd_of_delete s f id inv1 Hf Hid).
    + intros Hsmall k p Hk. cbn [inverted_dbi_] in Hk.
      destruct (repr_key A1 inv1 HR1 _ _ Hk) as (g & base & b & -> & HA1).
      destruct (repr_dom A1 inv1 HR1 _ _ _ HA1) as (_ & Hb & Hok).
      rewrite (repr_get A1 inv1 HR1 _ _ _ HA1) in Hk. injection Hk as <-.
      unfold payload_small. rewrite parse_make_bucket_key by exact Hb.
      rewrite (deserialize_stored base b Hok).
      destruct (Hsz _ _ _ HA1) as (b0 & HA0 & Hle).
      pose proof (small_buckets_repr s A HR Hsmall _ _ _ HA0). lia.
  - exists s. split; [reflexivity |]. split; [| split].
    + split; [exact Hwf |]. exists A. auto.
    + intros f' id'. symmetry. apply fwd_update_none_same.
      rewrite (fwd_of_value s f id Hf Hid). apply forward_value_none. exact E.
    + auto.
Qed.

End StateSteps.

(** ** Reachable states *)

Inductive op : Type :=
| OpPut (field : string) (id value : Z)
| OpRemove (field : string) (id : Z).

Section Reachable.
Context `{BitmapCodec}.

(** The states reached from the empty index by calls of [put] and [remove]
    with field names that hold no colon, 32-bit ids and values, and no
    bucket at 65535 entries when [put] is called. *)
Inductive reachable : NumericIndex -> Prop :=
| reach_empty : reachable NumericIndex.empty
| reach_put s f id v s' :
    reachable s -> colon_free f = true -> is_u32 id -> is_u32 v ->
    small_buckets s -> NumericIndex.put s f id v = Ok s' -> reachable s'
| reach_remove s f id s' :
    reachable s -> colon_free f = true -> is_u32 id ->
    NumericIndex.remove s f id = Ok s' -> reachable s'.

(** The same as a function, to run traces. *)
Definition step (s : NumericIndex) (o : op) : option NumericIndex :=
  match o with
  | OpPut f id v =>
      if colon_free f && bool_decide (is_u32 id) && bool_decide (is_u32 v)
         && bool_decide (small_buckets s)
      then match NumericIndex.put s f id v with
           | Ok s' => Some s'
           | Err _ => None
           end
      else None
  | OpRemove f id =>
      if colon_free f && bool_decide (is_u32 id)
      then match NumericIndex.remove s f id with
           | Ok s' => Some s'
           | Err _ => None
           end
      else None
  end.

Fixpoint run (ops : list op) (s : NumericIndex) : option NumericIndex :=
  match ops with
  | [] => Some s
  | o :: ops' =>
      match step s o with
      | Some s' => run ops' s'
      | None => None
      end
  end.

Lemma step_reachable (s s' : NumericIndex) (o : op) :
  reachable s -> step s o = Some s' -> reachable s'.
Proof.
  intros Hs. destruct o as [f id v | f id]; cbn [step].
  - destruct (colon_free f) eqn:Hf; [| discriminate].
    destruct (bool_decide (is_u32 id)) eqn:Hid; [| discriminate].
    destruct (bool_decide (is_u32 v)) eqn:Hv; [| discriminate].
    destruct (bool_decide (small_buckets s)) eqn:Hsm; [| discriminate].
    cbn [andb]. destruct (NumericIndex.put s f id v) as [s1|] eqn:E;
      [| discriminate].
    intros [= <-]. apply bool_decide_eq_true in Hid, Hv, Hsm.
    exact (reach_put s f id v s1 Hs Hf Hid Hv Hsm E).
  - destruct (colon_free f) eqn:Hf; [| discriminate].
    destruct (bool_decide (is_u32 id)) eqn:Hid; [| discriminate].
    cbn [andb]. destruct (NumericIndex.remove s f id) as [s1|] eqn:E;
      [| discriminate].
    intros [= <-]. apply bool_decide_eq_true in Hid.
    exact (reach_remove s f id s1 Hs Hf Hid E).
Qed.

Lemma run_reachable (ops : list op) (s s' : NumericIndex) :
  reachable s -> run ops s = Some s' -> reachable s'.
Proof.
  revert s. induction ops as [|o ops IH]; intros s Hs; cbn [run].
  - intros [= <-]. exact Hs.
  - destruct (step s o) as [s1|] eqn:E; [| discriminate].
    apply IH. exact (step_reachable s s1 o Hs E).
Qed.

Lemma state_inv_empty : state_inv NumericIndex.empty.
Proof.
  split.
  - intros k bytes Hk. cbn in Hk. rewrite lookup_empty in Hk. discriminate.
  - exists ∅. split; [apply repr_empty |]. constructor.
    + intros f v id. split.
      * intros (base & b & HA & _). rewrite lookup_empty in HA. discriminate.
      * unfold fwd_of, forward_value. cbn. rewrite lookup_empty.
        destruct (_ && _); discriminate.
    + intros f base base' b b' v id HA. rewrite lookup_empty in HA.
      discriminate.
Qed.

Lemma reachable_inv (s : NumericIndex) : reachable s -> state_inv s.
Proof.
  induction 1 as [| s f id v s' _ IH Hf Hid Hv Hsm Hput
                  | s f id s' _ IH Hf Hid Hrm].
  - apply state_inv_empty.
  - destruct (put_ok s f id v IH Hsm Hf Hid Hv) as (s1 & E & Hinv & _).
    congruence.
  - destruct (remove_ok s f id IH Hf Hid) as (s1 & E & Hinv & _).
    congruence.
Qed.

End Reachable.

(** ** One bucket of a range scan *)

Definition in_bounds (b : Bucket) (lo hi id : Z) : Prop :=
  exists v, (v, id) ∈ bucket_entries b /\ lo <= v <= hi.

Lemma get_value_entry (b : Bucket) (i : nat) :
  bucket_wf b -> (i < length (ids b))%nat ->
  bucket_entries b !! i = Some (Bucket.get_value b i, ids b !!! i).
Proof.
  intros Hwf Hi. pose proof (wf_length b Hwf) as Hlen.
  rewrite bucket_entries_lookup by lia. unfold Bucket.get_value.
  pose proof (wf_base b Hwf) as Hb. unfold is_u32 in Hb.
  destruct (bucket_wf_delta_range b i Hwf) as [Hd Hs]; [lia |].
  unfold wrap32. rewrite Z.mod_small by lia. reflexivity.
Qed.

Lemma entry_index (b : Bucket) (v id : Z) :
  bucket_wf b -> (v, id) ∈ bucket_entries b ->
  exists i, (i < length (ids b))%nat /\ Bucket.get_value b i = v /\
            ids b !!! i = id.
Proof.
  intros Hwf Hin. apply list_elem_of_lookup in Hin as [i Hi].
  assert (Hlt : (i < length (ids b))%nat).
  { apply lookup_lt_Some in Hi.
    rewrite length_bucket_entries in Hi by exact (wf_length b Hwf). exact Hi. }
  rewrite get_value_entry in Hi by assumption. injection Hi as <- <-.
  exists i. auto.
Qed.

Section Scan.
Variable b : Bucket.
Variables lo hi : Z.
Hypothesis Hwf : bucket_wf b.

Let visit (acc : gset Z) (i : nat) : gset Z :=
  let v := Bucket.get_value b i in
  if (v >=? lo) && (v <=? hi) then {[ ids b !!! i ]} ∪ acc else acc.

Lemma visit_all (l : list nat) (res : gset Z) (id : Z) :
  id ∈ foldl visit res l <->
  id ∈ res \/
  exists i, i ∈ l /\ ids b !!! i = id /\ lo <= Bucket.get_value b i <= hi.
Proof.
  revert res. induction l as [|i l IH]; intros res; cbn [foldl].
  - split; [auto |]. intros [? | (i & Hi & _)]; [assumption |].
    inversion Hi.
  - rewrite IH. unfold visit. cbv zeta.
    destruct ((Bucket.get_value b i >=? lo) && (Bucket.get_value b i <=? hi))
      eqn:E.
    + apply andb_true_iff in E as [E1 E2].
      rewrite elem_of_union, elem_of_singleton. split.
      * intros [[-> | Hr] | (j & Hj & Hid & Hv)].
        -- right. exists i. split; [left |]. split; [reflexivity | zlia].
        -- auto.
        -- right. exists j. split; [right; exact Hj | auto].
      * intros [Hr | (j & Hj & Hid & Hv)]; [auto |].
        apply elem_of_cons in Hj as [-> | Hj]; [auto |].
        right. exists j. auto.
    + split.
      * intros [Hr | (j & Hj & Hid & Hv)]; [auto |].
        right. exists j. split; [right; exact Hj | auto].
      * intros [Hr | (j & Hj & Hid & Hv)]; [auto |].
        apply elem_of_cons in Hj as [-> | Hj].
        -- apply andb_false_iff in E as [E | E]; zlia.
        -- right. exists j. auto.
Qed.

Lemma filter_entries_spec (res : gset Z) (id : Z) :
  id ∈ NumericIndex.filter_entries b lo hi res <->
  id ∈ res \/ in_bounds b lo hi id.
Proof.
  unfold NumericIndex.filter_entries. fold visit. rewrite visit_all.
  split; (intros [Hr | Hx]; [left; exact Hr | right]).
  - destruct Hx as (i & Hi & Hid & Hv). apply elem_of_seq in Hi.
    exists (Bucket.get_value b i). split; [| exact Hv].
    apply list_elem_of_lookup. exists i. rewrite <- Hid.
    apply get_value_entry; [exact Hwf | lia].
  - destruct Hx as (v & Hin & Hv).
    destruct (entry_index b v id Hwf Hin) as (i & Hi & Hval & Hid).
    exists i. split; [apply elem_of_seq; lia |]. rewrite Hval. auto.
Qed.

(** When the first and the last value of the bucket lie within the bounds,
    so does every value. *)
Lemma full_overlap (v id : Z) :
  ids b <> [] ->
  Bucket.get_value b 0 >= lo ->
  Bucket.get_value b (length (ids b) - 1) <= hi ->
  (v, id) ∈ bucket_entries b -> lo <= v <= hi.
Proof.
  intros Hne Hmin Hmax Hin.
  pose proof (wf_length b Hwf) as Hlen.
  assert (Hpos : (0 < length (ids b))%nat).
  { destruct (ids b); [congruence | cbn; lia]. }
  destruct (entry_index b v id Hwf Hin) as (i & Hi & <- & _).
  unfold Bucket.get_value in *.
  destruct (bucket_wf_delta_range b i Hwf) as [Hd Hs]; [lia |].
  destruct (bucket_wf_delta_range b 0 Hwf) as [Hd0 Hs0]; [lia |].
  destruct (bucket_wf_delta_range b (length (ids b) - 1) Hwf) as [Hd1 Hs1];
    [lia |].
  pose proof (wf_base b Hwf) as Hb. unfold is_u32 in Hb.
  unfold wrap32 in *. rewrite Z.mod_small in Hmin by lia.
  rewrite Z.mod_small in Hmax by lia. rewrite Z.mod_small by lia.
  assert (H0 : deltas b !!! 0%nat <= deltas b !!! i).
  { apply (sorted_lookup_le (deltas b) 0 i); [exact (wf_sorted b Hwf) | lia | |];
      apply list_lookup_lookup_total_lt; lia. }
  assert (H1 : deltas b !!! i <= deltas b !!! (length (ids b) - 1)%nat).
  { apply (sorted_lookup_le (deltas b) i (length (ids b) - 1));
      [exact (wf_sorted b Hwf) | lia | |];
      apply list_lookup_lookup_total_lt; lia. }
  lia.
Qed.

Lemma scan_bucket_spec (res : gset Z) (id : Z) :
  ids b <> [] ->
  id ∈ NumericIndex.scan_bucket b lo hi res <->
  id ∈ res \/ in_bounds b lo hi id.
Proof.
  intros Hne. unfold NumericIndex.scan_bucket. cbv zeta.
  destruct ((Bucket.get_value b 0 >=? lo)
            && (Bucket.get_value b (length (ids b) - 1) <=? hi)) eqn:E.
  - apply andb_true_iff in E as [E1 E2].
    rewrite elem_of_union, (wf_bitmap b Hwf), elem_of_list_to_set.
    split; (intros [Hr | Hx]; [left; exact Hr | right]).
    + destruct (bucket_id_entry b id (wf_length b Hwf) Hx) as [v Hv].
      exists v. split; [exact Hv |].
      apply (full_overlap v id Hne); [zlia | zlia | exact Hv].
    + destruct Hx as (v & Hin & _).
      apply (bucket_entry_facts b v id Hwf Hin).
  - apply filter_entries_spec.
Qed.

(** The bitmap union of the full-overlap branch gives what the per-entry
    filter gives. *)
Lemma scan_bucket_filter (res : gset Z) :
  ids b <> [] ->
  NumericIndex.scan_bucket b lo hi res
  = NumericIndex.filter_entries b lo hi res.
Proof.
  intros Hne. apply set_eq. intros id.
  rewrite scan_bucket_spec by exact Hne. rewrite filter_entries_spec.
  reflexivity.
Qed.

End Scan.

(** ** The scan loop of [range] *)

#[export] Instance key_le_dec (a b : string) : Decision (key_le a b).
Proof. unfold key_le. apply _. Defined.

(** The stored keys from [key] on: what the loop has left to visit. *)
Definition remaining (inv : gmap string (list byte)) (key : string)
  : gset string :=
  filter (fun k => key_le key k) (dom inv).

Lemma remaining_shrinks (inv : gmap string (list byte)) (key k' : string) :
  is_Some (inv !! key) -> key_lt key k' ->
  (size (remaining inv k') < size (remaining inv key))%nat.
Proof.
  intros Hkey Hlt. apply subset_size. apply strict_spec. split.
  - intros k Hk. apply elem_of_filter in Hk as [Hle Hd].
    apply elem_of_filter. split; [| exact Hd].
    exact (key_le_trans _ _ _ (key_lt_le _ _ Hlt) Hle).
  - intros Hsub. assert (Hk : key ∈ remaining inv k').
    { apply Hsub. apply elem_of_filter. split; [apply key_le_refl |].
      apply elem_of_dom. exact Hkey. }
    apply elem_of_filter in Hk as [Hle _].
    apply key_lt_not_le in Hlt. contradiction.
Qed.

Lemma remaining_bound (inv : gmap string (list byte)) (key : string) :
  (size (remaining inv key) <= size inv)%nat.
Proof.
  rewrite <- (size_dom (D := gset string)).
  apply subseteq_size. intros k Hk. apply elem_of_filter in Hk as [_ Hd].
  exact Hd.
Qed.

Section RangeLoop.
Context `{BitmapCodec}.
Variable A : gmap (string * Z) Bucket.
Variable inv : gmap string (list byte).
Hypothesis HR : repr A inv.
Variable f : string.
Hypothesis Hf : colon_free f = true.
Variables lo hi : Z.

(** The ids the buckets of the field stored from [key] on hold within the
    bounds. *)
Definition from_key (key : string) (id : Z) : Prop :=
  exists base b,
    A !! (f, base) = Some b /\
    key_le key (NumericIndex.make_bucket_key f base) /\ in_bounds b lo hi id.

Definition after_key (key : string) (id : Z) : Prop :=
  exists base b,
    A !! (f, base) = Some b /\
    key_lt key (NumericIndex.make_bucket_key f base) /\ in_bounds b lo hi id.

(** A key the loop may stand at: a key of the field, or a key past all of
    them. *)
Definition stop_ok (key : string) : Prop :=
  has_field_prefix key f = true \/
  forall base b, A !! (f, base) = Some b ->
                 key_lt (NumericIndex.make_bucket_key f base) key.

Lemma from_key_split (base0 : Z) (b0 : Bucket) (id : Z) :
  A !! (f, base0) = Some b0 ->
  from_key (NumericIndex.make_bucket_key f base0) id <->
  in_bounds b0 lo hi id \/ after_key (NumericIndex.make_bucket_key f base0) id.
Proof.
  intros HA0. destruct (repr_dom A inv HR _ _ _ HA0) as (_ & Hb0 & _). split.
  - intros (base & b & HA & Hle & Hin).
    destruct (repr_dom A inv HR _ _ _ HA) as (_ & Hb & _).
    apply key_le_lt_or_eq in Hle as [Hlt | Heq].
    + right. exists base, b. auto.
    + left. apply bucket_key_inj in Heq as [_ ->]; auto.
      rewrite HA0 in HA. injection HA as ->. exact Hin.
  - intros [Hin | (base & b & HA & Hlt & Hin)].
    + exists base0, b0. split; [exact HA0 |]. split; [apply key_le_refl | auto].
    + exists base, b. split; [exact HA |]. split; [apply key_lt_le | ]; auto.
Qed.

Lemma next_stop_ok (key k' : string) (d' : list byte) :
  has_field_prefix key f = true ->
  cursor_next inv key = Some (k', d') -> stop_ok k'.
Proof.
  intros Hpre Hnext. apply cursor_next_Some in Hnext as (Hk' & Hlt & Hmin).
  unfold stop_ok. destruct (has_field_prefix k' f) eqn:E; [left; reflexivity |].
  right. intros base b HA.
  destruct (key_lt_or_le (NumericIndex.make_bucket_key f base) k')
    as [Hlt' | Hle]; [exact Hlt' |].
  exfalso. unfold has_field_prefix in *.
  rewrite (prefix_between (field_prefix f) key k'
             (NumericIndex.make_bucket_key f base)) in E.
  - discriminate.
  - exact Hpre.
  - apply bucket_key_prefix.
  - apply key_lt_le. exact Hlt.
  - exact Hle.
Qed.

Lemma after_key_next (key k' : string) (d' : list byte) (id : Z) :
  cursor_next inv key = Some (k', d') ->
  after_key key id <-> from_key k' id.
Proof.
  intros Hnext. apply cursor_next_Some in Hnext as (Hk' & Hlt & Hmin). split.
  - intros (base & b & HA & Hlt' & Hin). exists base, b.
    split; [exact HA |]. split; [| exact Hin].
    apply Hmin; [| exact Hlt']. exact (stored_key_present A inv HR _ _ _ HA).
  - intros (base & b & HA & Hle & Hin). exists base, b.
    split; [exact HA |]. split; [| exact Hin].
    exact (key_lt_le_trans _ _ _ Hlt Hle).
Qed.

Lemma after_key_last (key : string) (id : Z) :
  cursor_next inv key = None -> ~ after_key key id.
Proof.
  intros Hnext (base & b & HA & Hlt & _).
  pose proof (cursor_next_None inv key Hnext _
                (stored_key_present A inv HR _ _ _ HA)) as Hle.
  apply key_lt_not_le in Hlt. contradiction.
Qed.

Lemma range_loop_spec (fuel : nat) :
  forall key data res,
    inv !! key = Some data -> (size (remaining inv key) < fuel)%nat ->
    stop_ok key ->
    exists X,
      NumericIndex.range_loop fuel inv f lo hi key key data res = Some (Ok X) /\
      forall id, id ∈ X <-> id ∈ res \/ from_key key id.
Proof.
  induction fuel as [|fuel IH]; intros key data res Hkey Hfuel Hstop; [lia |].
  cbn [NumericIndex.range_loop].
  destruct (has_field_prefix key f) eqn:Hpre; cbn [negb].
  2: { exists res. split; [reflexivity |]. intros id. split; [auto |].
       intros [Hr | (base & b & HA & Hle & _)]; [exact Hr |].
       destruct Hstop as [Hs | Hs]; [congruence |].
       specialize (Hs _ _ HA). apply key_lt_not_le in Hs. contradiction. }
  destruct (field_key_of_prefix A inv HR f key data Hf Hkey Hpre)
    as (base0 & b0 & -> & HA0 & -> & Hb0).
  rewrite parse_make_bucket_key by exact Hb0.
  destruct (repr_dom A inv HR _ _ _ HA0) as (_ & _ & Hok0).
  destruct (base0 >? hi) eqn:Hhi.
  { exists res. split; [reflexivity |]. intros id. split; [auto |].
    intros [Hr | (base & b & HA & Hle & v & Hin & Hv)]; [exact Hr |].
    destruct (repr_dom A inv HR _ _ _ HA) as (_ & Hb & Hok).
    apply bucket_key_le in Hle; [| assumption | assumption].
    pose proof (bucket_entry_facts b v id (ok_wf _ _ Hok) Hin) as (Hbv & _).
    rewrite (ok_base _ _ Hok) in Hbv. zlia. }
  rewrite (deserialize_stored base0 b0 Hok0).
  assert (Hne : Bucket.is_empty b0 = false).
  { unfold Bucket.is_empty. pose proof (ok_nonempty _ _ Hok0).
    destruct (ids b0); congruence. }
  rewrite Hne.
  pose proof (scan_bucket_spec b0 lo hi (ok_wf _ _ Hok0)) as Hscan.
  destruct (cursor_next inv (NumericIndex.make_bucket_key f base0))
    as [[k' d'] |] eqn:Hnext.
  - pose proof Hnext as Hn. apply cursor_next_Some in Hn as (Hk' & Hlt & _).
    destruct (IH k' d' (NumericIndex.scan_bucket b0 lo hi res) Hk')
      as (X & HX & HXspec).
    + pose proof (remaining_shrinks inv _ k' (mk_is_Some _ _ Hkey) Hlt). lia.
    + exact (next_stop_ok _ k' d' Hpre Hnext).
    + exists X. split; [exact HX |]. intros id.
      rewrite HXspec, Hscan by exact (ok_nonempty _ _ Hok0).
      rewrite (from_key_split base0 b0 id HA0).
      rewrite (after_key_next _ k' d' id Hnext). tauto.
  - exists (NumericIndex.scan_bucket b0 lo hi res). split; [reflexivity |].
    intros id. rewrite Hscan by exact (ok_nonempty _ _ Hok0).
    rewrite (from_key_split base0 b0 id HA0).
    pose proof (after_key_last _ id Hnext). tauto.
Qed.

End RangeLoop.

(** ** Where [range] starts *)

Section RangeStart.
Context `{BitmapCodec}.
Variable F : string -> Z -> option Z.
Variable A : gmap (string * Z) Bucket.
Variable inv : gmap string (list byte).
Hypothesis HR : repr A inv.
Hypothesis HI : index_inv F A.
Variable f : string.
Hypothesis Hf : colon_free f = true.
Variables lo hi : Z.
Hypothesis Hlo : is_u32 lo.

Let target : string := NumericIndex.make_bucket_key f lo.

(** No bucket of the field stored before [key] reaches [lo]. *)
Definition before (key : string) : Prop :=
  forall base b v id,
    A !! (f, base) = Some b ->
    key_lt (NumericIndex.make_bucket_key f base) key ->
    (v, id) ∈ bucket_entries b -> v < lo.

Lemma between_is_field (k1 k k3 : string) :
  has_field_prefix k1 f = true -> has_field_prefix k3 f = true ->
  key_le k1 k -> key_le k k3 -> has_field_prefix k f = true.
Proof. unfold has_field_prefix. apply prefix_between. Qed.

Lemma earlier_below (base base' : Z) (b b' : Bucket) (v id : Z) :
  A !! (f, base) = Some b -> A !! (f, base') = Some b' ->
  key_lt (NumericIndex.make_bucket_key f base)
         (NumericIndex.make_bucket_key f base') ->
  base' <= lo -> (v, id) ∈ bucket_entries b -> v < lo.
Proof.
  intros HA HA' Hlt Hle Hin.
  destruct (repr_dom A inv HR _ _ _ HA) as (_ & Hb & _).
  destruct (repr_dom A inv HR _ _ _ HA') as (_ & Hb' & _).
  apply bucket_key_lt in Hlt; [| assumption | assumption].
  pose proof (inv_ordered F A HI f base base' b b' v id HA HA' Hlt Hin). lia.
Qed.

Lemma before_field_key (base0 : Z) (b0 : Bucket) :
  A !! (f, base0) = Some b0 -> base0 <= lo ->
  before (NumericIndex.make_bucket_key f base0).
Proof.
  intros HA0 Hle base b v id HA Hlt Hin.
  exact (earlier_below base base0 b b0 v id HA HA0 Hlt Hle Hin).
Qed.

Lemma cursor_next_is (p key : string) (data : list byte) :
  inv !! key = Some data -> key_lt p key ->
  (forall k'', is_Some (inv !! k'') -> key_lt k'' key -> key_le k'' p) ->
  cursor_next inv p = Some (key, data).
Proof.
  intros Hkey Hlt Hmax.
  destruct (cursor_next inv p) as [[k2 d2] |] eqn:E.
  - apply cursor_next_Some in E as (Hk2 & Hlt2 & Hmin).
    assert (k2 = key) as ->.
    { apply key_le_antisym.
      - apply Hmin; [eauto | exact Hlt].
      - destruct (key_lt_or_le k2 key) as [Hc | Hc]; [| exact Hc].
        pose proof (Hmax k2 (mk_is_Some _ _ Hk2) Hc) as Hle.
        apply key_lt_not_le in Hlt2. contradiction. }
    congruence.
  - pose proof (cursor_next_None inv p E key (mk_is_Some _ _ Hkey)) as Hle.
    apply key_lt_not_le in Hlt. contradiction.
Qed.

(** A key at or past the target that is not of the field lies past every
    key of the field. *)
Lemma stop_ok_past (key : string) :
  key_le target key ->
  (forall k'', is_Some (inv !! k'') -> key_le target k'' -> key_le key k'') ->
  stop_ok A f key.
Proof.
  intros Hle Hmin. unfold stop_ok.
  destruct (has_field_prefix key f) eqn:E; [left; reflexivity | right].
  intros base b HA.
  destruct (key_lt_or_le (NumericIndex.make_bucket_key f base) key)
    as [Hc | Hc]; [exact Hc | exfalso].
  rewrite (between_is_field target key (NumericIndex.make_bucket_key f base))
    in E.
  - discriminate.
  - apply bucket_key_prefix.
  - apply bucket_key_prefix.
  - exact Hle.
  - exact Hc.
Qed.

Definition start_ok (st : string * string * list byte) : Prop :=
  let '(pos, key, data) := st in
  inv !! key = Some data /\
  (pos = key \/ cursor_next inv pos = Some (key, data)) /\
  stop_ok A f key /\ before key.

Lemma range_start_found (key : string) (data : list byte) :
  cursor_set_range inv target = Some (key, data) ->
  exists st, NumericIndex.range_start inv f lo = Some st /\ start_ok st.
Proof.
  intros Hset. unfold NumericIndex.range_start. fold target. rewrite Hset.
  apply cursor_set_range_Some in Hset as (Hkey & Hle & Hmin).
  pose proof (stop_ok_past key Hle Hmin) as Hstop.
  destruct (negb (has_field_prefix key f)
            || (NumericIndex.parse_bucket_key_val key >? lo)) eqn:Hcond.
  - destruct (cursor_prev inv key) as [[p_key p_data] |] eqn:Hprev.
    + apply cursor_prev_Some in Hprev as (Hp & Hplt & Hpmax).
      assert (HpT : key_lt p_key target).
      { destruct (key_lt_or_le p_key target) as [Hc | Hc]; [exact Hc |].
        pose proof (Hmin p_key (mk_is_Some _ _ Hp) Hc) as Hc'.
        apply key_lt_not_le in Hplt. contradiction. }
      destruct (has_field_prefix p_key f) eqn:Hpp.
      * eexists. split; [reflexivity |]. cbn.
        destruct (field_key_of_prefix A inv HR f p_key p_data Hf Hp Hpp)
          as (pb & bp & -> & HAp & -> & Hpb).
        split; [exact Hp |]. split; [left; reflexivity |].
        split; [left; exact Hpp |].
        apply (before_field_key pb bp HAp).
        apply bucket_key_lt in HpT; [lia | assumption | assumption].
      * eexists. split; [reflexivity |]. cbn.
        split; [exact Hkey |]. split.
        { right. apply cursor_next_is; assumption. }
        split; [exact Hstop |].
        intros base b v id HA Hlt Hin. exfalso.
        pose proof (Hpmax _ (stored_key_present A inv HR _ _ _ HA) Hlt) as Hc.
        rewrite (between_is_field (NumericIndex.make_bucket_key f base)
                   p_key target) in Hpp.
        -- discriminate.
        -- apply bucket_key_prefix.
        -- apply bucket_key_prefix.
        -- exact Hc.
        -- apply key_lt_le. exact HpT.
    + eexists. split; [reflexivity |]. cbn.
      split; [exact Hkey |]. split; [left; reflexivity |].
      split; [exact Hstop |].
      intros base b v id HA Hlt Hin. exfalso.
      pose proof (cursor_prev_None inv key Hprev _
                    (stored_key_present A inv HR _ _ _ HA)) as Hc.
      apply key_lt_not_le in Hlt. contradiction.
  - apply orb_false_iff in Hcond as [Hpre Hbase].
    apply negb_false_iff in Hpre.
    eexists. split; [reflexivity |]. cbn.
    destruct (field_key_of_prefix A inv HR f key data Hf Hkey Hpre)
      as (base0 & b0 & -> & HA0 & -> & Hb0).
    rewrite parse_make_bucket_key in Hbase by exact Hb0.
    split; [exact Hkey |]. split; [left; reflexivity |].
    split; [left; exact Hpre |].
    apply (before_field_key base0 b0 HA0). zlia.
Qed.

Lemma range_start_missing :
  cursor_set_range inv target = None ->
  match NumericIndex.range_start inv f lo with
  | Some st => start_ok st
  | None => forall base b, A !! (f, base) = Some b -> False
  end.
Proof.
  intros Hset. unfold NumericIndex.range_start. fold target. rewrite Hset.
  pose proof (cursor_set_range_None inv target Hset) as Hall.
  destruct (cursor_last inv) as [[key data] |] eqn:Hlast.
  - apply cursor_last_Some in Hlast as (Hkey & Hmax).
    pose proof (Hall key (mk_is_Some _ _ Hkey)) as HkT.
    destruct (has_field_prefix key f) eqn:Hpre.
    + destruct (field_key_of_prefix A inv HR f key data Hf Hkey Hpre)
        as (base0 & b0 & -> & HA0 & -> & Hb0).
      assert (Hlen : (0 <? length (Bucket.serialize b0))%nat = true).
      { apply Nat.ltb_lt. pose proof (serialize_length b0). lia. }
      rewrite Hlen. cbn [andb start_ok].
      split; [exact Hkey |]. split; [left; reflexivity |].
      split; [left; exact Hpre |].
      apply (before_field_key base0 b0 HA0).
      apply bucket_key_lt in HkT; [lia | assumption | assumption].
    + rewrite andb_false_r. intros base b HA.
      pose proof (Hmax _ (stored_key_present A inv HR _ _ _ HA)) as Hc.
      rewrite (between_is_field (NumericIndex.make_bucket_key f base)
                 key target) in Hpre.
      * discriminate.
      * apply bucket_key_prefix.
      * apply bucket_key_prefix.
      * exact Hc.
      * apply key_lt_le. exact HkT.
  - intros base b HA.
    destruct (stored_key_present A inv HR _ _ _ HA) as [d Hd].
    rewrite (cursor_last_None inv Hlast) in Hd. discriminate.
Qed.

End RangeStart.

(** ** [range] returns the ids recorded within the bounds *)

Section Range.
Context `{BitmapCodec}.
Variable F : string -> Z -> option Z.
Variable A : gmap (string * Z) Bucket.
Variable inv : gmap string (list byte).
Hypothesis HR : repr A inv.
Hypothesis HI : index_inv F A.
Variable f : string.
Hypothesis Hf : colon_free f = true.
Variables lo hi : Z.
Hypothesis Hlo : is_u32 lo.

(** The first round when the cursor was left one entry before the entry
    under examination: that entry is scanned a second time. *)
Lemma range_loop_revisit (fuel : nat) (pos key : string) (data : list byte)
    (res : gset Z) :
  inv !! key = Some data -> cursor_next inv pos = Some (key, data) ->
  (size (remaining inv key) < fuel)%nat -> stop_ok A f key ->
  exists X,
    NumericIndex.range_loop (S fuel) inv f lo hi pos key data res
    = Some (Ok X) /\
    forall id, id ∈ X <-> id ∈ res \/ from_key A f lo hi key id.
Proof.
  intros Hkey Hnext Hfuel Hstop.
  destruct (range_loop_spec A inv HR f Hf lo hi (S fuel) key data res
              Hkey ltac:(lia) Hstop) as (X0 & HX0 & HX0spec).
  cbn [NumericIndex.range_loop] in HX0 |- *.
  destruct (has_field_prefix key f) eqn:Hpre; cbn [negb] in HX0 |- *;
    [| exists X0; auto].
  destruct (field_key_of_prefix A inv HR f key data Hf Hkey Hpre)
    as (base0 & b0 & -> & HA0 & -> & Hb0).
  rewrite parse_make_bucket_key in HX0 |- * by exact Hb0.
  destruct (base0 >? hi); [exists X0; auto |].
  destruct (repr_dom A inv HR _ _ _ HA0) as (_ & _ & Hok0).
  rewrite (deserialize_stored base0 b0 Hok0) in HX0 |- *.
  assert (Hne : Bucket.is_empty b0 = false).
  { unfold Bucket.is_empty. pose proof (ok_nonempty _ _ Hok0).
    destruct (ids b0); congruence. }
  rewrite Hne. rewrite Hnext.
  destruct (range_loop_spec A inv HR f Hf lo hi fuel _ _
              (NumericIndex.scan_bucket b0 lo hi res) Hkey Hfuel Hstop)
    as (X & HX & HXspec).
  exists X. split; [exact HX |]. intros id. rewrite HXspec.
  rewrite (scan_bucket_spec b0 lo hi (ok_wf _ _ Hok0))
    by exact (ok_nonempty _ _ Hok0).
  rewrite (from_key_split A inv HR f Hf lo hi base0 b0 id HA0). tauto.
Qed.

Definition held (id : Z) : Prop :=
  exists base b, A !! (f, base) = Some b /\ in_bounds b lo hi id.

Lemma from_start (key : string) (id : Z) :
  before A f lo key -> from_key A f lo hi key id <-> held id.
Proof.
  intros Hbefore. split.
  - intros (base & b & HA & _ & Hin). exists base, b. auto.
  - intros (base & b & HA & Hin). exists base, b. split; [exact HA |].
    split; [| exact Hin].
    destruct (key_lt_or_le (NumericIndex.make_bucket_key f base) key)
      as [Hc | Hc]; [exfalso | exact Hc].
    destruct Hin as (v & Hv & Hrange).
    pose proof (Hbefore base b v id HA Hc Hv). lia.
Qed.

Lemma range_from_start (st : string * string * list byte) :
  start_ok A inv f lo st ->
  exists X,
    (let '(pos, key, data) := st in
     NumericIndex.range_loop (S (S (size inv))) inv f lo hi pos key data ∅)
    = Some (Ok X) /\
    forall id, id ∈ X <-> held id.
Proof.
  destruct st as [[pos key] data]. intros (Hkey & Hpos & Hstop & Hbefore).
  pose proof (remaining_bound inv key) as Hbound.
  destruct Hpos as [-> | Hnext].
  - destruct (range_loop_spec A inv HR f Hf lo hi (S (S (size inv)))
                key data ∅ Hkey ltac:(lia) Hstop) as (X & HX & HXspec).
    exists X. split; [exact HX |]. intros id.
    rewrite HXspec, (from_start key id Hbefore), elem_of_empty. tauto.
  - destruct (range_loop_revisit (S (size inv)) pos key data ∅ Hkey Hnext
                ltac:(lia) Hstop) as (X & HX & HXspec).
    exists X. split; [exact HX |]. intros id.
    rewrite HXspec, (from_start key id Hbefore), elem_of_empty. tauto.
Qed.

Lemma range_held (s : NumericIndex) :
  inverted_dbi_ s = inv ->
  exists X,
    NumericIndex.range s f lo hi = Some (Ok X) /\
    forall id, id ∈ X <-> held id.
Proof.
  intros Hs. unfold NumericIndex.range. rewrite Hs. cbv zeta.
  destruct (cursor_set_range inv (NumericIndex.make_bucket_key f lo))
    as [[key data] |] eqn:Hset.
  - destruct (range_start_found F A inv HR HI f Hf lo Hlo key data Hset)
      as (st & -> & Hst).
    destruct (range_from_start st Hst) as (X & HX & HXspec).
    exists X. destruct st as [[pos k] d]. auto.
  - pose proof (range_start_missing F A inv HR HI f Hf lo Hlo Hset) as Hm.
    destruct (NumericIndex.range_start inv f lo) as [st |].
    + destruct (range_from_start st Hm) as (X & HX & HXspec).
      exists X. destruct st as [[pos k] d]. auto.
    + exists ∅. split; [reflexivity |]. intros id. rewrite elem_of_empty. split; [tauto |].
      intros (base & b & HA & _). destruct (Hm base b HA).
Qed.

Lemma held_forward (id : Z) :
  held id <-> exists v, F f id = Some v /\ lo <= v <= hi.
Proof.
  split.
  - intros (base & b & HA & v & Hin & Hv). exists v. split; [| exact Hv].
    apply (inv_entries F A HI). exists base, b. auto.
  - intros (v & HF & Hv). apply (inv_entries F A HI) in HF
      as (base & b & HA & Hin).
    exists base, b. split; [exact HA |]. exists v. auto.
Qed.

End Range.

Section RangeState.
Context `{BitmapCodec}.

Lemma range_ok (s : NumericIndex) (f : string) (lo hi : Z) :
  state_inv s -> colon_free f = true -> is_u32 lo ->
  exists X,
    NumericIndex.range s f lo hi = Some (Ok X) /\
    forall id,
      id ∈ X <-> exists v, fwd_of s f id = Some v /\ lo <= v <= hi.
Proof.
  intros (_ & A & HR & HI) Hf Hlo.
  destruct (range_held (fwd_of s) A (inverted_dbi_ s) HR HI f Hf lo hi Hlo s
              eq_refl) as (X & HX & HXspec).
  exists X. split; [exact HX |]. intros id. rewrite HXspec.
  apply (held_forward (fwd_of s) A HI).
Qed.

End RangeState.

(** ** Range queries against the forward table *)

Definition range_sample_ops : list op :=
  [OpPut "y" 3 2200; OpPut "y" 1 800; OpPut "y" 2 1500; OpPut "x" 7 900;
   OpPut "y" 4 2201; OpPut "y" 5 799; OpPut "y" 6 3000; OpPut "y" 4 1000;
   OpRemove "y" 3].

Definition range_sample : NumericIndex :=
  Eval vm_compute in
    match run range_sample_ops NumericIndex.empty with
    | Some s => s
    | None => NumericIndex.empty
    end.

Example range_sample_result :
  NumericIndex.range range_sample "y" 800 2200 = Some (Ok {[ 1; 2; 4 ]}).
Proof. vm_compute. reflexivity. Qed.

Lemma forward_value_u32 `{BitmapCodec} (s : NumericIndex) (f : string)
    (id : Z) (X : gset Z) (lo hi : Z) :
  colon_free f = true ->
  (forall id, id ∈ X <-> exists v, fwd_of s f id = Some v /\ lo <= v <= hi) ->
  id ∈ X <->
  is_u32 id /\ exists v, forward_value s f id = Some v /\ lo <= v <= hi.
Proof.
  intros Hf HX. rewrite HX. split.
  - intros (v & Hv & Hr). destruct (fwd_of_guard s f id v Hv) as [_ Hid].
    split; [exact Hid |]. exists v. rewrite <- (fwd_of_value s f id Hf Hid).
    auto.
  - intros (Hid & v & Hv & Hr). exists v.
    rewrite (fwd_of_value s f id Hf Hid). auto.
Qed.

Lemma stored_bucket_wf `{BitmapCodec} (s : NumericIndex) (k : string)
    (p : list byte) (b : Bucket) :
  state_inv s -> inverted_dbi_ s !! k = Some p ->
  Bucket.deserialize p (NumericIndex.parse_bucket_key_val k) = Ok b ->
  exists f base,
    k = NumericIndex.make_bucket_key f base /\ colon_free f = true /\
    bucket_ok base b.
Proof.
  intros (_ & A & HR & _) Hk Hd.
  destruct (repr_key A _ HR _ _ Hk) as (g & base & b0 & -> & HA).
  destruct (repr_dom A _ HR _ _ _ HA) as (Hg & Hb & Hok).
  rewrite (repr_get A _ HR _ _ _ HA) in Hk. injection Hk as <-.
  rewrite parse_make_bucket_key in Hd by exact Hb.
  rewrite (deserialize_stored base b0 Hok) in Hd. injection Hd as <-.
  exists g, base. auto.
Qed.

(** C1, as the code has it without a restriction on field names: a bucket
    of the field "x:y" answers a query on the field "x", whose forward table
    has no entry for the id. *)
Example range_colon_field_counterexample :
  exists s,
    NumericIndex.put NumericIndex.empty "x:y" 1 5 = Ok s /\
    NumericIndex.range s "x" 0 10 = Some (Ok {[ 1 ]}) /\
    forward_value s "x" 1 = None.
Proof.
  eexists. split; [vm_compute; reflexivity |].
  split; vm_compute; reflexivity.
Qed.

(** C1: in every state reached by [put] and [remove] on fields without a
    colon, no bucket standing at 65535 entries when [put] is called,
    [range field min max] returns exactly the 32-bit ids whose forward value
    for the field lies in [min, max]; and on every stored bucket the bitmap
    union of the full-overlap branch gives what the per-entry filter gives. *)
Theorem range_exact `{BitmapCodec} (s : NumericIndex) (f : string)
    (lo hi : Z) :
  reachable s -> colon_free f = true -> is_u32 lo -> is_u32 hi ->
  exists X,
    NumericIndex.range s f lo hi = Some (Ok X) /\
    (forall id,
       id ∈ X <->
       is_u32 id /\
       exists v, forward_value s f id = Some v /\ lo <= v <= hi) /\
    (forall k p b res,
       inverted_dbi_ s !! k = Some p ->
       Bucket.deserialize p (NumericIndex.parse_bucket_key_val k) = Ok b ->
       NumericIndex.scan_bucket b lo hi res
       = NumericIndex.filter_entries b lo hi res).
Proof.
  intros Hs Hf Hlo _. pose proof (reachable_inv s Hs) as Hinv.
  destruct (range_ok s f lo hi Hinv Hf Hlo) as (X & HX & HXspec).
  exists X. split; [exact HX |]. split.
  - intros id. exact (forward_value_u32 s f id X lo hi Hf HXspec).
  - intros k p b res Hk Hd.
    destruct (stored_bucket_wf s k p b Hinv Hk Hd) as (g & base & _ & _ & Hok).
    apply scan_bucket_filter; [exact (ok_wf _ _ Hok) |].
    exact (ok_nonempty _ _ Hok).
Qed.

Lemma range_sample_reachable : reachable range_sample.
Proof.
  apply (run_reachable range_sample_ops NumericIndex.empty);
    [apply reach_empty | vm_compute; reflexivity].
Qed.

Lemma range_exact_witness :
  reachable range_sample /\ colon_free "y" = true /\
  is_u32 800 /\ is_u32 2200 /\
  exists X,
    NumericIndex.range range_sample "y" 800 2200 = Some (Ok X) /\
    (forall id,
       id ∈ X <->
       is_u32 id /\
       exists v, forward_value range_sample "y" id = Some v /\
                 800 <= v <= 2200) /\
    (forall k p b res,
       inverted_dbi_ range_sample !! k = Some p ->
       Bucket.deserialize p (NumericIndex.parse_bucket_key_val k) = Ok b ->
       NumericIndex.scan_bucket b 800 2200 res
       = NumericIndex.filter_entries b 800 2200 res).
Proof.
  assert (Hlo : is_u32 800) by (unfold is_u32; lia).
  assert (Hhi : is_u32 2200) by (unfold is_u32; lia).
  split; [exact range_sample_reachable |].
  split; [reflexivity |]. split; [exact Hlo |]. split; [exact Hhi |].
  exact (range_exact range_sample "y" 800 2200 range_sample_reachable
           eq_refl Hlo Hhi).
Defined.

(** ** Forward/inverted consistency *)

(** The stored bucket at key [k], a key of field [f], holds [id]. *)
Definition holds `{BitmapCodec} (s : NumericIndex) (f : string) (id : Z)
    (k : string) (b : Bucket) : Prop :=
  has_field_prefix k f = true /\
  exists p,
    inverted_dbi_ s !! k = Some p /\
    Bucket.deserialize p (NumericIndex.parse_bucket_key_val k) = Ok b /\
    id ∈ ids b.

(** Exactly one bucket of the field holds [id]; its base is at most [v] and
    the delta stored alongside [id] is [v] minus the base. *)
Definition consistent `{BitmapCodec} (s : NumericIndex) (f : string)
    (id v : Z) : Prop :=
  exists k b,
    holds s f id k b /\
    (forall k' b', holds s f id k' b' -> k' = k) /\
    base_value b <= v /\
    forall i, ids b !! i = Some id -> deltas b !! i = Some (v - base_value b).

(** C2, as the code has it without a restriction on field names: a [put]
    on the field "x" lands in the bucket of the field "x:y", which then
    holds the id twice, once with a delta that is not the forward value of
    ("x:y", 1) minus the base. *)
Example consistency_colon_field_counterexample :
  exists s1 s2,
    NumericIndex.put NumericIndex.empty "x:y" 1 5 = Ok s1 /\
    NumericIndex.put s1 "x" 1 7 = Ok s2 /\
    forward_value s2 "x:y" 1 = Some 5 /\
    ~ consistent s2 "x:y" 1 5.
Proof.
  eexists. eexists. split; [vm_compute; reflexivity |].
  split; [vm_compute; reflexivity |].
  split; [vm_compute; reflexivity |].
  intros (k & b & (_ & p & Hk & Hd & _) & _ & _ & Hdelta).
  apply elem_of_map_to_list in Hk.
  match type of Hk with
  | _ ∈ ?l => let l' := eval vm_compute in l in change l with l' in Hk
  end.
  apply list_elem_of_singleton in Hk. injection Hk as -> ->.
  vm_compute in Hd. injection Hd as <-.
  specialize (Hdelta 1%nat eq_refl). vm_compute in Hdelta. discriminate.
Qed.

(** C2: in every state reached by [put] and [remove] on fields without a
    colon, no bucket standing at 65535 entries when [put] is called, each
    forward entry (field, id) with value v has exactly one bucket of the
    field holding id; the base of that bucket is at most v, and v minus the
    base is the delta stored alongside id. *)
Theorem forward_inverted_consistent `{BitmapCodec} (s : NumericIndex)
    (f : string) (id v : Z) :
  reachable s -> colon_free f = true -> is_u32 id ->
  forward_value s f id = Some v -> consistent s f id v.
Proof.
  intros Hs Hf Hid Hv. pose proof (reachable_inv s Hs) as Hinv.
  destruct Hinv as (Hwf & A & HR & HI).
  rewrite <- (fwd_of_value s f id Hf Hid) in Hv.
  apply (inv_entries _ A HI) in Hv as (base & b & HA & Hin).
  destruct (repr_dom A _ HR _ _ _ HA) as (_ & Hb & Hok).
  pose proof (ok_wf _ _ Hok) as Hbwf.
  destruct (bucket_entry_facts b v id Hbwf Hin) as (Hle & _ & _ & _ & Hmem).
  exists (NumericIndex.make_bucket_key f base), b. split; [| split; [| split]].
  - split; [apply bucket_key_prefix |]. exists (Bucket.serialize b).
    split; [exact (repr_get A _ HR _ _ _ HA) |].
    rewrite parse_make_bucket_key by exact Hb.
    split; [exact (deserialize_stored base b Hok) | exact Hmem].
  - intros k' b' (Hpre & p' & Hk' & Hd' & Hmem').
    destruct (field_key_of_prefix A _ HR f k' p' Hf Hk' Hpre)
      as (base' & b0 & -> & HA' & -> & Hb').
    destruct (repr_dom A _ HR _ _ _ HA') as (_ & _ & Hok').
    rewrite parse_make_bucket_key in Hd' by exact Hb'.
    rewrite (deserialize_stored base' b0 Hok') in Hd'. injection Hd' as <-.
    destruct (bucket_id_entry b0 id (wf_length _ (ok_wf _ _ Hok')) Hmem')
      as (v' & Hin').
    destruct (entry_bucket_unique _ A _ f base' base b0 b v' v id HR HI
                HA' Hin' HA Hin) as [-> _].
    reflexivity.
  - exact Hle.
  - intros i Hi.
    destruct (bucket_entry_lookup b v id Hin) as (i0 & d & Hd0 & Hi0 & ->).
    rewrite (NoDup_lookup (ids b) i i0 id (wf_unique b Hbwf) Hi Hi0).
    rewrite Hd0. f_equal. lia.
Qed.

Lemma forward_inverted_consistent_witness :
  reachable range_sample /\ colon_free "y" = true /\ is_u32 4 /\
  forward_value range_sample "y" 4 = Some 1000 /\
  consistent range_sample "y" 4 1000.
Proof.
  assert (Hid : is_u32 4) by (unfold is_u32; lia).
  assert (Hv : forward_value range_sample "y" 4 = Some 1000)
    by (vm_compute; reflexivity).
  split; [exact range_sample_reachable |]. split; [reflexivity |].
  split; [exact Hid |]. split; [exact Hv |].
  exact (forward_inverted_consistent range_sample "y" 4 1000
           range_sample_reachable eq_refl Hid Hv).
Defined.

(** ** [put] as a point update *)

(** C9, as the code has it without a restriction on field names: with the
    id stored at value 10 for the field "x:y", the entry of the field "x"
    moves from 10 to 20 and the query on "x" at 10 still returns the id. *)
Example point_update_colon_field_counterexample :
  exists s0 s1 s2,
    NumericIndex.put NumericIndex.empty "x:y" 1 10 = Ok s0 /\
    NumericIndex.put s0 "x" 1 10 = Ok s1 /\
    NumericIndex.put s1 "x" 1 20 = Ok s2 /\
    NumericIndex.range s2 "x" 10 10 = Some (Ok {[ 1 ]}).
Proof.
  eexists. eexists. eexists. split; [vm_compute; reflexivity |].
  split; [vm_compute; reflexivity |].
  split; [vm_compute; reflexivity |].
  vm_compute. reflexivity.
Qed.

(** C9: from a state reached by [put] and [remove] on fields without a
    colon, with no bucket at 65535 entries before either call,
    [put field id v1] followed by [put field id v2], v2 <> v1, both succeed;
    afterwards [range field v1 v1] excludes id, [range field v2 v2]
    contains id and the forward table maps (field, id) to v2. *)
Theorem put_point_update `{BitmapCodec} (s s1 : NumericIndex) (f : string)
    (id v1 v2 : Z) :
  reachable s -> colon_free f = true ->
  is_u32 id -> is_u32 v1 -> is_u32 v2 -> v2 <> v1 ->
  small_buckets s -> NumericIndex.put s f id v1 = Ok s1 ->
  small_buckets s1 ->
  exists s2 X1 X2,
    NumericIndex.put s1 f id v2 = Ok s2 /\
    NumericIndex.range s2 f v1 v1 = Some (Ok X1) /\ (id ∉ X1) /\
    NumericIndex.range s2 f v2 v2 = Some (Ok X2) /\ id ∈ X2 /\
    forward_value s2 f id = Some v2.
Proof.
  intros Hs Hf Hid Hv1 Hv2 Hne Hsm Hput1 Hsm1.
  pose proof (reach_put s f id v1 s1 Hs Hf Hid Hv1 Hsm Hput1) as Hs1.
  destruct (put_ok s1 f id v2 (reachable_inv s1 Hs1) Hsm1 Hf Hid Hv2)
    as (s2 & Hput2 & Hinv2 & Hfwd2).
  assert (Hval : fwd_of s2 f id = Some v2).
  { rewrite Hfwd2. unfold fwd_update. rewrite decide_True by auto.
    reflexivity. }
  destruct (range_ok s2 f v1 v1 Hinv2 Hf Hv1) as (X1 & HX1 & HX1spec).
  destruct (range_ok s2 f v2 v2 Hinv2 Hf Hv2) as (X2 & HX2 & HX2spec).
  exists s2, X1, X2. split; [exact Hput2 |].
  split; [exact HX1 |]. split; [| split; [exact HX2 | split]].
  - rewrite HX1spec. intros (v & Hv & Hr).
    rewrite Hval in Hv. injection Hv as <-. lia.
  - rewrite HX2spec. exists v2. split; [exact Hval | lia].
  - rewrite <- (fwd_of_value s2 f id Hf Hid). exact Hval.
Qed.

Definition point_sample : NumericIndex :=
  Eval vm_compute in
    match NumericIndex.put NumericIndex.empty "x" 1 10 with
    | Ok s => s
    | Err _ => NumericIndex.empty
    end.

Lemma small_buckets_decide `{BitmapCodec} (s : NumericIndex) :
  bool_decide (small_buckets s) = true -> small_buckets s.
Proof. apply bool_decide_eq_true. Qed.

Lemma put_point_update_witness :
  exists s2 X1 X2,
    NumericIndex.put point_sample "x" 1 20 = Ok s2 /\
    NumericIndex.range s2 "x" 10 10 = Some (Ok X1) /\ (1 ∉ X1) /\
    NumericIndex.range s2 "x" 20 20 = Some (Ok X2) /\ 1 ∈ X2 /\
    forward_value s2 "x" 1 = Some 20.
Proof.
  assert (Hid : is_u32 1) by (unfold is_u32; lia).
  assert (Hv1 : is_u32 10) by (unfold is_u32; lia).
  assert (Hv2 : is_u32 20) by (unfold is_u32; lia).
  assert (Hne : 20 <> 10) by lia.
  assert (Hsm : small_buckets NumericIndex.empty)
    by (apply small_buckets_decide; vm_compute; reflexivity).
  assert (Hput : NumericIndex.put NumericIndex.empty "x" 1 10 = Ok point_sample)
    by (vm_compute; reflexivity).
  assert (Hsm1 : small_buckets point_sample)
    by (apply small_buckets_decide; vm_compute; reflexivity).
  exact (put_point_update NumericIndex.empty point_sample "x" 1 10 20
           reach_empty eq_refl Hid Hv1 Hv2 Hne Hsm Hput Hsm1).
Defined.

(** ** A saturated bucket holding a single value *)

Lemma split_index_single_value (b : Bucket) :
  length (deltas b) = length (ids b) -> (2 <= length (ids b))%nat ->
  (forall i j x y, deltas b !! i = Some x -> deltas b !! j = Some y -> x = y) ->
  NumericIndex.split_index b = length (deltas b).
Proof.
  intros Hlen Htwo Hsame.
  destruct (split_index_spec b Hlen Htwo) as [[Hlt Hcut] | [Hk _]];
    [exfalso | exact Hk].
  destruct Hcut as ((Hk0 & Hk1) & Hdiff & _). apply Hdiff.
  apply (Hsame (NumericIndex.split_index b - 1)%nat (NumericIndex.split_index b));
    apply list_lookup_lookup_total_lt; lia.
Qed.

Section Oversize.
Context `{BitmapCodec}.

(** C4: in a state reached by [put] and [remove] on fields without a colon,
    with no bucket at 65535 entries, let a stored bucket of the field be
    full and hold the value v in every entry. [put] of a new id with the
    value v does not split it: the only change to the inverted table is
    that the bucket, under its key, has the entry added, and
    [range field v v] then returns exactly the ids recorded with the value
    v, among them the new id and every id the bucket held. *)
Theorem single_value_bucket_grows (s : NumericIndex) (f : string) (id v : Z)
    (k : string) (p : list byte) (b : Bucket) :
  reachable s -> small_buckets s ->
  colon_free f = true -> is_u32 id -> is_u32 v ->
  forward_value s f id = None ->
  has_field_prefix k f = true ->
  inverted_dbi_ s !! k = Some p ->
  Bucket.deserialize p (NumericIndex.parse_bucket_key_val k) = Ok b ->
  Bucket.is_full b = true ->
  Forall (fun d => base_value b + d = v) (deltas b) ->
  exists s' b' X,
    NumericIndex.put s f id v = Ok s' /\
    Bucket.add b v id = Ok b' /\
    length (ids b') = S (length (ids b)) /\
    inverted_dbi_ s' = <[k := Bucket.serialize b']> (inverted_dbi_ s) /\
    Bucket.deserialize (Bucket.serialize b')
      (NumericIndex.parse_bucket_key_val k) = Ok (clean b') /\
    NumericIndex.range s' f v v = Some (Ok X) /\
    (forall id',
       id' ∈ X <-> is_u32 id' /\ forward_value s' f id' = Some v) /\
    id ∈ X /\ (forall id', id' ∈ ids b -> id' ∈ X).
Proof.
  intros Hs Hsm Hf Hid Hv Hnew Hpre Hk Hd Hfull Hsame.
  pose proof (reachable_inv s Hs) as Hinv.
  destruct (put_ok s f id v Hinv Hsm Hf Hid Hv) as (s' & Hput & Hinv' & Hfwd).
  destruct Hinv as (Hwf & A & HR & HI).
  destruct (field_key_of_prefix A _ HR f k p Hf Hk Hpre)
    as (base0 & b0 & -> & HA0 & -> & Hb0).
  destruct (repr_dom A _ HR _ _ _ HA0) as (_ & _ & Hok0).
  rewrite parse_make_bucket_key in Hd |- * by exact Hb0.
  rewrite (deserialize_stored base0 b0 Hok0) in Hd. injection Hd as <-.
  pose proof (ok_wf _ _ Hok0) as Hbwf. pose proof (wf_length _ Hbwf) as Hlen.
  pose proof (ok_base _ _ Hok0) as Hbase.
  unfold Bucket.is_full in Hfull. apply Nat.leb_le in Hfull.
  unfold MAX_SIZE in Hfull. rewrite Forall_forall in Hsame.
  (* every entry of the bucket has the value v *)
  assert (Hentries : forall v' id', (v', id') ∈ bucket_entries b0 -> v' = v).
  { intros v' id' Hin.
    destruct (bucket_entry_lookup b0 v' id' Hin) as (i & d & Hdi & _ & ->).
    apply Hsame. apply list_elem_of_lookup. eauto. }
  assert (Hfirst : exists id0, (v, id0) ∈ bucket_entries b0).
  { assert (Hm : exists id0, id0 ∈ ids b0).
    { destruct (ids b0) as [|id0 rest]; [cbn in Hfull; lia |].
      exists id0. left. }
    destruct Hm as (id0 & Hm).
    destruct (bucket_id_entry b0 id0 Hlen Hm) as (v' & Hin).
    rewrite (Hentries v' id0 Hin) in Hin. eauto. }
  destruct Hfirst as (id0 & Hin0).
  destruct (bucket_entry_facts b0 v id0 Hbwf Hin0) as (Hle & Hmax & _).
  rewrite Hbase in Hle, Hmax.
  assert (Hfloor : forall base' b', A !! (f, base') = Some b' -> base' <= v ->
                                    base' <= base0).
  { intros base' b' HA' Hle'.
    destruct (Z_le_gt_dec base' base0) as [Hc | Hc]; [exact Hc | exfalso].
    pose proof (inv_ordered _ A HI f base0 base' b0 b' v id0 HA0 HA'
                  ltac:(lia) Hin0). lia. }
  (* the new id is not in the bucket *)
  assert (Hfresh : id ∉ ids b0).
  { intros Hm. destruct (bucket_id_entry b0 id Hlen Hm) as (v' & Hin).
    assert (Hsome : fwd_of s f id = Some v').
    { apply (inv_entries _ A HI). exists base0, b0. auto. }
    rewrite (fwd_of_value s f id Hf Hid) in Hsome. congruence. }
  destruct (bucket_add_wf b0 v id Hbwf Hv Hid Hfresh ltac:(lia) ltac:(lia))
    as (b1 & Hadd & Hwf1 & Hbase1 & Hperm & Hlen1).
  (* the branch taken *)
  assert (Hbranch : NumericIndex.add_to_buckets (inverted_dbi_ s) f v id
                    = Ok (<[NumericIndex.make_bucket_key f base0
                              := Bucket.serialize b1]> (inverted_dbi_ s))).
  { rewrite (add_to_buckets_found A _ HR f v id Hf Hv base0 b0 HA0 Hle Hmax
               Hfloor).
    assert (E1 : (MAX_SIZE <=? length (ids b0))%nat = true)
      by (apply Nat.leb_le; unfold MAX_SIZE; lia).
    rewrite E1. cbv zeta.
    rewrite split_index_single_value; [| exact Hlen | lia |].
    - rewrite Nat.eqb_refl, Hadd. reflexivity.
    - intros i j x y Hx Hy.
      assert (base_value b0 + x = v).
      { apply Hsame, list_elem_of_lookup. eauto. }
      assert (base_value b0 + y = v).
      { apply Hsame, list_elem_of_lookup. eauto. }
      lia. }
  assert (Hs' : inverted_dbi_ s'
                = <[NumericIndex.make_bucket_key f base0
                      := Bucket.serialize b1]> (inverted_dbi_ s)).
  { unfold NumericIndex.put, NumericIndex.put_internal in Hput.
    unfold forward_value in Hnew.
    destruct (forward_dbi_ s !! NumericIndex.make_forward_key f id);
      [discriminate |].
    cbn [rbind] in Hput. rewrite Hbranch in Hput. cbn [rbind] in Hput.
    injection Hput as <-. reflexivity. }
  destruct (range_ok s' f v v Hinv' Hf Hv) as (X & HX & HXspec).
  assert (HXv : forall id', id' ∈ X <-> fwd_of s' f id' = Some v).
  { intros id'. rewrite HXspec. split.
    - intros (v' & Hv' & Hr). replace v with v' by lia. exact Hv'.
    - intros Hv'. exists v. split; [exact Hv' | lia]. }
  exists s', b1, X. split; [exact Hput |]. split; [exact Hadd |].
  split; [exact Hlen1 |]. split; [exact Hs' |]. split; [| split; [exact HX |]].
  { rewrite <- serialize_clean. apply deserialize_stored. apply clean_ok.
    - exact Hwf1.
    - congruence.
    - unfold Bucket.add in Hadd. destruct (ids b1); [cbn in Hlen1; lia |].
      discriminate.
    - pose proof (small_buckets_repr s A HR Hsm _ _ _ HA0). lia. }
  split; [| split].
  - intros id'. rewrite HXv. split.
    + intros Hv'. destruct (fwd_of_guard s' f id' v Hv') as [_ Hid'].
      rewrite (fwd_of_value s' f id' Hf Hid') in Hv'. auto.
    + intros [Hid' Hv']. rewrite (fwd_of_value s' f id' Hf Hid'). exact Hv'.
  - apply HXv. rewrite Hfwd. unfold fwd_update.
    rewrite decide_True by auto. reflexivity.
  - intros id' Hm. apply HXv.
    destruct (bucket_id_entry b0 id' Hlen Hm) as (v' & Hin).
    rewrite (Hentries v' id' Hin) in Hin.
    assert (Hsome : fwd_of s f id' = Some v).
    { apply (inv_entries _ A HI). exists base0, b0. auto. }
    rewrite Hfwd. unfold fwd_update.
    destruct (decide (f = f /\ id' = id)) as [[_ ->] | _]; [| exact Hsome].
    contradiction.
Qed.

End Oversize.

(** ** The states holding one value under the ids 0, ..., n-1 *)

Fixpoint sv_ids (n : nat) : list Z :=
  match n with
  | O => []
  | S m => Z.of_nat m :: sv_ids m
  end.

Definition sv_bucket (v : Z) (n : nat) : Bucket :=
  mkBucket v (replicate n 0) (sv_ids n) (list_to_set (sv_ids n)) false.

Fixpoint sv_fwd (f : string) (v : Z) (n : nat) : gmap string (list byte) :=
  match n with
  | O => ∅
  | S m =>
      <[NumericIndex.make_forward_key f (Z.of_nat m) := le_bytes 4 v]>
        (sv_fwd f v m)
  end.

Definition sv_inv `{BitmapCodec} (f : string) (v : Z) (n : nat)
  : gmap string (list byte) :=
  match n with
  | O => ∅
  | S _ =>
      {[ NumericIndex.make_bucket_key f v := Bucket.serialize (sv_bucket v n) ]}
  end.

(** What [n] calls [put f i v], i = 0, ..., n-1, leave behind
    (see [sv_put]). *)
Definition sv_state `{BitmapCodec} (f : string) (v : Z) (n : nat)
  : NumericIndex :=
  mkIndex (sv_fwd f v n) (sv_inv f v n).

Lemma sv_ids_length (n : nat) : length (sv_ids n) = n.
Proof. induction n; cbn; congruence. Qed.

Lemma sv_ids_elem (n : nat) (x : Z) :
  x ∈ sv_ids n <-> 0 <= x < Z.of_nat n.
Proof.
  induction n as [|n IH]; cbn [sv_ids].
  - rewrite elem_of_nil. lia.
  - rewrite elem_of_cons, IH. lia.
Qed.

Lemma sv_ids_NoDup (n : nat) : NoDup (sv_ids n).
Proof.
  induction n as [|n IH]; cbn [sv_ids]; constructor; [| exact IH].
  rewrite sv_ids_elem. lia.
Qed.

Lemma replicate_sorted (n : nat) (x : Z) : StronglySorted Z.le (replicate n x).
Proof.
  induction n as [|n IH]; cbn; constructor; [exact IH |].
  apply Forall_forall. intros y Hy. apply elem_of_replicate in Hy as [-> _].
  lia.
Qed.

Lemma sv_bucket_wf (v : Z) (n : nat) :
  is_u32 v -> Z.of_nat n <= 2^32 -> bucket_wf (sv_bucket v n).
Proof.
  intros Hv Hn. constructor; cbn.
  - exact Hv.
  - rewrite length_replicate, sv_ids_length. reflexivity.
  - apply replicate_sorted.
  - apply Forall_forall. intros d Hd. apply elem_of_replicate in Hd as [-> _].
    unfold MAX_DELTA, is_u32 in *. lia.
  - apply Forall_forall. intros x Hx. apply sv_ids_elem in Hx.
    unfold is_u32. lia.
  - apply sv_ids_NoDup.
  - reflexivity.
Qed.

Lemma sv_bucket_ok (v : Z) (n : nat) :
  is_u32 v -> (0 < n)%nat -> Z.of_nat n <= 65535 ->
  bucket_ok v (sv_bucket v n).
Proof.
  intros Hv Hpos Hn. constructor; cbn.
  - apply sv_bucket_wf; [exact Hv | lia].
  - reflexivity.
  - reflexivity.
  - destruct n; [lia | discriminate].
  - rewrite sv_ids_length. exact Hn.
Qed.

Section SingleValue.
Context `{BitmapCodec}.
Variable f : string.
Variable v : Z.
Hypothesis Hf : colon_free f = true.
Hypothesis Hv : is_u32 v.

Lemma sv_fwd_lookup (n i : nat) :
  Z.of_nat n <= 2^32 -> Z.of_nat i < 2^32 ->
  sv_fwd f v n !! NumericIndex.make_forward_key f (Z.of_nat i)
  = if (i <? n)%nat then Some (le_bytes 4 v) else None.
Proof.
  intros Hn Hi. induction n as [|n IH]; cbn [sv_fwd].
  - rewrite lookup_empty. reflexivity.
  - destruct (decide (i = n)) as [-> | Hne].
    + rewrite lookup_insert_eq.
      destruct (Nat.ltb_spec n (S n)); [reflexivity | lia].
    + rewrite lookup_insert_ne.
      * rewrite IH by lia.
        destruct (Nat.ltb_spec i n), (Nat.ltb_spec i (S n)); try reflexivity;
          lia.
      * intros Heq. apply make_forward_key_inj in Heq as [_ Heq];
          unfold is_u32; try assumption; lia.
Qed.

Lemma sv_add (n : nat) :
  Bucket.add (sv_bucket v n) v (Z.of_nat n)
  = Ok (mkBucket v (replicate (S n) 0) (sv_ids (S n))
          (list_to_set (sv_ids (S n))) true).
Proof.
  rewrite bucket_add_ok; cbn [base_value sv_bucket]; try assumption;
    unfold MAX_DELTA; try lia.
  rewrite Z.sub_diag.
  change (deltas (sv_bucket v n)) with (replicate n 0).
  assert (Hlb : lower_bound (replicate n 0) 0 = O) by (destruct n; reflexivity).
  rewrite Hlb. reflexivity.
Qed.

Lemma sv_serialize (n : nat) (d : bool) :
  Bucket.serialize (mkBucket v (replicate n 0) (sv_ids n)
                      (list_to_set (sv_ids n)) d)
  = Bucket.serialize (sv_bucket v n).
Proof. reflexivity. Qed.

(** The stored bucket of a reached state of the family. *)
Lemma sv_stored (n : nat) (A : gmap (string * Z) Bucket) :
  (0 < n)%nat -> Z.of_nat n <= 65535 ->
  repr A (sv_inv f v n) -> A !! (f, v) = Some (sv_bucket v n).
Proof.
  intros Hpos Hn HR.
  assert (Hk : sv_inv f v n !! NumericIndex.make_bucket_key f v
               = Some (Bucket.serialize (sv_bucket v n))).
  { unfold sv_inv. destruct n; [lia |]. apply lookup_singleton_eq. }
  destruct (repr_key A _ HR _ _ Hk) as (g & base & b & Heq & HA).
  destruct (repr_dom A _ HR _ _ _ HA) as (Hg & Hb & Hok).
  apply bucket_key_inj in Heq as [<- <-]; try assumption.
  pose proof (repr_get A _ HR _ _ _ HA) as Hget.
  pose proof (deserialize_stored v b Hok) as Hd.
  pose proof (deserialize_stored v (sv_bucket v n)
                (sv_bucket_ok v n Hv Hpos Hn)) as Hd'.
  assert (b = sv_bucket v n) as -> by congruence. exact HA.
Qed.

Lemma sv_put (n : nat) :
  Z.of_nat n <= 65535 -> state_inv (sv_state f v n) ->
  NumericIndex.put (sv_state f v n) f (Z.of_nat n) v
  = Ok (sv_state f v (S n)).
Proof.
  intros Hn (_ & A & HR & HI). cbn [sv_state inverted_dbi_] in HR.
  unfold NumericIndex.put, NumericIndex.put_internal.
  cbn [sv_state forward_dbi_ inverted_dbi_].
  rewrite sv_fwd_lookup by lia. rewrite Nat.ltb_irrefl. cbn [rbind].
  assert (Hadd : NumericIndex.add_to_buckets (sv_inv f v n) f v (Z.of_nat n)
                 = Ok (sv_inv f v (S n))).
  { destruct n as [|m].
    - rewrite (add_to_buckets_missing A _ HR f v _ Hf Hv).
      + change (Bucket.empty v) with (sv_bucket v 0). rewrite sv_add.
        cbn [rbind]. rewrite sv_serialize. cbn [sv_inv].
        rewrite insert_empty. reflexivity.
      + intros base' b' HA. pose proof (repr_get A _ HR _ _ _ HA) as Hp.
        cbn [sv_inv] in Hp. rewrite lookup_empty in Hp. discriminate.
    - pose proof (sv_stored (S m) A ltac:(lia) Hn HR) as HA0.
      rewrite (add_to_buckets_found A _ HR f v _ Hf Hv v _ HA0);
        [| lia | unfold MAX_DELTA; lia | intros; assumption].
      rewrite sv_add. cbn [rbind]. rewrite sv_serialize.
      cbv zeta.
      assert (Hsplit : (MAX_SIZE <=? length (ids (sv_bucket v (S m))))%nat = true ->
                (NumericIndex.split_index (sv_bucket v (S m))
                 =? length (deltas (sv_bucket v (S m))))%nat = true).
      { intros Hfull. apply Nat.leb_le in Hfull. unfold MAX_SIZE in Hfull.
        apply Nat.eqb_eq. apply split_index_single_value.
        - cbn. rewrite length_replicate, sv_ids_length. reflexivity.
        - lia.
        - cbn [deltas sv_bucket]. intros i j x y Hx Hy.
          apply lookup_replicate in Hx as [-> _].
          apply lookup_replicate in Hy as [-> _]. reflexivity. }
      destruct (MAX_SIZE <=? length (ids (sv_bucket v (S m))))%nat.
      + rewrite (Hsplit eq_refl). cbn [sv_inv].
        rewrite insert_singleton_eq. reflexivity.
      + cbn [sv_inv]. rewrite insert_singleton_eq. reflexivity. }
  rewrite Hadd. reflexivity.
Qed.

Lemma sv_small (n : nat) :
  Z.of_nat n < 65535 -> small_buckets (sv_state f v n).
Proof.
  intros Hn k p Hk. cbn [sv_state inverted_dbi_] in Hk.
  destruct n as [|m]; cbn [sv_inv] in Hk.
  - rewrite lookup_empty in Hk. discriminate.
  - apply lookup_singleton_Some in Hk as [<- <-].
    unfold payload_small. rewrite parse_make_bucket_key by exact Hv.
    rewrite deserialize_stored by (apply sv_bucket_ok; [assumption | lia | lia]).
    cbn [ids sv_bucket]. rewrite sv_ids_length. exact Hn.
Qed.

Lemma sv_reachable (n : nat) :
  Z.of_nat n <= 65535 -> reachable (sv_state f v n).
Proof.
  induction n as [|n IH]; intros Hn.
  - apply reach_empty.
  - assert (Hs : reachable (sv_state f v n)) by (apply IH; lia).
    apply (reach_put (sv_state f v n) f (Z.of_nat n) v).
    + exact Hs.
    + exact Hf.
    + unfold is_u32. lia.
    + exact Hv.
    + apply sv_small. lia.
    + apply sv_put; [lia |]. apply reachable_inv. exact Hs.
Qed.

End SingleValue.

(** * Further properties of the code

    ** [Bucket::remove], [Bucket::get_value] and the payload readers *)

Definition demo_bucket : Bucket :=
  mkBucket 100 [0; 5; 5; 9] [7; 3; 8; 1] (list_to_set [7; 3; 8; 1]) false.

Lemma demo_bucket_wf : bucket_wf demo_bucket.
Proof.
  constructor; cbn [demo_bucket base_value deltas ids summary_bitmap].
  - unfold is_u32. lia.
  - reflexivity.
  - repeat (constructor; [| repeat (constructor; try lia)]). constructor.
  - unfold MAX_DELTA. repeat (constructor; [lia |]). constructor.
  - unfold is_u32. repeat (constructor; [lia |]). constructor.
  - by_compute.
  - reflexivity.
Qed.

Lemma find_id_vec_insert (l : list Z) (id : Z) (i : nat) :
  id ∉ l -> (i <= length l)%nat -> find_id (vec_insert i id l) id = Some i.
Proof.
  unfold vec_insert. revert i. induction l as [|x l IH]; intros i Hid Hi.
  - assert (i = O) as -> by (cbn in Hi; lia). cbn. rewrite Z.eqb_refl.
    reflexivity.
  - apply not_elem_of_cons in Hid as [Hne Hid]. destruct i as [|i].
    + cbn. rewrite Z.eqb_refl. reflexivity.
    + cbn [take drop app find_id].
      destruct (Z.eqb_spec x id) as [-> | _]; [congruence |].
      rewrite IH; [reflexivity | exact Hid | cbn in Hi; lia].
Qed.

Lemma delete_vec_insert {A : Type} (l : list A) (x : A) (i : nat) :
  (i <= length l)%nat -> delete i (vec_insert i x l) = l.
Proof.
  unfold vec_insert. revert i. induction l as [|y l IH]; intros i Hi.
  - assert (i = O) as -> by (cbn in Hi; lia). reflexivity.
  - destruct i as [|i]; [reflexivity |].
    cbn [take drop app]. cbn. f_equal. apply IH. cbn in Hi. lia.
Qed.

(** X1: on a bucket that keeps the bucket invariants, [remove id] returns
    true exactly when the bucket holds the id. It then drops that id
    together with its delta, leaves every other entry in place, takes the id
    out of the summary bitmap and keeps the invariants; when the id is not
    held the bucket is returned untouched. *)
Theorem bucket_remove_present_or_not (b : Bucket) (id : Z) :
  bucket_wf b ->
  (id ∈ ids b ->
   exists i,
     ids b !! i = Some id /\
     Bucket.remove b id
     = (mkBucket (base_value b) (delete i (deltas b)) (delete i (ids b))
          (summary_bitmap b ∖ {[ id ]}) true, true) /\
     bucket_wf (Bucket.remove b id).1 /\
     (id ∉ ids (Bucket.remove b id).1) /\
     summary_bitmap (Bucket.remove b id).1
     = list_to_set (ids (Bucket.remove b id).1)) /\
  (id ∉ ids b -> Bucket.remove b id = (b, false)).
Proof.
  intros Hwf. split.
  - intros Hin.
    destruct (bucket_remove_wf b id Hwf Hin)
      as (b' & v & Hrm & Hwf' & _ & _ & Hout & _).
    destruct (find_id_elem (ids b) id Hin) as (i & Hi).
    exists i. split; [exact (find_id_Some _ _ _ Hi) |].
    unfold Bucket.remove in Hrm |- *. rewrite Hi in Hrm |- *.
    injection Hrm as <-. cbn [fst]. split; [reflexivity |].
    split; [exact Hwf' |]. split; [exact Hout |]. exact (wf_bitmap _ Hwf').
  - apply bucket_remove_absent.
Qed.

Lemma bucket_remove_present_or_not_witness :
  bucket_wf demo_bucket /\
  Bucket.remove demo_bucket 8
  = (mkBucket 100 [0; 5; 9] [7; 3; 1] (list_to_set [7; 3; 8; 1] ∖ {[ 8 ]}) true,
     true) /\
  Bucket.remove demo_bucket 2 = (demo_bucket, false).
Proof.
  split; [exact demo_bucket_wf |].
  destruct (bucket_remove_present_or_not demo_bucket 8 demo_bucket_wf)
    as [Hin _].
  destruct (bucket_remove_present_or_not demo_bucket 2 demo_bucket_wf)
    as [_ Hout].
  split.
  - reflexivity.
  - apply Hout. by_compute.
Defined.

(** X2: [add] followed by [remove] of the same id gives the bucket back:
    for a bucket that keeps the invariants, a value it covers and an id it
    does not hold, the deltas, the ids and the summary bitmap after the two
    calls are those before. *)
Theorem bucket_add_then_remove (b : Bucket) (val id : Z) :
  bucket_wf b -> is_u32 val -> id ∉ ids b ->
  base_value b <= val -> val - base_value b <= MAX_DELTA ->
  exists b1,
    Bucket.add b val id = Ok b1 /\
    Bucket.remove b1 id
    = (mkBucket (base_value b) (deltas b) (ids b) (summary_bitmap b) true,
       true).
Proof.
  intros Hwf Hval Hid Hle Hmax.
  rewrite (bucket_add_ok b val id Hval (wf_base b Hwf) Hle Hmax).
  eexists. split; [reflexivity |].
  pose proof (lower_bound_le (deltas b) (val - base_value b)) as Hlb.
  pose proof (wf_length b Hwf) as Hlen.
  unfold Bucket.remove. cbn [ids deltas base_value summary_bitmap].
  rewrite find_id_vec_insert by (auto; lia).
  rewrite !delete_vec_insert by lia.
  f_equal. f_equal. rewrite (wf_bitmap b Hwf).
  apply set_eq. intros x.
  rewrite elem_of_difference, elem_of_union, elem_of_singleton,
    elem_of_list_to_set.
  split; [tauto |]. intros Hx. split; [auto |]. intros ->. contradiction.
Qed.

Lemma bucket_add_then_remove_witness :
  exists b1,
    Bucket.add demo_bucket 105 42 = Ok b1 /\
    Bucket.remove b1 42
    = (mkBucket 100 [0; 5; 5; 9] [7; 3; 8; 1] (list_to_set [7; 3; 8; 1]) true,
       true).
Proof.
  apply (bucket_add_then_remove demo_bucket 105 42 demo_bucket_wf).
  - unfold is_u32. lia.
  - by_compute.
  - cbn. lia.
  - cbn. unfold MAX_DELTA. lia.
Defined.



Section PayloadExtras.
Context `{BitmapCodec}.

(** X4: [read_summary_bitmap] applied to the payload [serialize] writes for
    a bucket that keeps the invariants and holds at most 65535 entries
    returns the summary bitmap of the bucket, which is the set of its ids,
    without reading the entries. *)
Theorem read_summary_bitmap_serialize (b : Bucket) :
  bucket_wf b -> Z.of_nat (length (ids b)) <= 65535 ->
  Bucket.read_summary_bitmap (Bucket.serialize b)
  = Ok (list_to_set (ids b)).
Proof.
  intros Hwf Hn. pose proof (bucket_wf_bitmap_u32 b Hwf) as Hbm.
  assert (Hfit : Z.of_nat (length (bm_write (summary_bitmap b))) < 2^32).
  { apply bm_size_fits; [exact Hbm |].
    rewrite bucket_wf_bitmap_size by exact Hwf. exact Hn. }
  assert (Hpos : 0 < Z.of_nat (length (bm_write (summary_bitmap b)))).
  { pose proof (bm_write_nonempty _ Hbm).
    destruct (bm_write (summary_bitmap b)); [congruence | cbn; lia]. }
  unfold Bucket.read_summary_bitmap, Bucket.serialize. cbv zeta.
  rewrite take_le_bytes_app, drop_le_bytes_app.
  unfold wrap32 at 1. rewrite Z.mod_small by lia.
  rewrite le_value_le_bytes_small
    by (change (256 ^ Z.of_nat 4) with (2^32); lia).
  destruct (Z.eqb_spec (Z.of_nat (length (bm_write (summary_bitmap b)))) 0)
    as [E | _]; [lia |].
  rewrite (bm_read_write _ _ Hbm). rewrite (wf_bitmap b Hwf). reflexivity.
Qed.

(** X5: whatever the buffer, a bucket [deserialize] returns carries the base
    it was given, is not dirty, has as many deltas as ids, at most 65535 of
    them, every delta a 16-bit and every id a 32-bit value. *)
Theorem deserialize_shape (data : list byte) (base_val : Z) (b : Bucket) :
  Bucket.deserialize data base_val = Ok b ->
  base_value b = base_val /\ is_dirty b = false /\
  length (deltas b) = length (ids b) /\
  Z.of_nat (length (ids b)) <= 65535 /\
  Forall is_u16 (deltas b) /\ Forall is_u32 (ids b).
Proof.
  unfold Bucket.deserialize. cbv zeta.
  destruct (Z.of_nat (length data) <? 6).
  { intros [= <-]. cbn. repeat split; auto; lia. }
  destruct (4 + le_value (take 4 data) >? Z.of_nat (length data));
    [discriminate |].
  destruct (if le_value (take 4 data) >? 0
            then match bm_read (drop 4 data) with
                 | Some s => Ok s
                 | None => Err BitmapReadFailed
                 end
            else Ok ∅) as [bm | e]; cbn [rbind]; [| discriminate].
  destruct (4 + le_value (take 4 data) + 2 >? Z.of_nat (length data));
    [discriminate |].
  set (p2 := drop (Z.to_nat (le_value (take 4 data))) (drop 4 data)).
  pose proof (le_value_range (take 2 p2)) as Hc.
  assert (Hc' : 0 <= le_value (take 2 p2) < 65536).
  { assert (Hl : (length (take 2 p2) <= 2)%nat) by (rewrite length_take; lia).
    assert (256 ^ Z.of_nat (length (take 2 p2)) <= 256 ^ 2)
      by (apply Z.pow_le_mono_r; lia).
    lia. }
  destruct (le_value (take 2 p2) >? 0).
  2: { intros [= <-]. cbn. repeat split; auto; lia. }
  destruct (_ >? Z.of_nat (length data)); [discriminate |].
  intros [= <-]. cbn [base_value is_dirty deltas ids].
  rewrite !length_le_array. repeat split; try reflexivity.
  - lia.
  - exact (le_array_range 2 _ _).
  - exact (le_array_range ID_BYTES _ _).
Qed.

(** X6: the payload [serialize] writes for a bucket with as many deltas as
    ids, at most 65535 of them, has the size the code allots to the
    buffer: four bytes, the bitmap, two bytes and six bytes an entry. *)
Theorem serialize_size (b : Bucket) :
  length (deltas b) = length (ids b) ->
  Z.of_nat (length (ids b)) <= 65535 ->
  Z.of_nat (length (Bucket.serialize b))
  = 4 + Z.of_nat (length (bm_write (summary_bitmap b))) + 2
    + 2 * Z.of_nat (length (ids b)) + 4 * Z.of_nat (length (ids b)).
Proof.
  intros Hlen Hn. unfold Bucket.serialize. cbv zeta.
  unfold wrap16. rewrite (Z.mod_small (Z.of_nat (length (ids b)))) by lia.
  rewrite Nat2Z.id. rewrite <- Hlen at 2. rewrite !firstn_all.
  rewrite !length_app, !length_le_bytes, !length_flat_map_le_bytes.
  unfold ID_BYTES. lia.
Qed.

End PayloadExtras.

Lemma read_summary_bitmap_serialize_witness :
  Bucket.read_summary_bitmap (Bucket.serialize demo_bucket)
  = Ok (list_to_set (ids demo_bucket)).
Proof.
  apply (read_summary_bitmap_serialize demo_bucket demo_bucket_wf).
  cbn. lia.
Defined.

Definition demo_payload : list byte :=
  [x00; x00; x00; x00; x01; x00; x05; x00; x07; x00; x00; x00].

Lemma deserialize_shape_witness :
  Bucket.deserialize demo_payload 100 = Ok (mkBucket 100 [5] [7] ∅ false) /\
  base_value (mkBucket 100 [5] [7] ∅ false) = 100 /\
  is_dirty (mkBucket 100 [5] [7] ∅ false) = false /\
  length (deltas (mkBucket 100 [5] [7] ∅ false))
  = length (ids (mkBucket 100 [5] [7] ∅ false)) /\
  Z.of_nat (length (ids (mkBucket 100 [5] [7] ∅ false))) <= 65535 /\
  Forall is_u16 (deltas (mkBucket 100 [5] [7] ∅ false)) /\
  Forall is_u32 (ids (mkBucket 100 [5] [7] ∅ false)).
Proof.
  assert (Hd : Bucket.deserialize demo_payload 100
               = Ok (mkBucket 100 [5] [7] ∅ false))
    by (vm_compute; reflexivity).
  split; [exact Hd |].
  exact (deserialize_shape demo_payload 100 _ Hd).
Defined.

Lemma serialize_size_witness :
  Z.of_nat (length (Bucket.serialize demo_bucket))
  = 4 + Z.of_nat (length (bm_write (summary_bitmap demo_bucket))) + 2
    + 2 * Z.of_nat (length (ids demo_bucket))
    + 4 * Z.of_nat (length (ids demo_bucket)).
Proof.
  apply (serialize_size demo_bucket); [reflexivity | cbn; lia].
Defined.

(** ** The key codecs *)

(** X7: [parse_bucket_key_val] reads back the base [make_bucket_key] wrote,
    whatever the field name, and the key passes the prefix test of its
    field; a key shorter than four bytes parses as 0. *)
Theorem bucket_key_roundtrip (field : string) (v : Z) :
  is_u32 v ->
  NumericIndex.parse_bucket_key_val (NumericIndex.make_bucket_key field v) = v /\
  has_field_prefix (NumericIndex.make_bucket_key field v) field = true /\
  forall key, (String.length key < 4)%nat ->
              NumericIndex.parse_bucket_key_val key = 0.
Proof.
  intros Hv. split; [exact (parse_make_bucket_key field v Hv) |].
  split; [exact (bucket_key_prefix field v) |].
  intros key Hk. unfold NumericIndex.parse_bucket_key_val.
  destruct (Nat.ltb_spec (String.length key) 4); [reflexivity | lia].
Qed.

Lemma bucket_key_roundtrip_witness :
  NumericIndex.parse_bucket_key_val
    (NumericIndex.make_bucket_key "a:b" 305419896) = 305419896 /\
  has_field_prefix (NumericIndex.make_bucket_key "a:b" 305419896) "a:b" = true /\
  forall key, (String.length key < 4)%nat ->
              NumericIndex.parse_bucket_key_val key = 0.
Proof.
  apply (bucket_key_roundtrip "a:b" 305419896). unfold is_u32. lia.
Defined.

(** X8: the keys of one field are ordered, in the byte-wise lexicographic
    order of the store, as their 32-bit bases are ordered as numbers; in
    particular two bases give the same key only when they are equal. *)
Theorem bucket_key_order (field : string) (u v : Z) :
  is_u32 u -> is_u32 v ->
  (key_lt (NumericIndex.make_bucket_key field u)
          (NumericIndex.make_bucket_key field v) <-> u < v) /\
  (key_le (NumericIndex.make_bucket_key field u)
          (NumericIndex.make_bucket_key field v) <-> u <= v) /\
  (NumericIndex.make_bucket_key field u = NumericIndex.make_bucket_key field v
   <-> u = v).
Proof.
  intros Hu Hv. split; [exact (bucket_key_lt field u v Hu Hv) |].
  split; [exact (bucket_key_le field u v Hu Hv) |]. split.
  - intros Heq.
    assert (H1 : u <= v).
    { apply (bucket_key_le field u v Hu Hv). rewrite Heq. apply key_le_refl. }
    assert (H2 : v <= u).
    { apply (bucket_key_le field v u Hv Hu). rewrite Heq. apply key_le_refl. }
    lia.
  - intros ->. reflexivity.
Qed.

Lemma bucket_key_order_witness :
  (key_lt (NumericIndex.make_bucket_key "age" 255)
          (NumericIndex.make_bucket_key "age" 256) <-> 255 < 256) /\
  (key_le (NumericIndex.make_bucket_key "age" 255)
          (NumericIndex.make_bucket_key "age" 256) <-> 255 <= 256) /\
  (NumericIndex.make_bucket_key "age" 255 = NumericIndex.make_bucket_key "age" 256
   <-> 255 = 256).
Proof.
  apply (bucket_key_order "age" 255 256); unfold is_u32; lia.
Defined.

(** X9: for two different field names without a colon, no bucket key of
    the one passes the prefix test of the other, and no bucket key is
    shared between them. *)
Theorem bucket_keys_of_fields_apart (f g : string) (u v : Z) :
  colon_free f = true -> colon_free g = true -> f <> g ->
  has_field_prefix (NumericIndex.make_bucket_key g v) f = false /\
  NumericIndex.make_bucket_key f u <> NumericIndex.make_bucket_key g v.
Proof.
  intros Hf Hg Hne.
  pose proof (bucket_key_prefix_other f g v Hf Hg Hne) as Hp.
  split; [exact Hp |]. intros Heq. rewrite <- Heq in Hp.
  rewrite bucket_key_prefix in Hp. discriminate.
Qed.

Lemma bucket_keys_of_fields_apart_witness :
  has_field_prefix (NumericIndex.make_bucket_key "agent" 7) "age" = false /\
  NumericIndex.make_bucket_key "age" 7 <> NumericIndex.make_bucket_key "agent" 7.
Proof.
  apply (bucket_keys_of_fields_apart "age" "agent" 7 7);
    [reflexivity | reflexivity | discriminate].
Defined.

(** X10: for field names without a colon and 32-bit ids, [make_forward_key]
    gives the same key only for the same field and the same id. *)
Theorem forward_key_injective (f g : string) (id id' : Z) :
  colon_free f = true -> colon_free g = true -> is_u32 id -> is_u32 id' ->
  NumericIndex.make_forward_key f id = NumericIndex.make_forward_key g id'
  <-> f = g /\ id = id'.
Proof.
  intros Hf Hg Hid Hid'. split.
  - exact (make_forward_key_inj f g id id' Hf Hg Hid Hid').
  - intros [-> ->]. reflexivity.
Qed.

Lemma forward_key_injective_witness :
  NumericIndex.make_forward_key "age" 12 = NumericIndex.make_forward_key "ag" 12
  <-> "age" = "ag" /\ 12 = 12.
Proof.
  apply (forward_key_injective "age" "ag" 12 12);
    [reflexivity | reflexivity | unfold is_u32; lia | unfold is_u32; lia].
Defined.

(** ** The index operations on reached states *)

Definition demo_ops : list op :=
  [OpPut "x" 1 10; OpPut "y" 2 5; OpPut "y" 3 70000; OpPut "y" 4 7;
   OpRemove "x" 1].

Definition demo_state : NumericIndex :=
  Eval vm_compute in
    match run demo_ops NumericIndex.empty with
    | Some s => s
    | None => NumericIndex.empty
    end.

Lemma demo_state_reachable : reachable demo_state.
Proof.
  apply (run_reachable demo_ops NumericIndex.empty);
    [apply reach_empty | vm_compute; reflexivity].
Qed.

Lemma demo_state_small : small_buckets demo_state.
Proof. apply small_buckets_decide. vm_compute. reflexivity. Qed.

Section StateExtras.
Context `{BitmapCodec}.

Lemma forward_value_frame (s s' : NumericIndex) (f g : string) (id id' : Z)
    (x : option Z) :
  (forall f' i', fwd_of s' f' i' = fwd_update (fwd_of s) f id x f' i') ->
  colon_free g = true -> is_u32 id' -> ~ (g = f /\ id' = id) ->
  forward_value s' g id' = forward_value s g id'.
Proof.
  intros Hfwd Hg Hid' Hne.
  rewrite <- (fwd_of_value s' g id' Hg Hid'), <- (fwd_of_value s g id' Hg Hid').
  rewrite Hfwd. unfold fwd_update. rewrite decide_False by exact Hne.
  reflexivity.
Qed.

Lemma forward_value_updated (s s' : NumericIndex) (f : string) (id : Z)
    (x : option Z) :
  (forall f' i', fwd_of s' f' i' = fwd_update (fwd_of s) f id x f' i') ->
  colon_free f = true -> is_u32 id -> forward_value s' f id = x.
Proof.
  intros Hfwd Hf Hid. rewrite <- (fwd_of_value s' f id Hf Hid), Hfwd.
  unfold fwd_update. rewrite decide_True by auto. reflexivity.
Qed.

(** X11: the bucket search shared by [add_to_buckets] and
    [remove_from_buckets], on a reached state: when it ends on a key of the
    field, that key carries the greatest base at most the value among the
    stored buckets of the field; when it ends elsewhere or nowhere, every
    stored bucket of the field has a base above the value. *)
Theorem seek_bucket_covering (s : NumericIndex) (f : string) (v : Z) :
  reachable s -> colon_free f = true -> is_u32 v ->
  let stored base :=
    is_u32 base /\
    is_Some (inverted_dbi_ s !! NumericIndex.make_bucket_key f base) in
  match NumericIndex.seek_bucket (inverted_dbi_ s) f v with
  | Some (k, d) =>
      if has_field_prefix k f then
        exists base,
          k = NumericIndex.make_bucket_key f base /\
          inverted_dbi_ s !! k = Some d /\ stored base /\ base <= v /\
          forall base', stored base' -> base' <= v -> base' <= base
      else forall base', stored base' -> v < base'
  | None => forall base', stored base' -> v < base'
  end.
Proof.
  intros Hs Hf Hv stored.
  destruct (reachable_inv s Hs) as (_ & A & HR & _).
  assert (Hst : forall base', stored base' ->
                  exists b', A !! (f, base') = Some b').
  { intros base' [Hb' [p Hp]].
    rewrite (repr_lookup A _ f base' HR Hf Hb') in Hp.
    destruct (A !! (f, base')) as [b' |]; [eauto | discriminate]. }
  pose proof (seek_bucket_floor A _ HR f v Hf Hv) as Hseek.
  destruct (NumericIndex.seek_bucket (inverted_dbi_ s) f v) as [[k d] |].
  - destruct (has_field_prefix k f).
    + destruct Hseek as (base & b & -> & HA & -> & Hb & Hle & Hfloor).
      exists base. split; [reflexivity |].
      split; [exact (repr_get A _ HR _ _ _ HA) |].
      split; [split; [exact Hb | exact (stored_key_present A _ HR _ _ _ HA)] |].
      split; [exact Hle |].
      intros base' Hst' Hle'. destruct (Hst base' Hst') as (b' & HA').
      exact (Hfloor base' b' HA' Hle').
    + intros base' Hst'. destruct (Hst base' Hst') as (b' & HA').
      exact (Hseek base' b' HA').
  - intros base' Hst'. destruct (Hst base' Hst') as (b' & HA').
    exact (Hseek base' b' HA').
Qed.

(** X12: on a reached state with no bucket at 65535 entries, [put] of a
    32-bit id and value under a field name without a colon raises none of
    its errors; the state it returns is reached, records the value for the
    id and the forward value of every other (field, id). *)
Theorem put_succeeds (s : NumericIndex) (f : string) (id v : Z) :
  reachable s -> small_buckets s ->
  colon_free f = true -> is_u32 id -> is_u32 v ->
  exists s',
    NumericIndex.put s f id v = Ok s' /\ reachable s' /\
    forward_value s' f id = Some v /\
    forall g id', colon_free g = true -> is_u32 id' ->
                  ~ (g = f /\ id' = id) ->
                  forward_value s' g id' = forward_value s g id'.
Proof.
  intros Hs Hsm Hf Hid Hv.
  destruct (put_ok s f id v (reachable_inv s Hs) Hsm Hf Hid Hv)
    as (s' & Hput & _ & Hfwd).
  exists s'. split; [exact Hput |].
  split; [exact (reach_put s f id v s' Hs Hf Hid Hv Hsm Hput) |].
  split; [exact (forward_value_updated s s' f id _ Hfwd Hf Hid) |].
  intros g id' Hg Hid' Hne.
  exact (forward_value_frame s s' f g id id' _ Hfwd Hg Hid' Hne).
Qed.

(** X13: a second [put] of the same value for the same id changes nothing:
    if [put] returned the state s' then the same call on s' returns s'. *)
Theorem put_twice_same (s s' : NumericIndex) (f : string) (id v : Z) :
  reachable s -> small_buckets s ->
  colon_free f = true -> is_u32 id -> is_u32 v ->
  NumericIndex.put s f id v = Ok s' ->
  NumericIndex.put s' f id v = Ok s'.
Proof.
  intros Hs Hsm Hf Hid Hv Hput.
  destruct (put_ok s f id v (reachable_inv s Hs) Hsm Hf Hid Hv)
    as (s1 & Hput1 & _ & Hfwd).
  assert (s1 = s') as -> by congruence.
  pose proof (forward_value_updated s s' f id _ Hfwd Hf Hid) as Hval.
  unfold forward_value in Hval.
  unfold NumericIndex.put, NumericIndex.put_internal.
  destruct (forward_dbi_ s' !! NumericIndex.make_forward_key f id)
    as [fwd_val |]; [| discriminate].
  injection Hval as Hval. cbv zeta. rewrite Hval, Z.eqb_refl. reflexivity.
Qed.

(** X14: on a reached state [remove] of a 32-bit id under a field name
    without a colon raises no error; the state it returns is reached, has
    no forward value for the id, keeps the forward value of every other
    (field, id), no longer returns the id from any [range] on the field,
    and is the state itself when the id had no forward value. *)
Theorem remove_succeeds (s : NumericIndex) (f : string) (id : Z) :
  reachable s -> colon_free f = true -> is_u32 id ->
  exists s',
    NumericIndex.remove s f id = Ok s' /\ reachable s' /\
    forward_value s' f id = None /\
    (forall g id', colon_free g = true -> is_u32 id' ->
                   ~ (g = f /\ id' = id) ->
                   forward_value s' g id' = forward_value s g id') /\
    (forall lo hi, is_u32 lo ->
       exists X, NumericIndex.range s' f lo hi = Some (Ok X) /\ id ∉ X) /\
    (forward_value s f id = None -> s' = s).
Proof.
  intros Hs Hf Hid.
  destruct (remove_ok s f id (reachable_inv s Hs) Hf Hid)
    as (s' & Hrm & Hinv' & Hfwd & _).
  pose proof (forward_value_updated s s' f id _ Hfwd Hf Hid) as Hnone.
  exists s'. split; [exact Hrm |].
  split; [exact (reach_remove s f id s' Hs Hf Hid Hrm) |].
  split; [exact Hnone |]. split; [| split].
  - intros g id' Hg Hid' Hne.
    exact (forward_value_frame s s' f g id id' _ Hfwd Hg Hid' Hne).
  - intros lo hi Hlo.
    destruct (range_ok s' f lo hi Hinv' Hf Hlo) as (X & HX & HXspec).
    exists X. split; [exact HX |]. rewrite HXspec. intros (v & Hv & _).
    rewrite (fwd_of_value s' f id Hf Hid) in Hv. congruence.
  - intros Hmiss. unfold forward_value in Hmiss.
    unfold NumericIndex.remove in Hrm.
    destruct (forward_dbi_ s !! NumericIndex.make_forward_key f id);
      [discriminate | congruence].
Qed.

(** X15: on a reached state [check_range] answers for an id what [range]
    answers for the field: it returns true exactly when the id is in the
    set [range] returns for the same bounds. *)
Theorem check_range_agrees (s : NumericIndex) (f : string) (id lo hi : Z) :
  reachable s -> colon_free f = true -> is_u32 id -> is_u32 lo ->
  exists X,
    NumericIndex.range s f lo hi = Some (Ok X) /\
    (NumericIndex.check_range s f id lo hi = true <-> id ∈ X).
Proof.
  intros Hs Hf Hid Hlo.
  destruct (range_ok s f lo hi (reachable_inv s Hs) Hf Hlo)
    as (X & HX & HXspec).
  exists X. split; [exact HX |]. rewrite HXspec.
  setoid_rewrite (fwd_of_value s f id Hf Hid).
  unfold NumericIndex.check_range, forward_value.
  destruct (forward_dbi_ s !! NumericIndex.make_forward_key f id)
    as [fwd_val |]; cbn.
  - split.
    + intros Hc. apply andb_true_iff in Hc as [H1 H2]. eexists.
      split; [reflexivity | zlia].
    + intros (v & [= <-] & Hv). apply andb_true_iff. split; zlia.
  - split; [discriminate |]. intros (v & Hv & _). discriminate.
Qed.

End StateExtras.

Lemma seek_bucket_covering_witness :
  let stored base :=
    is_u32 base /\
    is_Some (inverted_dbi_ demo_state !! NumericIndex.make_bucket_key "y" base) in
  match NumericIndex.seek_bucket (inverted_dbi_ demo_state) "y" 100 with
  | Some (k, d) =>
      if has_field_prefix k "y" then
        exists base,
          k = NumericIndex.make_bucket_key "y" base /\
          inverted_dbi_ demo_state !! k = Some d /\ stored base /\
          base <= 100 /\
          forall base', stored base' -> base' <= 100 -> base' <= base
      else forall base', stored base' -> 100 < base'
  | None => forall base', stored base' -> 100 < base'
  end.
Proof.
  apply (seek_bucket_covering demo_state "y" 100 demo_state_reachable eq_refl).
  unfold is_u32. lia.
Defined.

Lemma put_succeeds_witness :
  exists s',
    NumericIndex.put demo_state "y" 9 6 = Ok s' /\ reachable s' /\
    forward_value s' "y" 9 = Some 6 /\
    forall g id', colon_free g = true -> is_u32 id' ->
                  ~ (g = "y" /\ id' = 9) ->
                  forward_value s' g id' = forward_value demo_state g id'.
Proof.
  apply (put_succeeds demo_state "y" 9 6 demo_state_reachable demo_state_small
           eq_refl); unfold is_u32; lia.
Defined.

Definition demo_put_state : NumericIndex :=
  Eval vm_compute in
    match NumericIndex.put demo_state "y" 9 6 with
    | Ok s => s
    | Err _ => NumericIndex.empty
    end.

Lemma put_twice_same_witness :
  NumericIndex.put demo_state "y" 9 6 = Ok demo_put_state /\
  NumericIndex.put demo_put_state "y" 9 6 = Ok demo_put_state.
Proof.
  assert (Hput : NumericIndex.put demo_state "y" 9 6 = Ok demo_put_state)
    by (vm_compute; reflexivity).
  split; [exact Hput |].
  apply (put_twice_same demo_state demo_put_state "y" 9 6
           demo_state_reachable demo_state_small eq_refl);
    [unfold is_u32; lia | unfold is_u32; lia | exact Hput].
Defined.

Lemma remove_succeeds_witness :
  exists s',
    NumericIndex.remove demo_state "y" 3 = Ok s' /\ reachable s' /\
    forward_value s' "y" 3 = None /\
    (forall g id', colon_free g = true -> is_u32 id' ->
                   ~ (g = "y" /\ id' = 3) ->
                   forward_value s' g id' = forward_value demo_state g id') /\
    (forall lo hi, is_u32 lo ->
       exists X, NumericIndex.range s' "y" lo hi = Some (Ok X) /\ 3 ∉ X) /\
    (forward_value demo_state "y" 3 = None -> s' = demo_state).
Proof.
  apply (remove_succeeds demo_state "y" 3 demo_state_reachable eq_refl).
  unfold is_u32. lia.
Defined.

Lemma check_range_agrees_witness :
  exists X,
    NumericIndex.range demo_state "y" 5 10 = Some (Ok X) /\
    (NumericIndex.check_range demo_state "y" 4 5 10 = true <-> 4 ∈ X).
Proof.
  apply (check_range_agrees demo_state "y" 4 5 10 demo_state_reachable eq_refl);
    unfold is_u32; lia.
Defined.

(** ** What reached states keep *)

Section InvariantExtras.
Context `{BitmapCodec}.

Lemma range_same (s s' : NumericIndex) (f : string) (lo hi : Z) :
  state_inv s -> state_inv s' -> colon_free f = true -> is_u32 lo ->
  (forall id, fwd_of s' f id = fwd_of s f id) ->
  NumericIndex.range s' f lo hi = NumericIndex.range s f lo hi.
Proof.
  intros Hinv Hinv' Hf Hlo Hsame.
  destruct (range_ok s f lo hi Hinv Hf Hlo) as (X & HX & HXspec).
  destruct (range_ok s' f lo hi Hinv' Hf Hlo) as (X' & HX' & HXspec').
  rewrite HX, HX'. f_equal. f_equal. apply set_eq. intros id.
  rewrite HXspec, HXspec'. setoid_rewrite Hsame. reflexivity.
Qed.

(** X16: [put] of an id that had no forward value, followed by [remove] of
    that id, leaves the queries as they were: the forward value of every
    (field, id) and the result of every [range] are those of the state
    before the two calls. *)
Theorem put_then_remove_cancels (s s1 s2 : NumericIndex) (f : string)
    (id v : Z) :
  reachable s -> small_buckets s ->
  colon_free f = true -> is_u32 id -> is_u32 v ->
  forward_value s f id = None ->
  NumericIndex.put s f id v = Ok s1 ->
  NumericIndex.remove s1 f id = Ok s2 ->
  (forall g id', colon_free g = true -> is_u32 id' ->
                 forward_value s2 g id' = forward_value s g id') /\
  (forall g lo hi, colon_free g = true -> is_u32 lo ->
                   NumericIndex.range s2 g lo hi = NumericIndex.range s g lo hi).
Proof.
  intros Hs Hsm Hf Hid Hv Hnew Hput Hrm.
  pose proof (reachable_inv s Hs) as Hinv.
  destruct (put_ok s f id v Hinv Hsm Hf Hid Hv) as (t1 & Hput1 & Hinv1 & Hfwd1).
  assert (t1 = s1) as -> by congruence.
  destruct (remove_ok s1 f id Hinv1 Hf Hid) as (t2 & Hrm2 & Hinv2 & Hfwd2 & _).
  assert (t2 = s2) as -> by congruence.
  assert (Hsame : forall g id', fwd_of s2 g id' = fwd_of s g id').
  { intros g id'. rewrite Hfwd2. unfold fwd_update.
    destruct (decide (g = f /\ id' = id)) as [[-> ->] | Hne].
    - rewrite (fwd_of_value s f id Hf Hid). congruence.
    - rewrite Hfwd1. unfold fwd_update. rewrite decide_False by exact Hne.
      reflexivity. }
  split.
  - intros g id' Hg Hid'.
    rewrite <- (fwd_of_value s2 g id' Hg Hid'), <- (fwd_of_value s g id' Hg Hid').
    apply Hsame.
  - intros g lo hi Hg Hlo. apply range_same; auto.
Qed.

(** X17: every payload stored in the inverted table of a reached state
    deserializes without error, under a key [make_bucket_key] wrote for a
    field name without a colon, to a bucket that is not empty, carries the
    base of its key and keeps the bucket invariants: non-decreasing deltas
    of at most 65535, distinct ids, the summary bitmap the set of the ids. *)
Theorem stored_buckets_well_formed (s : NumericIndex) (k : string)
    (p : list byte) :
  reachable s -> inverted_dbi_ s !! k = Some p ->
  exists f base b,
    colon_free f = true /\ is_u32 base /\
    k = NumericIndex.make_bucket_key f base /\
    Bucket.deserialize p (NumericIndex.parse_bucket_key_val k) = Ok b /\
    base_value b = base /\ ids b <> [] /\
    Z.of_nat (length (ids b)) <= 65535 /\ bucket_wf b.
Proof.
  intros Hs Hk. destruct (reachable_inv s Hs) as (_ & A & HR & _).
  destruct (repr_key A _ HR _ _ Hk) as (f & base & b & -> & HA).
  destruct (repr_dom A _ HR _ _ _ HA) as (Hf & Hb & Hok).
  rewrite (repr_get A _ HR _ _ _ HA) in Hk. injection Hk as <-.
  exists f, base, b. split; [exact Hf |]. split; [exact Hb |].
  split; [reflexivity |]. rewrite parse_make_bucket_key by exact Hb.
  split; [exact (deserialize_stored base b Hok) |].
  destruct Hok as [Hwf Hbase _ Hne Hn]. auto.
Qed.

(** X18: in a reached state the buckets of a field cover separate,
    ordered stretches of values: every value held by a bucket of the field
    lies below the base of every later bucket of the field. *)
Theorem buckets_ordered (s : NumericIndex) (f : string) (base base' : Z)
    (p : list byte) (b : Bucket) (i : nat) :
  reachable s -> colon_free f = true -> is_u32 base -> is_u32 base' ->
  inverted_dbi_ s !! NumericIndex.make_bucket_key f base = Some p ->
  Bucket.deserialize p base = Ok b ->
  is_Some (inverted_dbi_ s !! NumericIndex.make_bucket_key f base') ->
  base < base' -> (i < length (ids b))%nat ->
  base <= Bucket.get_value b i < base'.
Proof.
  intros Hs Hf Hb Hb' Hk Hd [p' Hk'] Hlt Hi.
  destruct (reachable_inv s Hs) as (_ & A & HR & HI).
  rewrite (repr_lookup A _ f base HR Hf Hb) in Hk.
  rewrite (repr_lookup A _ f base' HR Hf Hb') in Hk'.
  destruct (A !! (f, base)) as [b0 |] eqn:HA; [| discriminate].
  destruct (A !! (f, base')) as [b1 |] eqn:HA'; [| discriminate].
  injection Hk as <-.
  destruct (repr_dom A _ HR _ _ _ HA) as (_ & _ & Hok).
  rewrite (deserialize_stored base b0 Hok) in Hd. injection Hd as <-.
  pose proof (ok_wf _ _ Hok) as Hwf.
  assert (Hin : (Bucket.get_value b0 i, ids b0 !!! i) ∈ bucket_entries b0).
  { apply list_elem_of_lookup. exists i. apply get_value_entry; assumption. }
  pose proof (inv_ordered _ A HI f base base' b0 b1 _ _ HA HA' Hlt Hin).
  destruct (bucket_entry_facts b0 _ _ Hwf Hin) as (Hle & _).
  rewrite (ok_base _ _ Hok) in Hle. lia.
Qed.

(** X19: a bucket is deleted with its last entry: in a reached state a
    field for which no id has a forward value has no key left in the
    inverted table. *)
Theorem field_without_entries_has_no_bucket (s : NumericIndex) (f : string)
    (k : string) :
  reachable s -> colon_free f = true ->
  (forall id, is_u32 id -> forward_value s f id = None) ->
  is_Some (inverted_dbi_ s !! k) -> has_field_prefix k f = false.
Proof.
  intros Hs Hf Hnone [p Hk].
  destruct (reachable_inv s Hs) as (_ & A & HR & HI).
  destruct (has_field_prefix k f) eqn:Hpre; [exfalso | reflexivity].
  destruct (field_key_of_prefix A _ HR f k p Hf Hk Hpre)
    as (base & b & -> & HA & -> & Hb).
  destruct (repr_dom A _ HR _ _ _ HA) as (_ & _ & Hok).
  pose proof (ok_nonempty _ _ Hok) as Hne.
  destruct (ids b) as [|id rest] eqn:Eids; [congruence |].
  assert (Hm : id ∈ ids b) by (rewrite Eids; left).
  destruct (bucket_id_entry b id (wf_length _ (ok_wf _ _ Hok)) Hm) as (v & Hin).
  assert (Hv : fwd_of s f id = Some v).
  { apply (inv_entries _ A HI). exists base, b. auto. }
  destruct (fwd_of_guard s f id v Hv) as [_ Hid].
  rewrite (fwd_of_value s f id Hf Hid), (Hnone id Hid) in Hv. discriminate.
Qed.

(** X20: on a reached state a [range] over [lo, hi] is the disjoint union
    of the ranges over [lo, m] and [m + 1, hi], for lo <= m < hi. *)
Theorem range_splits (s : NumericIndex) (f : string) (lo m hi : Z) :
  reachable s -> colon_free f = true -> is_u32 lo -> is_u32 (m + 1) ->
  lo <= m -> m < hi ->
  exists X X1 X2,
    NumericIndex.range s f lo hi = Some (Ok X) /\
    NumericIndex.range s f lo m = Some (Ok X1) /\
    NumericIndex.range s f (m + 1) hi = Some (Ok X2) /\
    X = X1 ∪ X2 /\ X1 ## X2.
Proof.
  intros Hs Hf Hlo Hm Hle Hlt. pose proof (reachable_inv s Hs) as Hinv.
  destruct (range_ok s f lo hi Hinv Hf Hlo) as (X & HX & HXs).
  destruct (range_ok s f lo m Hinv Hf Hlo) as (X1 & HX1 & HX1s).
  destruct (range_ok s f (m + 1) hi Hinv Hf Hm) as (X2 & HX2 & HX2s).
  exists X, X1, X2. split; [exact HX |]. split; [exact HX1 |].
  split; [exact HX2 |]. split.
  - apply set_eq. intros id. rewrite elem_of_union, HXs, HX1s, HX2s. split.
    + intros (v & Hv & Hr). destruct (Z_le_gt_dec v m).
      * left. exists v. split; [exact Hv | lia].
      * right. exists v. split; [exact Hv | lia].
    + intros [(v & Hv & Hr) | (v & Hv & Hr)]; exists v; split; auto; lia.
  - intros id H1 H2. apply HX1s in H1 as (v1 & Hv1 & Hr1).
    apply HX2s in H2 as (v2 & Hv2 & Hr2).
    rewrite Hv1 in Hv2. injection Hv2 as <-. lia.
Qed.

End InvariantExtras.

Definition demo_removed_state : NumericIndex :=
  Eval vm_compute in
    match NumericIndex.remove demo_put_state "y" 9 with
    | Ok s => s
    | Err _ => NumericIndex.empty
    end.

Lemma put_then_remove_cancels_witness :
  (forall g id', colon_free g = true -> is_u32 id' ->
                 forward_value demo_removed_state g id'
                 = forward_value demo_state g id') /\
  (forall g lo hi, colon_free g = true -> is_u32 lo ->
                   NumericIndex.range demo_removed_state g lo hi
                   = NumericIndex.range demo_state g lo hi).
Proof.
  apply (put_then_remove_cancels demo_state demo_put_state demo_removed_state
           "y" 9 6 demo_state_reachable demo_state_small eq_refl).
  - unfold is_u32. lia.
  - unfold is_u32. lia.
  - vm_compute. reflexivity.
  - vm_compute. reflexivity.
  - vm_compute. reflexivity.
Defined.

Definition demo_stored : list byte :=
  Eval vm_compute in
    default [] (inverted_dbi_ demo_state !! NumericIndex.make_bucket_key "y" 5).

Definition demo_stored_bucket : Bucket :=
  Eval vm_compute in
    match Bucket.deserialize demo_stored 5 with
    | Ok b => b
    | Err _ => Bucket.empty 0
    end.

Lemma demo_stored_lookup :
  inverted_dbi_ demo_state !! NumericIndex.make_bucket_key "y" 5
  = Some demo_stored.
Proof. vm_compute. reflexivity. Qed.

Lemma stored_buckets_well_formed_witness :
  exists f base b,
    colon_free f = true /\ is_u32 base /\
    NumericIndex.make_bucket_key "y" 5 = NumericIndex.make_bucket_key f base /\
    Bucket.deserialize demo_stored
      (NumericIndex.parse_bucket_key_val (NumericIndex.make_bucket_key "y" 5))
    = Ok b /\
    base_value b = base /\ ids b <> [] /\
    Z.of_nat (length (ids b)) <= 65535 /\ bucket_wf b.
Proof.
  exact (stored_buckets_well_formed demo_state
           (NumericIndex.make_bucket_key "y" 5) demo_stored
           demo_state_reachable demo_stored_lookup).
Defined.

Lemma buckets_ordered_witness :
  Bucket.deserialize demo_stored 5 = Ok demo_stored_bucket /\
  is_Some (inverted_dbi_ demo_state !! NumericIndex.make_bucket_key "y" 70000) /\
  5 <= Bucket.get_value demo_stored_bucket 1 < 70000.
Proof.
  assert (H5 : is_u32 5) by (unfold is_u32; lia).
  assert (H7 : is_u32 70000) by (unfold is_u32; lia).
  assert (Hd : Bucket.deserialize demo_stored 5 = Ok demo_stored_bucket)
    by (vm_compute; reflexivity).
  assert (Hk : is_Some (inverted_dbi_ demo_state
                          !! NumericIndex.make_bucket_key "y" 70000))
    by (vm_compute; eauto).
  split; [exact Hd |]. split; [exact Hk |].
  apply (buckets_ordered demo_state "y" 5 70000 demo_stored demo_stored_bucket 1
           demo_state_reachable eq_refl H5 H7 demo_stored_lookup Hd Hk);
    [lia | vm_compute; lia].
Defined.

Lemma demo_state_no_x (id : Z) : forward_value demo_state "x" id = None.
Proof.
  unfold forward_value.
  destruct (forward_dbi_ demo_state !! NumericIndex.make_forward_key "x" id)
    as [bytes |] eqn:E; [exfalso | reflexivity].
  apply elem_of_map_to_list in E.
  unfold NumericIndex.make_forward_key in E.
  rewrite append_cons_l, append_nil_l in E.
  match type of E with
  | _ ∈ ?l => let l' := eval vm_compute in l in change l with l' in E
  end.
  repeat (apply elem_of_cons in E as [E | E]; [discriminate |]).
  inversion E.
Qed.

Lemma field_without_entries_has_no_bucket_witness :
  (forall id, is_u32 id -> forward_value demo_state "x" id = None) /\
  is_Some (inverted_dbi_ demo_state !! NumericIndex.make_bucket_key "y" 5) /\
  has_field_prefix (NumericIndex.make_bucket_key "y" 5) "x" = false.
Proof.
  assert (Hk : is_Some (inverted_dbi_ demo_state
                          !! NumericIndex.make_bucket_key "y" 5))
    by (rewrite demo_stored_lookup; eauto).
  split; [intros id _; apply demo_state_no_x |]. split; [exact Hk |].
  exact (field_without_entries_has_no_bucket demo_state "x"
           (NumericIndex.make_bucket_key "y" 5) demo_state_reachable eq_refl
           (fun id _ => demo_state_no_x id) Hk).
Defined.

Lemma range_splits_witness :
  exists X X1 X2,
    NumericIndex.range demo_state "y" 0 100 = Some (Ok X) /\
    NumericIndex.range demo_state "y" 0 6 = Some (Ok X1) /\
    NumericIndex.range demo_state "y" (6 + 1) 100 = Some (Ok X2) /\
    X = X1 ∪ X2 /\ X1 ## X2.
Proof.
  apply (range_splits demo_state "y" 0 6 100 demo_state_reachable eq_refl);
    unfold is_u32; lia.
Defined.

(** ** The cut of a saturated bucket *)

Lemma adjacent_equal_all (l : list Z) :
  (forall j, (0 < j < length l)%nat -> l !!! j = l !!! (j - 1)%nat) ->
  forall i, (i < length l)%nat -> l !!! i = l !!! O.
Proof.
  intros Hadj i. induction i as [|i IH]; intros Hi; [reflexivity |].
  rewrite (Hadj (S i)) by lia. replace (S i - 1)%nat with i by lia.
  apply IH. lia.
Qed.

(** X21: on a bucket that keeps the invariants and holds at least two
    entries, the cut the split logic computes is never 0; when it is an
    index of the bucket the delta there is strictly above the delta before
    it, so no run of equal values is split; and it is the size of the
    bucket, the "all identical" answer, exactly when all deltas are
    equal. *)
Theorem split_index_boundary (b : Bucket) :
  bucket_wf b -> (2 <= length (ids b))%nat ->
  (0 < NumericIndex.split_index b <= length (deltas b))%nat /\
  ((NumericIndex.split_index b < length (deltas b))%nat ->
   deltas b !!! (NumericIndex.split_index b - 1)%nat
   < deltas b !!! NumericIndex.split_index b) /\
  (NumericIndex.split_index b = length (deltas b) <->
   forall i j, (i < length (deltas b))%nat -> (j < length (deltas b))%nat ->
               deltas b !!! i = deltas b !!! j).
Proof.
  intros Hwf Htwo. pose proof (wf_length b Hwf) as Hlen.
  destruct (split_index_spec b Hlen Htwo)
    as [[Hlt ((Hk0 & Hk1) & Hdiff & _)] | [Hk Hadj]].
  - assert (Hle : deltas b !!! (NumericIndex.split_index b - 1)%nat
                  <= deltas b !!! NumericIndex.split_index b).
    { apply (sorted_lookup_le (deltas b) (NumericIndex.split_index b - 1)
               (NumericIndex.split_index b));
        [exact (wf_sorted b Hwf) | lia | |];
        apply list_lookup_lookup_total_lt; lia. }
    split; [lia |]. split; [intros _; lia |]. split; [lia |].
    intros Hall. exfalso. apply Hdiff. apply Hall; lia.
  - split; [lia |]. split; [lia |]. split; [| intros _; exact Hk].
    intros _ i j Hi Hj.
    rewrite (adjacent_equal_all (deltas b) Hadj i Hi).
    rewrite (adjacent_equal_all (deltas b) Hadj j Hj). reflexivity.
Qed.

Lemma split_index_boundary_witness :
  (0 < NumericIndex.split_index demo_bucket <= length (deltas demo_bucket))%nat /\
  ((NumericIndex.split_index demo_bucket < length (deltas demo_bucket))%nat ->
   deltas demo_bucket !!! (NumericIndex.split_index demo_bucket - 1)%nat
   < deltas demo_bucket !!! NumericIndex.split_index demo_bucket) /\
  (NumericIndex.split_index demo_bucket = length (deltas demo_bucket) <->
   forall i j, (i < length (deltas demo_bucket))%nat ->
               (j < length (deltas demo_bucket))%nat ->
               deltas demo_bucket !!! i = deltas demo_bucket !!! j).
Proof.
  apply (split_index_boundary demo_bucket demo_bucket_wf). cbn. lia.
Defined.

(** ** Which bucket [put] writes *)

Section PutExtras.
Context `{BitmapCodec}.

Lemma put_new_id (s : NumericIndex) (f : string) (id v : Z)
    (inv' : gmap string (list byte)) :
  forward_value s f id = None ->
  NumericIndex.add_to_buckets (inverted_dbi_ s) f v id = Ok inv' ->
  NumericIndex.put s f id v
  = Ok (mkIndex (<[NumericIndex.make_forward_key f id := le_bytes 4 v]>
                   (forward_dbi_ s)) inv').
Proof.
  intros Hnew Hadd. unfold forward_value in Hnew.
  unfold NumericIndex.put, NumericIndex.put_internal.
  destruct (forward_dbi_ s !! NumericIndex.make_forward_key f id);
    [discriminate |].
  cbn [rbind]. rewrite Hadd. reflexivity.
Qed.

(** X22: on a reached state, [put] of a new id with a value that no stored
    bucket of the field covers (every stored base of the field is above the
    value or more than 65535 below it) creates a bucket under the key of
    the value itself, holding the one entry with delta 0, and changes no
    other key of the inverted table. *)
Theorem put_creates_bucket (s : NumericIndex) (f : string) (id v : Z) :
  reachable s -> colon_free f = true -> is_u32 id -> is_u32 v ->
  forward_value s f id = None ->
  (forall base,
     is_u32 base ->
     is_Some (inverted_dbi_ s !! NumericIndex.make_bucket_key f base) ->
     base <= v -> v - base > 65535) ->
  NumericIndex.put s f id v
  = Ok (mkIndex
          (<[NumericIndex.make_forward_key f id := le_bytes 4 v]>
             (forward_dbi_ s))
          (<[NumericIndex.make_bucket_key f v
               := Bucket.serialize (mkBucket v [0] [id] ({[ id ]} ∪ ∅) true)]>
             (inverted_dbi_ s))).
Proof.
  intros Hs Hf Hid Hv Hnew Hfar.
  destruct (reachable_inv s Hs) as (_ & A & HR & _).
  apply put_new_id; [exact Hnew |].
  rewrite (add_to_buckets_missing A _ HR f v id Hf Hv).
  - rewrite bucket_add_ok; cbn [Bucket.empty base_value]; try assumption;
      unfold MAX_DELTA; try lia.
    cbn [rbind deltas ids summary_bitmap]. rewrite Z.sub_diag. reflexivity.
  - intros base' b' HA Hle.
    destruct (repr_dom A _ HR _ _ _ HA) as (_ & Hb' & _).
    unfold MAX_DELTA.
    exact (Hfar base' Hb' (stored_key_present A _ HR _ _ _ HA) Hle).
Qed.

(** X23: on a reached state, [put] of a new id with a value covered by a
    stored bucket of the field that holds fewer than 1024 entries (the
    bucket with the greatest base at most the value, the value at most
    65535 above that base) adds the entry to that bucket under its key and
    changes no other key of the inverted table. *)
Theorem put_into_covering_bucket (s : NumericIndex) (f : string) (id v : Z)
    (base : Z) (p : list byte) (b : Bucket) :
  reachable s -> colon_free f = true -> is_u32 id -> is_u32 v ->
  forward_value s f id = None ->
  is_u32 base ->
  inverted_dbi_ s !! NumericIndex.make_bucket_key f base = Some p ->
  Bucket.deserialize p base = Ok b ->
  base <= v -> v - base <= 65535 ->
  (forall base',
     is_u32 base' ->
     is_Some (inverted_dbi_ s !! NumericIndex.make_bucket_key f base') ->
     base' <= v -> base' <= base) ->
  (length (ids b) < MAX_SIZE)%nat ->
  exists b1,
    Bucket.add b v id = Ok b1 /\
    NumericIndex.put s f id v
    = Ok (mkIndex
            (<[NumericIndex.make_forward_key f id := le_bytes 4 v]>
               (forward_dbi_ s))
            (<[NumericIndex.make_bucket_key f base := Bucket.serialize b1]>
               (inverted_dbi_ s))).
Proof.
  intros Hs Hf Hid Hv Hnew Hb Hk Hd Hle Hmax Hfloor Hroom.
  destruct (reachable_inv s Hs) as (_ & A & HR & _).
  rewrite (repr_lookup A _ f base HR Hf Hb) in Hk.
  destruct (A !! (f, base)) as [b0 |] eqn:HA; [| discriminate].
  injection Hk as <-.
  destruct (repr_dom A _ HR _ _ _ HA) as (_ & _ & Hok).
  rewrite (deserialize_stored base b0 Hok) in Hd. injection Hd as <-.
  pose proof (ok_base _ _ Hok) as Hbase.
  assert (Hadd : exists b1, Bucket.add b0 v id = Ok b1).
  { rewrite bucket_add_ok; [eauto | exact Hv | | |]; rewrite Hbase;
      unfold MAX_DELTA; try lia. exact Hb. }
  destruct Hadd as (b1 & Hadd). exists b1. split; [exact Hadd |].
  apply put_new_id; [exact Hnew |].
  rewrite (add_to_buckets_found A _ HR f v id Hf Hv base b0 HA Hle).
  - destruct (Nat.leb_spec MAX_SIZE (length (ids b0))); [lia |].
    rewrite Hadd. reflexivity.
  - unfold MAX_DELTA. lia.
  - intros base' b' HA' Hle'.
    destruct (repr_dom A _ HR _ _ _ HA') as (_ & Hb' & _).
    exact (Hfloor base' Hb' (stored_key_present A _ HR _ _ _ HA') Hle').
Qed.

End PutExtras.

Lemma demo_state_bases (base : Z) :
  is_u32 base ->
  is_Some (inverted_dbi_ demo_state !! NumericIndex.make_bucket_key "y" base) ->
  base = 5 \/ base = 70000.
Proof.
  intros Hb [p Hp]. apply elem_of_map_to_list in Hp.
  match type of Hp with
  | _ ∈ ?l => let l' := eval vm_compute in l in change l with l' in Hp
  end.
  rewrite <- (parse_make_bucket_key "y" base Hb).
  repeat (apply elem_of_cons in Hp as [Hp | Hp];
          [apply (f_equal fst) in Hp; cbn [fst] in Hp; rewrite Hp;
           vm_compute; auto |]).
  inversion Hp.
Qed.

Lemma put_creates_bucket_witness :
  NumericIndex.put demo_state "y" 9 200000
  = Ok (mkIndex
          (<[NumericIndex.make_forward_key "y" 9 := le_bytes 4 200000]>
             (forward_dbi_ demo_state))
          (<[NumericIndex.make_bucket_key "y" 200000
               := Bucket.serialize
                    (mkBucket 200000 [0] [9] ({[ 9 ]} ∪ ∅) true)]>
             (inverted_dbi_ demo_state))).
Proof.
  apply (put_creates_bucket demo_state "y" 9 200000 demo_state_reachable
           eq_refl).
  - unfold is_u32. lia.
  - unfold is_u32. lia.
  - vm_compute. reflexivity.
  - intros base Hb Hs _. destruct (demo_state_bases base Hb Hs); lia.
Defined.

Lemma put_into_covering_bucket_witness :
  exists b1,
    Bucket.add demo_stored_bucket 6 9 = Ok b1 /\
    NumericIndex.put demo_state "y" 9 6
    = Ok (mkIndex
            (<[NumericIndex.make_forward_key "y" 9 := le_bytes 4 6]>
               (forward_dbi_ demo_state))
            (<[NumericIndex.make_bucket_key "y" 5 := Bucket.serialize b1]>
               (inverted_dbi_ demo_state))).
Proof.
  apply (put_into_covering_bucket demo_state "y" 9 6 5 demo_stored
           demo_stored_bucket demo_state_reachable eq_refl).
  - unfold is_u32. lia.
  - unfold is_u32. lia.
  - vm_compute. reflexivity.
  - unfold is_u32. lia.
  - exact demo_stored_lookup.
  - vm_compute. reflexivity.
  - lia.
  - lia.
  - intros base Hb Hs Hle. destruct (demo_state_bases base Hb Hs); lia.
  - vm_compute. lia.
Defined.
